(** * cur-quicksight: the definition-template and parameter engine

    A shallow embedding of the pure core of the CDK application:

    - [lib/cur-parameters.ts]      : [lookupFromConfig], [createStringParameter]
    - [lib/util/json-template.ts]  : [visitJson], [assertNoHardCodedValues]
    - [infra/stack/quicksight-stack.ts] :
        [applyDatasetReference], [replaceStringRecursively],
        [normalizeDefinitionKeys], [convertLocalTimeToUtc],
        [getTimeZoneOffset]

    JavaScript values are an inductive type, objects are insertion-ordered
    lists of own enumerable properties, exceptions are an explicit result
    type, and the two engine services the code calls into (the CDK token
    test and [Intl.DateTimeFormat]) are section variables. *)

From Stdlib Require Import ZArith List String Ascii Bool Lia DecimalString.
From stdpp Require Import base option gmap strings list.

Open Scope string_scope.
Open Scope list_scope.
Set Warnings "-register-all".

(** ** JavaScript values *)

(** [JsonValue] of json-template.ts:
    [string | number | boolean | null | JsonValue[] | {[key]: JsonValue} | cdk.IResolvable].
    A plain object and a resolvable object both carry their own enumerable
    string-keyed properties in [Object.keys] order; the resolvable one also
    carries the identity of the token it stands for.  JavaScript keeps the
    keys of an object distinct; the functions below are defined on every
    list and are the code's on those.  A property read sees the own
    properties: the prototype of every object is taken to have no member of
    the names read here.  The payload of a number is never inspected by the
    tree functions. *)
Inductive jsval : Type :=
| VNull
| VBool (b : bool)
| VNum (n : Z)
| VStr (s : string)
| VArr (items : list jsval)
| VObj (props : list (string * jsval))
| VRes (token : positive) (props : list (string * jsval)).

(** Thrown values.  [JsError] is [new Error(message)]; the other two are
    raised by the engine itself. *)
Inductive exn : Type :=
| JsError (message : string)
| TypeError
| RangeError (what : string).

Inductive result (A : Type) : Type :=
| Ok (a : A)
| Throw (e : exn).
Arguments Ok {A} a.
Arguments Throw {A} e.

Definition bind {A B} (r : result A) (k : A -> result B) : result B :=
  match r with
  | Ok a => k a
  | Throw e => Throw e
  end.

Notation "'let!' x ':=' r 'in' k" := (bind r (fun x => k))
  (at level 10, x name, r at level 200, k at level 200,
   format "'[v' 'let!'  x  ':='  r  'in' '/' k ']'").
Notation "r ';;' k" := (bind r (fun _ => k))
  (at level 100, k at level 200, right associativity).

(** [typeof v === 'string' && v.length > 0] on a possibly undefined value. *)
Definition nonEmptyString (v : option jsval) : option string :=
  match v with
  | Some (VStr s) => if (0 <? String.length s)%nat then Some s else None
  | _ => None
  end.

(** ** lib/cur-parameters.ts *)

Module Parameters.

(** [Record<string, any>]: a string-keyed map, read by key only. *)
Record ParameterSources : Type := {
  global : option (gmap string jsval);
  stack : option (gmap string jsval)
}.

(** [layer && layer[key]]; [None] is [undefined]. *)
Definition layerGet (layer : option (gmap string jsval)) (key : string)
  : option jsval :=
  match layer with
  | Some m => m !! key
  | None => None
  end.

Definition lookupFromConfig (sources : ParameterSources) (key : string)
  : option string :=
  let fromStack := layerGet (stack sources) key in
  match nonEmptyString fromStack with
  | Some s => Some s
  | None =>
      let fromGlobal := layerGet (global sources) key in
      match nonEmptyString fromGlobal with
      | Some s => Some s
      | None => None
      end
  end.

(** The fields of [cdk.CfnParameterProps] the function reads. *)
Record CfnParameterProps : Type := {
  type : option string;
  default : option jsval
}.

(** The state of a [cdk.CfnParameter] after construction. *)
Record CfnParameter : Type := {
  logicalId : string;
  paramType : option string;
  paramDefault : option jsval
}.

Record ParameterDefinition : Type := {
  parameter : CfnParameter;
  value : string;
  resolved : option string
}.

(** [a ?? b]: the right operand is taken only for [undefined] and [null]. *)
Definition nullish (a b : option jsval) : option jsval :=
  match a with
  | None | Some VNull => b
  | Some _ => a
  end.

(** [v !== undefined && v !== null && v !== ''] *)
Definition isProvided (v : option jsval) : bool :=
  match v with
  | None | Some VNull => false
  | Some (VStr s) => negb (String.eqb s "")
  | Some _ => true
  end.

Section CreateParameter.
(** [stack.node.tryGetContext]: the construct tree's context values. *)
Variable context : gmap string jsval.
(** [CfnParameter.valueAsString]: the deferred handle of a parameter. *)
Variable valueAsString : string -> string.

Definition createStringParameter (id : string) (props : CfnParameterProps)
    (sources : ParameterSources) : ParameterDefinition :=
  let parameterProps :=
    {| type := match type props with Some t => Some t | None => Some "String" end;
       default := default props |} in
  let param :=
    {| logicalId := id;
       paramType := type parameterProps;
       paramDefault := default parameterProps |} in
  let contextValue := context !! id in
  let configValue := lookupFromConfig sources id in
  let overrideValue := nullish contextValue (VStr <$> configValue) in
  let param :=
    if isProvided overrideValue
    then {| logicalId := logicalId param;
            paramType := paramType param;
            paramDefault := overrideValue |}
    else param in
  let providedDefault := default parameterProps in
  let resolved :=
    match nonEmptyString overrideValue with
    | Some s => Some s
    | None =>
        match nonEmptyString providedDefault with
        | Some s => Some s
        | None => None
        end
    end in
  {| parameter := param;
     value := valueAsString id;
     resolved := resolved |}.

(** The precedence rule as the specification words it: the layers
    override, stack, global, declared default are tried in this order
    and the first one holding a non-empty string wins. *)
Definition spec_firstNonEmpty (id : string) (props : CfnParameterProps)
    (sources : ParameterSources) : option string :=
  match nonEmptyString (context !! id) with
  | Some s => Some s
  | None =>
      match nonEmptyString (layerGet (stack sources) id) with
      | Some s => Some s
      | None =>
          match nonEmptyString (layerGet (global sources) id) with
          | Some s => Some s
          | None => nonEmptyString (default props)
          end
      end
  end.
End CreateParameter.

End Parameters.

(** ** Strings

    A string is a sequence of code units; the embedding covers the code
    units below 256 (ASCII and Latin-1), which is what [Ascii.ascii]
    holds. *)

Definition code (c : ascii) : N := N_of_ascii c.

Definition isDigit (c : ascii) : bool := ((48 <=? code c) && (code c <=? 57))%N.

(** [String.prototype.toLowerCase] on one code unit: A-Z, and the Latin-1
    capitals U+00C0..U+00DE except the multiplication sign U+00D7. *)
Definition toLowerCase (c : ascii) : ascii :=
  let n := code c in
  if (((65 <=? n) && (n <=? 90))
      || ((192 <=? n) && (n <=? 222) && negb (n =? 215)))%N
  then ascii_of_N (n + 32)
  else c.

(** [String.prototype.includes] *)
Fixpoint includes (hay needle : string) : bool :=
  if String.prefix needle hay then true
  else match hay with
       | EmptyString => false
       | String _ rest => includes rest needle
       end.

(** [String(index)] for an array index. *)
Definition indexToString (i : nat) : string :=
  NilEmpty.string_of_uint (Nat.to_uint i).

(** *** The regular expression [/arn:aws:[^:]+:[^:]+:\d{12}:/i]

    Each piece returns the rest of the input after its match.  The
    character classes cannot cross a colon and each is followed by a
    colon, so the greedy match of a piece is its only match. *)

(** The [i] flag on one code unit, for a pattern of ASCII characters: the
    ASCII letters are folded; a code unit from 128 on never matches an
    ASCII one. *)
Definition foldCase (c : ascii) : ascii :=
  if (code c <? 128)%N then toLowerCase c else c.

(** A literal under the [i] flag. *)
Fixpoint literalCI (pattern s : string) : option string :=
  match pattern, s with
  | EmptyString, _ => Some s
  | String p pattern', String c s' =>
      if Ascii.eqb (foldCase p) (foldCase c) then literalCI pattern' s' else None
  | String _ _, EmptyString => None
  end.

(** [[^:]*:] *)
Fixpoint upToColon (s : string) : option string :=
  match s with
  | EmptyString => None
  | String c s' => if Ascii.eqb c ":" then Some s' else upToColon s'
  end.

(** [[^:]+:] *)
Definition field (s : string) : option string :=
  match s with
  | EmptyString => None
  | String c s' => if Ascii.eqb c ":" then None else upToColon s'
  end.

(** [\d{n}] *)
Fixpoint digits (n : nat) (s : string) : option string :=
  match n, s with
  | O, _ => Some s
  | S n', String c s' => if isDigit c then digits n' s' else None
  | S _, EmptyString => None
  end.

Definition arnAt (s : string) : bool :=
  match literalCI "arn:aws:" s with
  | Some s1 =>
      match field s1 with
      | Some s2 =>
          match field s2 with
          | Some s3 =>
              match digits 12 s3 with
              | Some s4 => match literalCI ":" s4 with Some _ => true | None => false end
              | None => false
              end
          | None => false
          end
      | None => false
      end
  | None => false
  end.

(** [RegExp.prototype.test]: a match starting at some position. *)
Fixpoint arnPattern_test (s : string) : bool :=
  if arnAt s then true
  else match s with
       | EmptyString => false
       | String _ rest => arnPattern_test rest
       end.

(** ** lib/util/json-template.ts *)

Inductive segment : Type :=
| Idx (index : nat)
| Key (key : string).

Definition segmentToString (s : segment) : string :=
  match s with
  | Idx i => indexToString i
  | Key k => k
  end.

(** [pathSegments.join('.')] *)
Definition joinPath (pathSegments : list segment) : string :=
  String.concat "." (map segmentToString pathSegments).

Definition JsonVisitor : Type := jsval -> list segment -> result unit.

(** [cdk.Token.isUnresolved] on an object is true exactly for the
    resolvable ones, which are the [VRes] nodes; such a node is visited but
    not entered.  [Array.forEach] hands out the elements with their index,
    [Object.keys] the own keys in order. *)
Fixpoint visitJson (value : jsval) (visitor : JsonVisitor)
    (pathSegments : list segment) {struct value} : result unit :=
  visitor value pathSegments ;;
  match value with
  | VArr items =>
      (fix forEach (l : list jsval) (index : nat) {struct l} : result unit :=
         match l with
         | [] => Ok tt
         | item :: rest =>
             visitJson item visitor (pathSegments ++ [Idx index]) ;;
             forEach rest (S index)
         end) items O
  | VObj props =>
      (fix forEach (l : list (string * jsval)) {struct l} : result unit :=
         match l with
         | [] => Ok tt
         | (key, v) :: rest =>
             visitJson v visitor (pathSegments ++ [Key key]) ;;
             forEach rest
         end) props
  | _ => Ok tt
  end.

Section Sanitizer.
(** [cdk.Token.isUnresolved] on a string: whether the string carries an
    encoded token.  The test belongs to aws-cdk-lib. *)
Variable isUnresolved : string -> bool.

(** The two tests of the visitor, for a string that is not unresolved. *)
Definition hardCodedArn (node : string) : bool := arnPattern_test node.

Definition hardCodedS3Uri (node : string) : bool :=
  includes node "s3://" && negb (includes node "${Token[").

(** The visitor passed to [visitJson]. *)
Definition hardCodedVisitor (messageContext : string) : JsonVisitor :=
  fun node pathSegments =>
    match node with
    | VStr node =>
        if isUnresolved node then Ok tt
        else if hardCodedArn node then
          Throw (JsError ("Hardcoded ARN detected at " +:+ joinPath pathSegments
                          +:+ " in " +:+ messageContext))
        else if hardCodedS3Uri node then
          Throw (JsError ("Hardcoded S3 URI detected at " +:+ joinPath pathSegments
                          +:+ " in " +:+ messageContext))
        else Ok tt
    | _ => Ok tt
    end.

Definition assertNoHardCodedValues (value : jsval) (messageContext : string)
  : result unit :=
  visitJson value (hardCodedVisitor messageContext) [].
End Sanitizer.

(** ** infra/stack/quicksight-stack.ts: tree rewriting *)

(** [obj[key]] read of an own property. *)
Fixpoint getOwn (props : list (string * jsval)) (key : string) : option jsval :=
  match props with
  | [] => None
  | (k, v) :: rest => if String.eqb k key then Some v else getOwn rest key
  end.

(** [obj[key] = v] as a data property: an existing key keeps its place,
    a new key goes last. *)
Fixpoint setOwn (props : list (string * jsval)) (key : string) (v : jsval)
  : list (string * jsval) :=
  match props with
  | [] => [(key, v)]
  | (k, old) :: rest =>
      if String.eqb k key then (k, v) :: rest else (k, old) :: setOwn rest key v
  end.

(** [normalized[key] = v] on an object that started as the literal [{}]:
    the name [__proto__] is the accessor inherited from [Object.prototype]
    and never becomes an own property this way; every other name is a data
    property.  An object or [null] assigned under that name becomes the
    prototype of the new object instead.  This file follows own properties
    only: a later read that finds no own property is the read of the code
    for the trees in which no key is [__proto__]. *)
Definition assign (normalized : list (string * jsval)) (key : string) (v : jsval)
  : list (string * jsval) :=
  if String.eqb key "__proto__" then normalized else setOwn normalized key v.

(** [key.length > 0 ? key[0].toLowerCase() + key.slice(1) : key] *)
Definition normalizeKey (key : string) : string :=
  match key with
  | EmptyString => key
  | String c rest => String (toLowerCase c) rest
  end.

(** [value && typeof value === 'object'] holds for plain and for
    resolvable objects alike; both are rebuilt from [Object.entries]. *)
Fixpoint normalizeDefinitionKeys (value : jsval) : jsval :=
  match value with
  | VArr items => VArr (map normalizeDefinitionKeys items)
  | VObj props | VRes _ props =>
      VObj (fold_left
              (fun normalized entry =>
                 assign normalized (normalizeKey (fst entry))
                        (normalizeDefinitionKeys (snd entry)))
              props [])
  | _ => value
  end.

(** [typeof item === 'string' && item === search] *)
Definition isSearch (item : jsval) (search : string) : bool :=
  match item with
  | VStr s => String.eqb s search
  | _ => false
  end.

(** The function returns nothing and works on its argument in place; the
    embedding gives the state of [target] after the call.  A [target] that
    is not an array or an object is left as it is. *)
Fixpoint replaceStringRecursively (target : jsval) (search replace : string)
  : jsval :=
  let child (item : jsval) : jsval :=
    if isSearch item search then VStr replace
    else replaceStringRecursively item search replace in
  match target with
  | VArr items => VArr (map child items)
  | VObj props => VObj (map (fun entry => (fst entry, child (snd entry))) props)
  | VRes token props =>
      VRes token (map (fun entry => (fst entry, child (snd entry))) props)
  | _ => target
  end.

Definition declarationKey : string := "dataSetIdentifierDeclarations".

(** The entry [{ identifier, dataSetArn: datasetArn }]. *)
Definition declaration (datasetArn identifier : string) : jsval :=
  VObj [("identifier", VStr identifier); ("dataSetArn", VStr datasetArn)].

(** [definition[declarationKey]]: a [TypeError] on [null]; no such member
    on an array or a primitive.  The read finds an own property: the
    objects of a tree have the prototype that [JSON.parse] and an object
    literal give them, which has no member of that name. *)
Definition getDeclarations (definition : jsval) : result (option jsval) :=
  match definition with
  | VNull => Throw TypeError
  | VObj props | VRes _ props => Ok (getOwn props declarationKey)
  | _ => Ok None
  end.

(** The first statement of [applyDatasetReference]: the [if] that maps the
    declarations array. *)
Definition rebindDeclarations (definition : jsval) (datasetArn identifier : string)
  : result jsval :=
  let! declarations := getDeclarations definition in
  match declarations with
  | Some (VArr items) =>
      let rebound := VArr (map (fun _ => declaration datasetArn identifier) items) in
      match definition with
      | VObj props => Ok (VObj (setOwn props declarationKey rebound))
      | VRes token props => Ok (VRes token (setOwn props declarationKey rebound))
      | _ => Ok definition
      end
  | _ => Ok definition
  end.

Definition templateIdentifier : string := "synnex-org-usage".
Definition templateArn : string :=
  "arn:aws:quicksight:us-east-1:168000259484:dataset/f135f8e9-8ff0-4224-b130-e007b88ed65e".

Definition applyDatasetReference (definition : jsval) (datasetArn identifier : string)
  : result jsval :=
  let! definition := rebindDeclarations definition datasetArn identifier in
  let definition := replaceStringRecursively definition templateIdentifier identifier in
  Ok (replaceStringRecursively definition templateArn datasetArn).

(** The subtree at a path, for stating where a rewrite acts. *)
Definition childAt (value : jsval) (s : segment) : option jsval :=
  match value, s with
  | VArr items, Idx i => items !! i
  | VObj props, Key k | VRes _ props, Key k => getOwn props k
  | _, _ => None
  end.

Fixpoint subtree (value : jsval) (path : list segment) : option jsval :=
  match path with
  | [] => Some value
  | s :: rest =>
      match childAt value s with
      | Some child => subtree child rest
      | None => None
      end
  end.

(** ** infra/stack/quicksight-stack.ts: the schedule time

    A [Number] is [option Z]: the code only produces integers here, and
    [None] is [NaN].  [parseInt] and the arithmetic of [Date.UTC] are
    computed exactly, which is what the engine's doubles do as long as every
    intermediate value stays below 2^53 in magnitude; the largest time value
    that a [Date] accepts, 8.64e15 ms, is below that. *)

Definition Number : Type := option Z.

Local Open Scope Z_scope.
Local Open Scope list_scope.

Definition lift2 (f : Z -> Z -> Z) (a b : Number) : Number :=
  match a, b with
  | Some x, Some y => Some (f x y)
  | _, _ => None
  end.

(** [String.prototype.split] with a one-character separator. *)
Fixpoint split (s : string) (sep : ascii) : list string :=
  match s with
  | EmptyString => [EmptyString]
  | String c rest =>
      if Ascii.eqb c sep then EmptyString :: split rest sep
      else match split rest sep with
           | [] => [String c EmptyString]
           | piece :: pieces => String c piece :: pieces
           end
  end.

(** White space and line terminators that [parseInt] skips. *)
Definition isWhiteSpace (c : ascii) : bool :=
  let n := code c in
  (((9 <=? n) && (n <=? 13)) || (n =? 32) || (n =? 160))%N.

Fixpoint trimStart (s : string) : string :=
  match s with
  | String c rest => if isWhiteSpace c then trimStart rest else s
  | EmptyString => s
  end.

Definition digitValue (c : ascii) : Z := Z.of_N (code c) - 48.

(** The value of the longest prefix of decimal digits, given the value
    [acc] of the [seen] digits before it. *)
Fixpoint digitsValue (s : string) (acc : Z) (seen : bool) : Number :=
  match s with
  | String c rest =>
      if isDigit c
      then digitsValue rest (10 * acc + digitValue c) true
      else if seen then Some acc else None
  | EmptyString => if seen then Some acc else None
  end.

(** [parseInt(string, 10)], as the integer that the digits write.  The
    engine returns the double nearest to it, which is that integer up to
    2^53 in magnitude; statements about digit strings of any length carry
    that bound ([withinExactRange]). *)
Definition parseInt (input : string) : Number :=
  match trimStart input with
  | String c rest =>
      if Ascii.eqb c "-" then Z.opp <$> digitsValue rest 0 false
      else if Ascii.eqb c "+" then digitsValue rest 0 false
      else digitsValue (String c rest) 0 false
  | EmptyString => None
  end.

(** [parseInt(x, 10)] where [x] may be [undefined]: the text
    ["undefined"] has no digit. *)
Definition parseIntOf (x : option string) : Number :=
  match x with
  | Some s => parseInt s
  | None => None
  end.

Definition msPerSecond : Z := 1000.
Definition msPerMinute : Z := 60000.
Definition msPerHour : Z := 3600000.
Definition msPerDay : Z := 86400000.

Definition DayFromYear (y : Z) : Z :=
  365 * (y - 1970) + (y - 1969) / 4 - (y - 1901) / 100 + (y - 1601) / 400.

Definition InLeapYear (y : Z) : bool :=
  ((y mod 4 =? 0) && negb (y mod 100 =? 0)) || (y mod 400 =? 0).

(** Days before the month [mn] (0 = January) within its year. *)
Definition DayWithinYear (mn : Z) (leap : bool) : Z :=
  let base :=
    nth (Z.to_nat mn) [0; 31; 59; 90; 120; 151; 181; 212; 243; 273; 304; 334] 0 in
  if leap && (2 <=? mn) then base + 1 else base.

Definition MakeDay (year month date : Z) : Z :=
  let ym := year + month / 12 in
  let mn := month mod 12 in
  DayFromYear ym + DayWithinYear mn (InLeapYear ym) + date - 1.

Definition MakeTime (hour min sec ms : Z) : Z :=
  hour * msPerHour + min * msPerMinute + sec * msPerSecond + ms.

Definition MakeDate (day time : Z) : Z := day * msPerDay + time.

Definition TimeClip (time : Z) : Number :=
  if Z.abs time <=? 8640000000000000 then Some time else None.

Definition MakeFullYear (y : Z) : Z :=
  if (0 <=? y) && (y <=? 99) then 1900 + y else y.

(** [Date.UTC(year, month, date, hours, minutes, seconds, ms)]; an
    argument that is [NaN] or [undefined] makes the result [NaN]. *)
Definition Date_UTC (year month date hours minutes seconds ms : Number) : Number :=
  match year, month, date, hours, minutes, seconds, ms with
  | Some y, Some m, Some dt, Some h, Some mi, Some s, Some milli =>
      TimeClip (MakeDate (MakeDay (MakeFullYear y) m dt) (MakeTime h mi s milli))
  | _, _, _, _, _, _, _ => None
  end.

(** A [Date] is its time value; [new Date(tv)] clips it. *)
Definition newDate (tv : Number) : Number :=
  match tv with
  | Some t => TimeClip t
  | None => None
  end.

Definition getUTCHours (date : Number) : Number :=
  (fun t => (t / msPerHour) mod 24) <$> date.

Definition getUTCMinutes (date : Number) : Number :=
  (fun t => (t / msPerMinute) mod 60) <$> date.

(** [Number.prototype.toString] *)
Definition numberToString (n : Number) : string :=
  match n with
  | None => "NaN"
  | Some z =>
      if z <? 0 then "-" +:+ NilEmpty.string_of_uint (N.to_uint (Z.to_N (- z)))
      else NilEmpty.string_of_uint (N.to_uint (Z.to_N z))
  end.

(** [s.padStart(2, '0')] *)
Definition padStart2 (s : string) : string :=
  match s with
  | EmptyString => "00"
  | String c EmptyString => String "0" s
  | _ => s
  end.

Section ScheduleTime.
(** [new Intl.DateTimeFormat('en-US', { timeZone, year: 'numeric',
    month: '2-digit', day: '2-digit', hour: '2-digit', minute: '2-digit',
    second: '2-digit', hour12: false })]: the engine refuses a time zone it
    cannot resolve ([None], a [RangeError]); otherwise the formatter's
    [formatToParts] gives, for a valid time value, the list of
    [(type, value)] parts. *)
Variable DateTimeFormat : string -> option (Z -> list (string * string)).

(** The loop that collects the parts that are not literals. *)
Definition collectParts (parts : list (string * string)) : gmap string string :=
  fold_left
    (fun data part =>
       if String.eqb (fst part) "literal" then data
       else <[fst part := snd part]> data)
    parts ∅.

Definition getTimeZoneOffset (date : Number) (timeZone : string) : result Number :=
  match DateTimeFormat timeZone with
  | None => Throw (RangeError "Invalid time zone specified")
  | Some formatToParts =>
      match date with
      | None => Throw (RangeError "Invalid time value")
      | Some t =>
          let parts := formatToParts t in
          let data := collectParts parts in
          let asUtc :=
            Date_UTC (parseIntOf (data !! "year"))
                     (lift2 Z.sub (parseIntOf (data !! "month")) (Some 1))
                     (parseIntOf (data !! "day"))
                     (parseIntOf (data !! "hour"))
                     (parseIntOf (data !! "minute"))
                     (parseIntOf (data !! "second"))
                     (Some 0) in
          Ok (lift2 Z.sub asUtc date)
      end
  end.

(** [new Date(Date.UTC(1970, 0, 1, hour, minute, 0, 0))] for the two
    first pieces of [localTime.split(':')], each through [parseInt].  The
    sum is the engine's for an hour and a minute [withinExactRange]; beyond
    it the engine rounds, and its reference date can differ from this one. *)
Definition referenceDate (localTime : string) : Number :=
  let parsed := map parseInt (split localTime ":") in
  let hour := parsed !! 0%nat ≫= id in
  let minute := parsed !! 1%nat ≫= id in
  newDate (Date_UTC (Some 1970) (Some 0) (Some 1) hour minute (Some 0) (Some 0)).

Definition convertLocalTimeToUtc (localTime timezone : string) : result string :=
  let reference := referenceDate localTime in
  let! offset := getTimeZoneOffset reference timezone in
  let utcDate := newDate (lift2 Z.sub reference offset) in
  Ok (padStart2 (numberToString (getUTCHours utcDate)) +:+ ":"
      +:+ padStart2 (numberToString (getUTCMinutes utcDate))).
End ScheduleTime.

(** The format the specification asks of a local time: two digits, a
    colon, two digits, the hour at most 23 and the minute at most 59. *)
Definition wellFormedLocalTime (localTime : string) : bool :=
  match localTime with
  | String h1 (String h2 (String c (String m1 (String m2 EmptyString)))) =>
      Ascii.eqb c ":"
      && isDigit h1 && isDigit h2 && isDigit m1 && isDigit m2
      && (10 * digitValue h1 + digitValue h2 <=? 23)
      && (10 * digitValue m1 + digitValue m2 <=? 59)
  | _ => false
  end.

(** The hour and the minute that a well-formed local time writes. *)
Definition writtenHour (localTime : string) : Z :=
  match localTime with
  | String h1 (String h2 _) => 10 * digitValue h1 + digitValue h2
  | _ => 0
  end.

Definition writtenMinute (localTime : string) : Z :=
  match localTime with
  | String _ (String _ (String _ (String m1 (String m2 _)))) =>
      10 * digitValue m1 + digitValue m2
  | _ => 0
  end.

(** The time value of that hour and minute on 1970-01-01, read as UTC. *)
Definition writtenInstant (localTime : string) : Z :=
  writtenHour localTime * msPerHour + writtenMinute localTime * msPerMinute.

(** The hour and the minute that the two first pieces of a local time
    parse to are small enough for the engine to compute the reference date
    as this file does: the engine's numbers are doubles, [parseInt] rounds
    to the nearest one and [Date.UTC] adds and multiplies with rounding, and
    all of it is exact when the two products and their sum are integers of
    at most 2^53 in magnitude.  A local time with fewer than two pieces
    that parse is in that range: its reference date is invalid whatever the
    piece that parses is. *)
Definition withinExactRange (localTime : string) : Prop :=
  forall hour minute,
    map parseInt (split localTime ":") !! 0%nat = Some (Some hour) ->
    map parseInt (split localTime ":") !! 1%nat = Some (Some minute) ->
    Z.abs hour * msPerHour + Z.abs minute * msPerMinute <= 2 ^ 53.

(** *** A reference rendering of wall-clock fields

    What a formatter with an hour cycle from 00 to 23 shows for the time
    value [t] in a zone that is [offset] milliseconds ahead of UTC, in the
    part order of the [en-US] locale.  It is used to say what a time zone
    database holds for a zone, and as the formatter of a small engine with
    two zones at the offsets they had in January 1970. *)

(** The proleptic Gregorian date of a day number (day 0 is 1970-01-01). *)
Definition civilFromDays (day : Z) : Z * Z * Z :=
  let z := day + 719468 in
  let era := z / 146097 in
  let doe := z mod 146097 in
  let yoe := (doe - doe / 1460 + doe / 36524 - doe / 146096) / 365 in
  let doy := doe - (365 * yoe + yoe / 4 - yoe / 100) in
  let mp := (5 * doy + 2) / 153 in
  let d := doy - (153 * mp + 2) / 5 + 1 in
  let m := if mp <? 10 then mp + 3 else mp - 9 in
  let y := yoe + era * 400 in
  (if m <=? 2 then y + 1 else y, m, d).

Definition twoDigits (n : Z) : string := padStart2 (numberToString (Some n)).

Definition enUSParts (year month day hour minute second : Z)
  : list (string * string) :=
  [("month", twoDigits month); ("literal", "/");
   ("day", twoDigits day); ("literal", "/");
   ("year", numberToString (Some year)); ("literal", ", ");
   ("hour", twoDigits hour); ("literal", ":");
   ("minute", twoDigits minute); ("literal", ":");
   ("second", twoDigits second)].

Definition wallClockParts (offset t : Z) : list (string * string) :=
  let wall := t + offset in
  match civilFromDays (wall / msPerDay) with
  | (y, m, d) =>
      enUSParts y m d ((wall / msPerHour) mod 24) ((wall / msPerMinute) mod 60)
                ((wall / msPerSecond) mod 60)
  end.

(** The formatter shows the time value [t] as the wall clock of a zone
    [offset] milliseconds ahead of UTC. *)
Definition showsOffset (formatToParts : Z -> list (string * string))
    (t offset : Z) : Prop :=
  collectParts (formatToParts t) = collectParts (wallClockParts offset t).

(** An engine that knows two zones of the IANA database, at their
    offsets of January 1970: Indochina Time, UTC+7, and Eastern Standard
    Time, UTC-5. *)
Definition engine1970 (timeZone : string) : option (Z -> list (string * string)) :=
  if String.eqb timeZone "Asia/Bangkok" then Some (wallClockParts (7 * msPerHour))
  else if String.eqb timeZone "America/New_York" then Some (wallClockParts (-5 * msPerHour))
  else None.

(** An engine-side token test shaped like the one of aws-cdk-lib: a
    string is unresolved when it holds the marker that opens an encoded
    token. *)
Definition markerTest (s : string) : bool := includes s "${Token[".

(** ** Statements about the traversal, as definitions *)

(** The nodes of a tree in pre-order, each with its path: the root, then
    the elements of an array by index, the values of a plain object by
    key; nothing below a resolvable object. *)
Fixpoint preorder (value : jsval) (path : list segment) {struct value}
  : list (list segment * jsval) :=
  (path, value) ::
  match value with
  | VArr items =>
      (fix elements (l : list jsval) (index : nat) {struct l}
         : list (list segment * jsval) :=
         match l with
         | [] => []
         | item :: rest =>
             (preorder item (path ++ [Idx index]) ++ elements rest (S index))%list
         end) items O
  | VObj props =>
      (fix values (l : list (string * jsval)) {struct l}
         : list (list segment * jsval) :=
         match l with
         | [] => []
         | (key, v) :: rest =>
             (preorder v (path ++ [Key key]) ++ values rest)%list
         end) props
  | _ => []
  end.

(** Calling a visitor on a sequence of nodes until it throws. *)
Fixpoint visitAll (visitor : JsonVisitor) (nodes : list (list segment * jsval))
  : result unit :=
  match nodes with
  | [] => Ok tt
  | (path, node) :: rest => visitor node path ;; visitAll visitor rest
  end.

(** A string leaf that the sanitizer forbids. *)
Definition forbidden (isUnresolved : string -> bool) (node : jsval) : bool :=
  match node with
  | VStr s => negb (isUnresolved s) && (hardCodedArn s || hardCodedS3Uri s)
  | _ => false
  end.

(** *** The error of the sanitizer, said without the code's helpers *)

(** A path segment as text: a key as it is, an index in decimal. *)
Definition segmentText (s : segment) : string :=
  match s with
  | Key k => k
  | Idx i => NilEmpty.string_of_uint (Nat.to_uint i)
  end.

(** The dotted form of a path: its segments in order with a dot between
    two neighbours, the empty text for the empty path. *)
Fixpoint dottedPath (path : list segment) : string :=
  match path with
  | [] => ""
  | s :: rest =>
      match rest with
      | [] => segmentText s
      | _ :: _ => segmentText s +:+ "." +:+ dottedPath rest
      end
  end.

(** The message of the error for a violation of one kind at a path. *)
Definition violationMessage (kind : string) (path : list segment)
    (messageContext : string) : string :=
  kind +:+ " detected at " +:+ dottedPath path +:+ " in " +:+ messageContext.

(** The loop of [normalizeDefinitionKeys] over the entries of an object,
    from the properties assigned so far. *)
Definition rebuild (f : jsval -> jsval) (props normalized : list (string * jsval))
  : list (string * jsval) :=
  fold_left
    (fun normalized entry =>
       assign normalized (normalizeKey (fst entry)) (f (snd entry)))
    props normalized.


(** An entry that the normalizer writes back as it is. *)
Definition settled (entry : string * jsval) : Prop :=
  normalizeKey (fst entry) = fst entry
  /\ fst entry <> "__proto__"
  /\ normalizeDefinitionKeys (snd entry) = snd entry.

(** What [replaceStringRecursively] leaves at the place of an array
    element or of an object value. *)
Definition replaced (search replace : string) (item : jsval) : jsval :=
  if isSearch item search then VStr replace
  else replaceStringRecursively item search replace.

(** *** The forbidden patterns, said without a matcher *)

Fixpoint foldCaseString (s : string) : string :=
  match s with
  | EmptyString => EmptyString
  | String c rest => String (foldCase c) (foldCaseString rest)
  end.

Fixpoint colonFree (s : string) : bool :=
  match s with
  | EmptyString => true
  | String c rest => negb (Ascii.eqb c ":") && colonFree rest
  end.

Fixpoint allDigits (s : string) : bool :=
  match s with
  | EmptyString => true
  | String c rest => isDigit c && allDigits rest
  end.

(** A resource name that starts the string: [arn:aws:] in any case, a
    service and a region that are not empty, an account number of twelve
    digits, each closed by a colon. *)
Definition startsWithAccountArn (s : string) : Prop :=
  exists scheme service region account rest,
    s = scheme +:+ service +:+ ":" +:+ region +:+ ":" +:+ account +:+ ":" +:+ rest
    /\ foldCaseString scheme = "arn:aws:"
    /\ service <> "" /\ colonFree service = true
    /\ region <> "" /\ colonFree region = true
    /\ String.length account = 12%nat /\ allDigits account = true.

(** [needle] occurs in [hay]. *)
Definition occursIn (needle hay : string) : Prop :=
  exists before after, hay = before +:+ needle +:+ after.

(** A resource name with an account number stands somewhere in the
    string. *)
Definition holdsAccountArn (s : string) : Prop :=
  exists before name, s = before +:+ name /\ startsWithAccountArn name.

(** A node that the sanitizer has to refuse: a string that is not an
    encoded token and holds a resource name with an account number, or the
    S3 scheme without the marker of a token. *)
Definition hardCodedValue (isUnresolved : string -> bool) (node : jsval) : Prop :=
  exists s,
    node = VStr s
    /\ isUnresolved s = false
    /\ (holdsAccountArn s \/ (occursIn "s3://" s /\ ~ occursIn "${Token[" s)).

(** No context value for the parameter: [tryGetContext] gave [undefined]
    or [null]. *)
Definition noOverride (context : gmap string jsval) (id : string) : Prop :=
  context !! id = None \/ context !! id = Some VNull.

(** * The rest of the code *)

(** ** lib/cur-parameters.ts: the shared parameters *)

Module Shared.

Record SharedParameters : Type := {
  curExportBucketName : Parameters.ParameterDefinition;
  partnerListBucketName : Parameters.ParameterDefinition;
  glueDatabaseName : Parameters.ParameterDefinition;
  createGlueCrawlers : Parameters.ParameterDefinition;
  curTableName : Parameters.ParameterDefinition;
  quicksightNamespace : Parameters.ParameterDefinition;
  quicksightAdminUserArn : Parameters.ParameterDefinition;
  rlsAthenaResultsBucketName : Parameters.ParameterDefinition;
  rlsAthenaResultsPrefix : Parameters.ParameterDefinition;
  dailyRefreshTimeLocal : Parameters.ParameterDefinition;
  timezone : Parameters.ParameterDefinition
}.

Record ParameterSourceOverrides : Type := {
  globalParameters : option (gmap string jsval);
  stackParameters : option (gmap string jsval)
}.

Section CreateShared.
Variable context : gmap string jsval.
Variable valueAsString : string -> string.
(** [cdk.Fn.sub]: the string that encodes the substitution. *)
Variable fnSub : string -> string.

(** A declared default that is a string; the descriptions and the
    constraints of the properties play no part in the resolution. *)
Definition withDefault (s : string) : Parameters.CfnParameterProps :=
  {| Parameters.type := None; Parameters.default := Some (VStr s) |}.

Definition withoutDefault : Parameters.CfnParameterProps :=
  {| Parameters.type := None; Parameters.default := None |}.

Definition createSharedParameters (overrides : option ParameterSourceOverrides)
  : SharedParameters :=
  let sources :=
    {| Parameters.global := overrides ≫= globalParameters;
       Parameters.stack := overrides ≫= stackParameters |} in
  let create := Parameters.createStringParameter context valueAsString in
  let glueDatabaseDefault := "cur-quicksight" in
  let rlsPrefixDefault := "cur-rls/" in
  let dailyRefreshDefault := "10:00" in
  let timezoneDefault := "Asia/Bangkok" in
  {| curExportBucketName := create "CurExportBucketName" withoutDefault sources;
     partnerListBucketName := create "PartnerListBucketName" withoutDefault sources;
     glueDatabaseName := create "GlueDatabaseName" (withDefault glueDatabaseDefault) sources;
     createGlueCrawlers := create "CreateGlueCrawlers" (withDefault "true") sources;
     curTableName := create "CurTableName" (withDefault "data") sources;
     quicksightNamespace := create "QuicksightNamespace" (withDefault "default") sources;
     quicksightAdminUserArn := create "QuicksightAdminUserArn" withoutDefault sources;
     rlsAthenaResultsBucketName :=
       create "RlsAthenaResultsBucketName"
         (withDefault (fnSub "aws-athena-query-results-${AWS::Region}-${AWS::AccountId}"))
         sources;
     rlsAthenaResultsPrefix :=
       create "RlsAthenaResultsPrefix" (withDefault rlsPrefixDefault) sources;
     dailyRefreshTimeLocal :=
       create "DailyRefreshTimeLocal" (withDefault dailyRefreshDefault) sources;
     timezone := create "Timezone" (withDefault timezoneDefault) sources |}.
End CreateShared.

End Shared.

(** A token of the shape the marker test looks for, one for each logical
    name: a stand-in for [valueAsString] where a statement is run. *)
Definition tokenOf (logicalId : string) : string :=
  "${Token[TOKEN." +:+ logicalId +:+ "]}".

(** ** infra/stack/quicksight-stack.ts: the refresh schedule *)

Record ScheduleTiming : Type := {
  timeOfTheDay : string;
  timeZone : string
}.

(** A string in a condition: the empty string and [undefined] are false. *)
Definition truthy (s : option string) : bool :=
  match s with
  | Some s => (0 <? String.length s)%nat
  | None => false
  end.

Section RefreshSchedule.
Variable isUnresolved : string -> bool.
Variable DateTimeFormat : string -> option (Z -> list (string * string)).

Definition tryResolveParameter (parameter : Parameters.ParameterDefinition)
  : option string :=
  if truthy (Parameters.resolved parameter)
  then Parameters.resolved parameter
  else if negb (isUnresolved (Parameters.value parameter))
          && (0 <? String.length (Parameters.value parameter))%nat
  then Some (Parameters.value parameter)
  else None.

Definition resolveRefreshScheduleTiming (parameters : Shared.SharedParameters)
  : result ScheduleTiming :=
  let localTime := tryResolveParameter (Shared.dailyRefreshTimeLocal parameters) in
  let timezone := tryResolveParameter (Shared.timezone parameters) in
  match localTime, timezone with
  | Some lt, Some tz =>
      if truthy localTime && truthy timezone then
        let! utc := convertLocalTimeToUtc DateTimeFormat lt tz in
        Ok {| timeOfTheDay := utc; timeZone := "UTC" |}
      else
        Ok {| timeOfTheDay := Parameters.value (Shared.dailyRefreshTimeLocal parameters);
              timeZone := Parameters.value (Shared.timezone parameters) |}
  | _, _ =>
      Ok {| timeOfTheDay := Parameters.value (Shared.dailyRefreshTimeLocal parameters);
            timeZone := Parameters.value (Shared.timezone parameters) |}
  end.
End RefreshSchedule.

(** ** infra/stack/quicksight-stack.ts: resource identifiers *)

Fixpoint mapString (f : ascii -> ascii) (s : string) : string :=
  match s with
  | EmptyString => EmptyString
  | String c rest => String (f c) (mapString f rest)
  end.

(** The class [[A-Za-z0-9_-]]. *)
Definition isIdChar (c : ascii) : bool :=
  let n := code c in
  (((65 <=? n) && (n <=? 90)) || ((97 <=? n) && (n <=? 122))
   || ((48 <=? n) && (n <=? 57)) || (n =? 95) || (n =? 45))%N.

(** [base.replace(/[^A-Za-z0-9_-]/g, '-')]: every code unit outside the
    class becomes a hyphen. *)
Definition replaceDisallowed (base : string) : string :=
  mapString (fun c => if isIdChar c then c else "-"%char) base.

(** [String.prototype.toLowerCase] on a string of code units below 256:
    unit by unit, there is no contextual rule in that range. *)
Definition toLowerCaseString (s : string) : string := mapString toLowerCase s.

(** The two calls that [toResourceId] chains on the prefixed name. *)
Definition resourceIdOf (base : string) : string :=
  toLowerCaseString (replaceDisallowed base).

Section ResourceId.
(** [BaseStack.withProjectPrefix], of the stack template library. *)
Variable withProjectPrefix : string -> string.

Definition toResourceId (suffix : string) : string :=
  let base := withProjectPrefix suffix in
  resourceIdOf base.
End ResourceId.

(** The characters of a resource identifier: [[a-z0-9_-]]. *)
Definition isLowerIdChar (c : ascii) : bool :=
  let n := code c in
  (((97 <=? n) && (n <=? 122)) || ((48 <=? n) && (n <=? 57))
   || (n =? 95) || (n =? 45))%N.

Fixpoint allChars (p : ascii -> bool) (s : string) : bool :=
  match s with
  | EmptyString => true
  | String c rest => p c && allChars p rest
  end.

(** ** The traversal, list by list *)

(** The nodes below the elements of an array, from a given index on, and
    below the values of an object: the two loops of [visitJson]. *)
Fixpoint preorderElements (items : list jsval) (path : list segment) (index : nat)
  : list (list segment * jsval) :=
  match items with
  | [] => []
  | item :: rest =>
      preorder item (path ++ [Idx index]) ++ preorderElements rest path (S index)
  end.

Fixpoint preorderValues (props : list (string * jsval)) (path : list segment)
  : list (list segment * jsval) :=
  match props with
  | [] => []
  | entry :: rest =>
      preorder (snd entry) (path ++ [Key (fst entry)]) ++ preorderValues rest path
  end.

(** Every plain object that the traversal enters has distinct keys, as a
    JavaScript object has. *)
Fixpoint distinctKeys (value : jsval) : Prop :=
  match value with
  | VArr items =>
      (fix all (l : list jsval) : Prop :=
         match l with
         | [] => True
         | item :: rest => distinctKeys item /\ all rest
         end) items
  | VObj props =>
      List.NoDup (map fst props)
      /\ (fix all (l : list (string * jsval)) : Prop :=
            match l with
            | [] => True
            | entry :: rest => distinctKeys (snd entry) /\ all rest
            end) props
  | _ => True
  end.

(** The child and the subtree at a path that enters arrays and plain
    objects only, as the traversal does. *)
Definition childEntered (value : jsval) (s : segment) : option jsval :=
  match value, s with
  | VArr items, Idx i => items !! i
  | VObj props, Key k => getOwn props k
  | _, _ => None
  end.

Fixpoint subtreeEntered (value : jsval) (path : list segment) : option jsval :=
  match path with
  | [] => Some value
  | s :: rest =>
      match childEntered value s with
      | Some child => subtreeEntered child rest
      | None => None
      end
  end.

(** A visited node that the sanitizer allows; one that it allows or that
    is the search string of a replacement. *)
Definition allowedBy (isUnresolved : string -> bool)
    (visit : list segment * jsval) : Prop :=
  forbidden isUnresolved (snd visit) = false.

Definition curableBy (isUnresolved : string -> bool) (search : string)
    (visit : list segment * jsval) : Prop :=
  forbidden isUnresolved (snd visit) = false \/ snd visit = VStr search.

(** ** The handler of the partner-list notifications

    The Lambda function that starts the state machine for the objects of
    an S3 event.  The module keeps one variable between invocations, the
    cached ARN; the calls to STS and Step Functions and the lines written
    to the console are effects, recorded in order.  What a service answers
    is a function of everything done so far, the call included. *)

Definition startsWith (s searchString : string) : bool :=
  String.prefix searchString s.

Module Lambda.

(** What the handler reads of an [S3EventRecord]. *)
Record S3EventRecord : Type := {
  s3_bucket_name : string;
  s3_object_key : string;
  s3_object_size : option Z;
  s3_object_eTag : option string;
  record_eventTime : string
}.

Record S3Event : Type := {
  Records : option (list S3EventRecord)
}.

Record ExecutionPayload : Type := {
  bucket : string;
  key : string;
  size : option Z;
  etag : option string;
  eventTime : string
}.

(** Thrown values and rejected promises: [new Error(message)], the
    [URIError] of [decodeURIComponent], an exception of a service client. *)
Inductive rejection : Type :=
| Error (message : string)
| URIError
| ServiceException (name : string).

Inductive outcome (A : Type) : Type :=
| Fulfilled (a : A)
| Rejected (e : rejection).
Arguments Fulfilled {A} a.
Arguments Rejected {A} e.

Inductive Effect : Type :=
| GetCallerIdentity
| DescribeStateMachine (stateMachineArn : string)
| StartExecution (stateMachineArn input : string)
| InfoSkipping (bucketName objectKey : string)
| InfoStarting (stateMachineArn : string) (payload : ExecutionPayload).

(** The module-level state and the effects so far. *)
Record World : Type := {
  cachedStateMachineArn : option string;
  trace : list Effect
}.

Definition M (A : Type) : Type := World -> outcome A * World.

Definition ret {A} (a : A) : M A := fun w => (Fulfilled a, w).

Definition raise {A} (e : rejection) : M A := fun w => (Rejected e, w).

Definition await {A B} (m : M A) (k : A -> M B) : M B :=
  fun w =>
    match m w with
    | (Fulfilled a, w') => k a w'
    | (Rejected e, w') => (Rejected e, w')
    end.

Definition liftOutcome {A} (o : outcome A) : M A := fun w => (o, w).

(** An effect is recorded, then answered. *)
Definition perform {A} (e : Effect) (answer : list Effect -> outcome A) : M A :=
  fun w =>
    let done := trace w ++ [e] in
    (answer done,
     {| cachedStateMachineArn := cachedStateMachineArn w; trace := done |}).

Definition readCache : M (option string) :=
  fun w => (Fulfilled (cachedStateMachineArn w), w).

Definition writeCache (arn : string) : M unit :=
  fun w => (Fulfilled tt, {| cachedStateMachineArn := Some arn; trace := trace w |}).

(** [for (const x of items) { await body(x) }] *)
Fixpoint forOf {A} (items : list A) (body : A -> M unit) : M unit :=
  match items with
  | [] => ret tt
  | x :: rest => await (body x) (fun _ => forOf rest body)
  end.

(** A string that is tested by a condition and used in the branch where
    it holds. *)
Definition whenTruthy (s : option string) : option string :=
  if truthy s then s else None.

(** The top of the module: the two settings read from the environment.
    [process.env.REGION ?? process.env.AWS_REGION] takes the second only
    when the first is not set. *)
Definition loadModule (env : gmap string string) : outcome (string * string) :=
  let region :=
    match env !! "REGION" with
    | Some r => Some r
    | None => env !! "AWS_REGION"
    end in
  match whenTruthy region with
  | None => Rejected (Error "REGION environment variable must be defined")
  | Some region =>
      let stateMachineNameEnv := env !! "STATE_MACHINE_NAME" in
      match whenTruthy stateMachineNameEnv with
      | None =>
          Rejected (Error "STATE_MACHINE_NAME environment variable must be defined")
      | Some stateMachineNameEnv => Fulfilled (region, stateMachineNameEnv)
      end
  end.

Section Handler.
Variable region : string.
Variable stateMachineNameEnv : string.
(** The [Account] of the answer of STS, and the answers of Step Functions. *)
Variable stsAccount : list Effect -> outcome (option string).
Variable sfnDescribed : list Effect -> outcome unit.
Variable sfnStarted : list Effect -> outcome unit.
Variable decodeURIComponent : string -> outcome string.
Variable JSON_stringify : ExecutionPayload -> string.

Definition resolveStateMachineArn (nameOrArn : string) : M string :=
  await readCache (fun cached =>
  match whenTruthy cached with
  | Some arn => ret arn
  | None =>
      if startsWith nameOrArn "arn:" then
        await (writeCache nameOrArn) (fun _ => ret nameOrArn)
      else
        await (perform GetCallerIdentity stsAccount) (fun account =>
        match whenTruthy account with
        | None =>
            raise (Error "Unable to determine AWS account ID for Step Functions execution")
        | Some account =>
            let arn := "arn:aws:states:" +:+ region +:+ ":" +:+ account
                       +:+ ":stateMachine:" +:+ nameOrArn in
            await (perform (DescribeStateMachine arn) sfnDescribed) (fun _ =>
            await (writeCache arn) (fun _ => ret arn))
        end)
  end).

(** [record.s3.object.key.replace(/\+/g, ' ')], then [decodeURIComponent]. *)
Definition decodedKey (record : S3EventRecord) : outcome string :=
  decodeURIComponent
    (mapString (fun c => if Ascii.eqb c "+" then " "%char else c)
               (s3_object_key record)).

Definition shouldProcessRecord (record : S3EventRecord) : outcome bool :=
  match decodedKey record with
  | Fulfilled key => Fulfilled (startsWith key "IT info/")
  | Rejected e => Rejected e
  end.

Definition buildPayload (record : S3EventRecord) : outcome ExecutionPayload :=
  match decodedKey record with
  | Fulfilled decoded =>
      Fulfilled {| bucket := s3_bucket_name record;
                   key := decoded;
                   size := s3_object_size record;
                   etag := s3_object_eTag record;
                   eventTime := record_eventTime record |}
  | Rejected e => Rejected e
  end.

(** The body of the loop of [handler], for one record. *)
Definition processRecord (stateMachineArn : string) (record : S3EventRecord)
  : M unit :=
  await (liftOutcome (shouldProcessRecord record)) (fun monitored =>
  if negb monitored then
    perform (InfoSkipping (s3_bucket_name record) (s3_object_key record))
            (fun _ => Fulfilled tt)
  else
    await (liftOutcome (buildPayload record)) (fun payload =>
    await (perform (InfoStarting stateMachineArn payload) (fun _ => Fulfilled tt))
          (fun _ =>
    perform (StartExecution stateMachineArn (JSON_stringify payload)) sfnStarted))).

(** The execution that one record asks for: none when its key is outside
    the monitored prefix. *)
Definition executionFor (stateMachineArn : string) (record : S3EventRecord)
  : list (string * string) :=
  match shouldProcessRecord record, buildPayload record with
  | Fulfilled true, Fulfilled payload =>
      [(stateMachineArn, JSON_stringify payload)]
  | _, _ => []
  end.

Definition handler (event : S3Event) : M unit :=
  await (resolveStateMachineArn stateMachineNameEnv) (fun stateMachineArn =>
  forOf (match Records event with Some records => records | None => [] end)
        (processRecord stateMachineArn)).
End Handler.

(** The calls that look the state machine up, and the executions started. *)
Definition isLookup (e : Effect) : bool :=
  match e with
  | GetCallerIdentity | DescribeStateMachine _ => true
  | _ => false
  end.

Definition executionOf (e : Effect) : option (string * string) :=
  match e with
  | StartExecution stateMachineArn input => Some (stateMachineArn, input)
  | _ => None
  end.

Definition executions (effects : list Effect) : list (string * string) :=
  omap executionOf effects.

(** The module as it is loaded: nothing cached, nothing done. *)
Definition loaded : World :=
  {| cachedStateMachineArn := None; trace := [] |}.

(** [decodeURIComponent] where it is the identity, on the strings with no
    escape sequence; the others are left to the engine. *)
Definition decodeUnescaped (s : string) : outcome string :=
  if includes s "%" then Rejected URIError else Fulfilled s.

(** An account whose services answer every call. *)
Definition inAccount (account : string) (done : list Effect)
  : outcome (option string) :=
  Fulfilled (Some account).

Definition accepted (done : list Effect) : outcome unit := Fulfilled tt.

(** Two records of one event: a partner list under the monitored prefix,
    its space written as a plus sign, and a rule file outside it. *)
Definition partnerListRecord : S3EventRecord :=
  {| s3_bucket_name := "partner-lists";
     s3_object_key := "IT+info/partners.csv";
     s3_object_size := Some 2048;
     s3_object_eTag := Some "9b2cf535f27731c974343645a3985328";
     record_eventTime := "2025-01-15T03:00:00.000Z" |}.

Definition ruleFileRecord : S3EventRecord :=
  {| s3_bucket_name := "partner-lists";
     s3_object_key := "RLS/dataset-rules.csv";
     s3_object_size := Some 512;
     s3_object_eTag := None;
     record_eventTime := "2025-01-15T03:00:05.000Z" |}.

End Lambda.

(** ** Locations in S3: glue-stack.ts, athena-stack.ts, compute-stack.ts *)

(** [String.prototype.endsWith] with no end position. *)
Definition endsWith (s searchString : string) : bool :=
  let len := String.length s in
  let searchLength := String.length searchString in
  if (searchLength <=? len)%nat
  then String.eqb (substring (len - searchLength) searchLength s) searchString
  else false.

Section Locations.
Variable isUnresolved : string -> bool.
(** [cdk.Fn.join(delimiter, listOfValues)] *)
Variable fnJoin : string -> list string -> string.

(** compute-stack.ts *)
Definition ensureTrailingSlash (value : string) : string :=
  if isUnresolved value then fnJoin "" [value; "/"]
  else if endsWith value "/" then value else value +:+ "/".

(** glue-stack.ts *)
Definition buildS3Uri (bucketName suffix : string) : string :=
  if isUnresolved suffix then fnJoin "" ["s3://"; bucketName; "/"; suffix; "/"]
  else
    let normalized := if endsWith suffix "/" then suffix else suffix +:+ "/" in
    fnJoin "" ["s3://"; bucketName; "/"; normalized].

(** athena-stack.ts *)
Definition buildResultsLocation (bucketName prefix : string) : string :=
  if isUnresolved prefix then fnJoin "" ["s3://"; bucketName; "/"; prefix; "/"]
  else
    let normalized := if endsWith prefix "/" then prefix else prefix +:+ "/" in
    fnJoin "" ["s3://"; bucketName; "/"; normalized].
End Locations.

(** ** Rendering SQL: quicksight-stack.ts and compute-stack.ts *)

(** [GetSubstitution] for a match of a pattern with no capture group:
    the replacement text, where [$$] is a dollar sign, [$&] the match,
    [$`] the text before it and [$'] the text after it; any other dollar
    sign stands for itself. *)
Fixpoint getSubstitution (matched before after template : string) : string :=
  match template with
  | EmptyString => EmptyString
  | String c rest =>
      if Ascii.eqb c "$" then
        match rest with
        | String d rest' =>
            if Ascii.eqb d "$" then
              String "$" (getSubstitution matched before after rest')
            else if Ascii.eqb d "&" then
              matched +:+ getSubstitution matched before after rest'
            else if Ascii.eqb d "`" then
              before +:+ getSubstitution matched before after rest'
            else if Ascii.eqb d "'" then
              after +:+ getSubstitution matched before after rest'
            else String c (getSubstitution matched before after rest)
        | EmptyString => String c EmptyString
        end
      else String c (getSubstitution matched before after rest)
  end.

(** [s.replace(/pattern/g, template)] for a pattern that is a literal,
    not empty text: the matches are found from left to right and do not
    overlap; [before] is the text already passed, [skip] counts the code
    units of a match still to pass. *)
Fixpoint replaceGlobalFrom (pattern template before rest : string) (skip : nat)
  : string :=
  match rest with
  | EmptyString => EmptyString
  | String c rest' =>
      match skip with
      | S k =>
          replaceGlobalFrom pattern template (before +:+ String c "") rest' k
      | O =>
          if String.prefix pattern rest then
            getSubstitution pattern before
              (substring (String.length pattern)
                         (String.length rest - String.length pattern) rest)
              template
            +:+ replaceGlobalFrom pattern template (before +:+ String c "") rest'
                  (String.length pattern - 1)
          else
            String c
              (replaceGlobalFrom pattern template (before +:+ String c "") rest' 0)
      end
  end.

Definition replaceGlobal (s pattern template : string) : string :=
  replaceGlobalFrom pattern template "" s 0.

(** A text between double quotes. *)
Definition quoted (s : string) : string :=
  String "034"%char (s +:+ String "034"%char "").

Module QuicksightStack.
Section RenderSql.
(** [fs.readFileSync(path.resolve(filePath), 'utf8')] *)
Variable readFileSync : string -> result string.

Definition renderSql (filePath databaseName curTableName : string)
  : result string :=
  let! sql := readFileSync filePath in
  let replacedDb := replaceGlobal sql (quoted "cur-quicksight") (quoted databaseName) in
  Ok (replaceGlobal replacedDb ".data" ("." +:+ curTableName)).
End RenderSql.
End QuicksightStack.

Module ComputeStack.
Definition renderSql (glueDatabaseName query : string) : string :=
  replaceGlobal query (quoted "cur-quicksight") (quoted glueDatabaseName).
End ComputeStack.

(** Every match gives way to one fixed text. *)
Fixpoint substituteAllFrom (pattern replacement rest : string) (skip : nat)
  : string :=
  match rest with
  | EmptyString => EmptyString
  | String c rest' =>
      match skip with
      | S k => substituteAllFrom pattern replacement rest' k
      | O =>
          if String.prefix pattern rest then
            replacement
            +:+ substituteAllFrom pattern replacement rest'
                  (String.length pattern - 1)
          else String c (substituteAllFrom pattern replacement rest' 0)
      end
  end.

Definition substituteAll (s pattern replacement : string) : string :=
  substituteAllFrom pattern replacement s 0.

(** The dollar signs of a text all stand for themselves in a replacement:
    none is followed by [$], [&], a backquote or a quote. *)
Definition isSubstitutionMark (c : ascii) : bool :=
  Ascii.eqb c "$" || Ascii.eqb c "&" || Ascii.eqb c "`" || Ascii.eqb c "'".

Fixpoint dollarSafe (template : string) : bool :=
  match template with
  | EmptyString => true
  | String c rest =>
      (if Ascii.eqb c "$" then
         match rest with
         | String d _ => negb (isSubstitutionMark d)
         | EmptyString => true
         end
       else true)
      && dollarSafe rest
  end.

(** * Theorems *)

(** Induction on a tree with the hypothesis available for every element
    of an array and every value of an object. *)
Lemma jsval_nested_ind (P : jsval -> Prop) :
  P VNull ->
  (forall b, P (VBool b)) ->
  (forall n, P (VNum n)) ->
  (forall s, P (VStr s)) ->
  (forall items, Forall P items -> P (VArr items)) ->
  (forall props, Forall (fun entry => P (snd entry)) props -> P (VObj props)) ->
  (forall token props,
      Forall (fun entry => P (snd entry)) props -> P (VRes token props)) ->
  forall value, P value.
Proof.
  intros HNull HBool HNum HStr HArr HObj HRes.
  fix IH 1.
  intros [ | b | n | s | items | props | token props ].
  - exact HNull.
  - apply HBool.
  - apply HNum.
  - apply HStr.
  - apply HArr. induction items as [ | item items IHitems ]; constructor.
    + apply IH.
    + exact IHitems.
  - apply HObj. induction props as [ | [key v] props IHprops ]; constructor.
    + apply IH.
    + exact IHprops.
  - apply HRes. induction props as [ | [key v] props IHprops ]; constructor.
    + apply IH.
    + exact IHprops.
Qed.

(** ** The parameter resolver *)

Section ParameterFacts.
Variable context : gmap string jsval.
Variable valueAsString : string -> string.

Lemma nullish_noOverride (id : string) (b : option jsval) :
  noOverride context id -> Parameters.nullish (context !! id) b = b.
Proof. intros [H | H]; rewrite H; reflexivity. Qed.

Lemma nonEmptyString_inv (v : option jsval) (s : string) :
  nonEmptyString v = Some s -> v = Some (VStr s) /\ s <> "".
Proof.
  destruct v as [ [ | | | s' | | | ] | ]; simpl; try discriminate.
  destruct s'; simpl; [discriminate | ].
  intros [= <-]. split; [reflexivity | discriminate].
Qed.

Lemma nonEmptyString_fixed (s : string) :
  s <> "" -> nonEmptyString (Some (VStr s)) = Some s.
Proof. destruct s; [congruence | reflexivity]. Qed.

(** The stack layer, then the global layer. *)
Lemma lookupFromConfig_layers (sources : Parameters.ParameterSources) (id : string) :
  Parameters.lookupFromConfig sources id =
    match nonEmptyString (Parameters.layerGet (Parameters.stack sources) id) with
    | Some s => Some s
    | None => nonEmptyString (Parameters.layerGet (Parameters.global sources) id)
    end.
Proof.
  unfold Parameters.lookupFromConfig.
  destruct (nonEmptyString (Parameters.layerGet (Parameters.stack sources) id));
    [reflexivity | ].
  destruct (nonEmptyString (Parameters.layerGet (Parameters.global sources) id));
    reflexivity.
Qed.

Lemma lookupFromConfig_nonEmpty (sources : Parameters.ParameterSources) (id : string) :
  nonEmptyString (VStr <$> Parameters.lookupFromConfig sources id)
  = Parameters.lookupFromConfig sources id.
Proof.
  rewrite lookupFromConfig_layers.
  destruct (nonEmptyString (Parameters.layerGet (Parameters.stack sources) id))
    as [s | ] eqn:Hs.
  - apply nonEmptyString_inv in Hs as [_ Hs]. simpl. now apply nonEmptyString_fixed.
  - destruct (nonEmptyString (Parameters.layerGet (Parameters.global sources) id))
      as [g | ] eqn:Hg; [ | reflexivity].
    apply nonEmptyString_inv in Hg as [_ Hg]. simpl. now apply nonEmptyString_fixed.
Qed.

(** The resolved value in closed form. *)
Lemma resolved_unfold (id : string) (props : Parameters.CfnParameterProps)
    (sources : Parameters.ParameterSources) :
  Parameters.resolved
    (Parameters.createStringParameter context valueAsString id props sources)
  = match nonEmptyString
            (Parameters.nullish (context !! id)
               (VStr <$> Parameters.lookupFromConfig sources id)) with
    | Some s => Some s
    | None => nonEmptyString (Parameters.default props)
    end.
Proof.
  unfold Parameters.createStringParameter. simpl.
  destruct (nonEmptyString _); [reflexivity | ].
  destruct (nonEmptyString (Parameters.default props)); reflexivity.
Qed.

(** With no context value, or with one that is a non-empty string, the
    resolved value is the first non-empty string of the four layers. *)
Lemma resolved_first_non_empty (id : string) (props : Parameters.CfnParameterProps)
    (sources : Parameters.ParameterSources) :
  noOverride context id \/ (exists o, nonEmptyString (context !! id) = Some o) ->
  Parameters.resolved
    (Parameters.createStringParameter context valueAsString id props sources)
  = Parameters.spec_firstNonEmpty context id props sources.
Proof.
  rewrite resolved_unfold. unfold Parameters.spec_firstNonEmpty.
  intros [Hno | [o Ho]].
  - rewrite (nullish_noOverride id _ Hno).
    rewrite lookupFromConfig_nonEmpty, lookupFromConfig_layers.
    assert (nonEmptyString (context !! id) = None) as ->
      by (destruct Hno as [-> | ->]; reflexivity).
    destruct (nonEmptyString (Parameters.layerGet (Parameters.stack sources) id));
      [reflexivity | ].
    destruct (nonEmptyString (Parameters.layerGet (Parameters.global sources) id));
      reflexivity.
  - rewrite Ho. apply nonEmptyString_inv in Ho as [Ho Hne].
    rewrite Ho. destruct o; [congruence | reflexivity].
Qed.

(** C1 (amended).  [createStringParameter] resolves a parameter as
    follows.  A context value that is a non-empty string is the resolved
    value.  When the parameter has no context value ([undefined] or
    [null]), the stack layer's non-empty string is the resolved value;
    failing that, the global layer's; failing that, the declared default
    when it is a non-empty string, and the resolved value is absent
    otherwise.  A context value that is present but is the empty string or
    not a string is not skipped: the stack and global layers are not used
    and the resolved value is the non-empty string default or absent. *)
Theorem createStringParameter_precedence (id : string)
    (props : Parameters.CfnParameterProps) (sources : Parameters.ParameterSources) :
  (forall o, nonEmptyString (context !! id) = Some o ->
     Parameters.resolved
       (Parameters.createStringParameter context valueAsString id props sources)
     = Some o)
  /\ (noOverride context id ->
      forall s, nonEmptyString (Parameters.layerGet (Parameters.stack sources) id) = Some s ->
      Parameters.resolved
        (Parameters.createStringParameter context valueAsString id props sources)
      = Some s)
  /\ (noOverride context id ->
      nonEmptyString (Parameters.layerGet (Parameters.stack sources) id) = None ->
      forall g, nonEmptyString (Parameters.layerGet (Parameters.global sources) id) = Some g ->
      Parameters.resolved
        (Parameters.createStringParameter context valueAsString id props sources)
      = Some g)
  /\ (noOverride context id ->
      nonEmptyString (Parameters.layerGet (Parameters.stack sources) id) = None ->
      nonEmptyString (Parameters.layerGet (Parameters.global sources) id) = None ->
      Parameters.resolved
        (Parameters.createStringParameter context valueAsString id props sources)
      = nonEmptyString (Parameters.default props))
  /\ (forall v, context !! id = Some v -> v <> VNull ->
      nonEmptyString (Some v) = None ->
      Parameters.resolved
        (Parameters.createStringParameter context valueAsString id props sources)
      = nonEmptyString (Parameters.default props)).
Proof.
  rewrite resolved_unfold.
  repeat split.
  - intros o Ho. apply nonEmptyString_inv in Ho as [Ho Hne].
    rewrite Ho. destruct o; [congruence | reflexivity].
  - intros Hno s Hs. rewrite (nullish_noOverride id _ Hno).
    rewrite lookupFromConfig_nonEmpty, lookupFromConfig_layers, Hs. reflexivity.
  - intros Hno Hs g Hg. rewrite (nullish_noOverride id _ Hno).
    rewrite lookupFromConfig_nonEmpty, lookupFromConfig_layers, Hs, Hg. reflexivity.
  - intros Hno Hs Hg. rewrite (nullish_noOverride id _ Hno).
    rewrite lookupFromConfig_nonEmpty, lookupFromConfig_layers, Hs, Hg. reflexivity.
  - intros v Hv Hnull Hnone. rewrite Hv.
    assert (Parameters.nullish (Some v)
              (VStr <$> Parameters.lookupFromConfig sources id) = Some v) as ->
      by (destruct v; simpl; congruence).
    rewrite Hnone. reflexivity.
Qed.

End ParameterFacts.

Lemma createStringParameter_precedence_witness :
  noOverride ∅ "Timezone"
  /\ nonEmptyString
       (Parameters.layerGet (Some {["Timezone" := VStr "Europe/Paris"]}) "Timezone")
     = Some "Europe/Paris"
  /\ Parameters.resolved
       (Parameters.createStringParameter ∅ id "Timezone"
          {| Parameters.type := None;
             Parameters.default := Some (VStr "Asia/Bangkok") |}
          {| Parameters.global := Some {["Timezone" := VStr "UTC"]};
             Parameters.stack := Some {["Timezone" := VStr "Europe/Paris"]} |})
     = Some "Europe/Paris".
Proof.
  split; [left; reflexivity | ].
  split; [reflexivity | ].
  apply (proj1 (proj2 (createStringParameter_precedence ∅ id "Timezone"
    {| Parameters.type := None;
       Parameters.default := Some (VStr "Asia/Bangkok") |}
    {| Parameters.global := Some {["Timezone" := VStr "UTC"]};
       Parameters.stack := Some {["Timezone" := VStr "Europe/Paris"]} |})));
    [left; reflexivity | reflexivity].
Defined.

(** The four layers of the specification's own example, one removed at a
    time. *)
Example precedence_all_layers :
  Parameters.resolved
    (Parameters.createStringParameter {["Timezone" := VStr "Asia/Tokyo"]} id "Timezone"
       {| Parameters.type := None;
          Parameters.default := Some (VStr "Asia/Bangkok") |}
       {| Parameters.global := Some {["Timezone" := VStr "UTC"]};
          Parameters.stack := Some {["Timezone" := VStr "Europe/Paris"]} |})
  = Some "Asia/Tokyo"
  /\ Parameters.resolved
       (Parameters.createStringParameter ∅ id "Timezone"
          {| Parameters.type := None;
             Parameters.default := Some (VStr "Asia/Bangkok") |}
          {| Parameters.global := Some {["Timezone" := VStr "UTC"]};
             Parameters.stack := None |})
     = Some "UTC"
  /\ Parameters.resolved
       (Parameters.createStringParameter ∅ id "Timezone"
          {| Parameters.type := None;
             Parameters.default := Some (VStr "Asia/Bangkok") |}
          {| Parameters.global := None; Parameters.stack := None |})
     = Some "Asia/Bangkok"
  /\ Parameters.resolved
       (Parameters.createStringParameter ∅ id "ResultsBucketName"
          {| Parameters.type := None;
             Parameters.default := Some (VRes 1 []) |}
          {| Parameters.global := None; Parameters.stack := None |})
     = None.
Proof. repeat split. Qed.

(** C1, as the specification states it, fails: with the empty string as
    context value, a stack value and a default, the first layer with a
    non-empty string is the stack layer, and the code resolves to the
    default. *)
Lemma createStringParameter_empty_override_hides_layers :
  Parameters.resolved
    (Parameters.createStringParameter {["Timezone" := VStr ""]} id "Timezone"
       {| Parameters.type := None;
          Parameters.default := Some (VStr "Asia/Bangkok") |}
       {| Parameters.global := Some {["Timezone" := VStr "UTC"]};
          Parameters.stack := Some {["Timezone" := VStr "Europe/Paris"]} |})
  = Some "Asia/Bangkok"
  /\ Parameters.spec_firstNonEmpty {["Timezone" := VStr ""]} "Timezone"
       {| Parameters.type := None;
          Parameters.default := Some (VStr "Asia/Bangkok") |}
       {| Parameters.global := Some {["Timezone" := VStr "UTC"]};
          Parameters.stack := Some {["Timezone" := VStr "Europe/Paris"]} |}
     = Some "Europe/Paris".
Proof. split; reflexivity. Qed.

(** ** The forbidden patterns *)

Lemma prefix_occurs (needle hay : string) :
  String.prefix needle hay = true <-> exists after, hay = needle +:+ after.
Proof.
  revert hay. induction needle as [ | c needle IH ]; intros hay.
  - split; [intros _; exists hay | intros _; destruct hay]; reflexivity.
  - destruct hay as [ | d hay ]; simpl.
    + split; [discriminate | intros [after H]; discriminate H].
    + destruct (ascii_dec c d) as [-> | Hne].
      * rewrite IH. split; intros [after H]; exists after; [now rewrite H | ].
        now injection H.
      * split; [discriminate | ]. intros [after H]. injection H as -> _.
        contradiction.
Qed.

Lemma includes_unfold (hay needle : string) :
  includes hay needle
  = if String.prefix needle hay then true
    else match hay with
         | EmptyString => false
         | String _ rest => includes rest needle
         end.
Proof. destruct hay; reflexivity. Qed.

(** [includes] finds exactly the occurrences. *)
Lemma includes_occursIn (hay needle : string) :
  includes hay needle = true <-> occursIn needle hay.
Proof.
  induction hay as [ | c hay IH ]; rewrite includes_unfold;
    destruct (String.prefix needle _) eqn:Hp.
  - split; [ | reflexivity]. intros _.
    apply prefix_occurs in Hp as [after Hafter]. now exists "", after.
  - split; [discriminate | ]. intros ([ | ? ?] & after & H); [ | discriminate H].
    assert (String.prefix needle "" = true) as Hp'
      by (apply prefix_occurs; now exists after).
    congruence.
  - split; [ | reflexivity]. intros _.
    apply prefix_occurs in Hp as [after Hafter]. now exists "", after.
  - rewrite IH. split.
    + intros (before & after & ->). now exists (String c before), after.
    + intros ([ | d before] & after & H).
      * assert (String.prefix needle (String c hay) = true) as Hp'
          by (apply prefix_occurs; now exists after).
        congruence.
      * injection H as _ ->. now exists before, after.
Qed.

Lemma literalCI_spec (pattern : string) :
  forall s rest,
    literalCI pattern s = Some rest
    <-> exists text, s = text +:+ rest
                     /\ foldCaseString text = foldCaseString pattern.
Proof.
  induction pattern as [ | p pattern IH ]; intros s rest; simpl.
  - split.
    + intros [= ->]. now exists "".
    + intros ([ | ? ?] & -> & H); [reflexivity | discriminate H].
  - destruct s as [ | c s ].
    + split; [discriminate | ].
      intros ([ | ? ?] & H & H'); [discriminate H' | discriminate H].
    + destruct (Ascii.eqb_spec (foldCase p) (foldCase c)) as [Heq | Hne].
      * rewrite IH. split.
        -- intros (text & -> & Htext). exists (String c text).
           split; [reflexivity | ]. simpl. now rewrite Htext, Heq.
        -- intros ([ | d text] & H & Htext); [discriminate Htext | ].
           injection H as <- ->. injection Htext as _ Htext. now exists text.
      * split; [discriminate | ].
        intros ([ | d text] & H & Htext); [discriminate Htext | ].
        injection H as <- _. injection Htext as Hc _. congruence.
Qed.

Lemma upToColon_spec (s rest : string) :
  upToColon s = Some rest
  <-> exists text, s = text +:+ ":" +:+ rest /\ colonFree text = true.
Proof.
  induction s as [ | c s IH ]; simpl.
  - split; [discriminate | ]. intros ([ | ? ?] & H & _); discriminate H.
  - destruct (Ascii.eqb_spec c ":") as [-> | Hne].
    + split.
      * intros [= ->]. now exists "".
      * intros ([ | d text] & H & Htext).
        -- now injection H as ->.
        -- injection H as <- _. simpl in Htext. discriminate Htext.
    + rewrite IH. split.
      * intros (text & -> & Htext). exists (String c text).
        split; [reflexivity | ]. simpl.
        destruct (Ascii.eqb_spec c ":"); [contradiction | exact Htext].
      * intros ([ | d text] & H & Htext).
        -- injection H as -> _. contradiction.
        -- injection H as <- ->. simpl in Htext.
           apply andb_true_iff in Htext as [_ Htext]. now exists text.
Qed.

Lemma field_spec (s rest : string) :
  field s = Some rest
  <-> exists text, s = text +:+ ":" +:+ rest
                   /\ text <> "" /\ colonFree text = true.
Proof.
  destruct s as [ | c s ]; simpl.
  - split; [discriminate | ]. intros ([ | ? ?] & H & _); discriminate H.
  - destruct (Ascii.eqb_spec c ":") as [-> | Hne].
    + split; [discriminate | ].
      intros ([ | d text] & H & Hne & Htext); [congruence | ].
      injection H as <- _. discriminate Htext.
    + rewrite upToColon_spec. split.
      * intros (text & -> & Htext). exists (String c text).
        repeat split; [discriminate | ]. simpl.
        destruct (Ascii.eqb_spec c ":"); [contradiction | exact Htext].
      * intros ([ | d text] & H & _ & Htext).
        -- injection H as -> _. contradiction.
        -- injection H as <- ->. simpl in Htext.
           apply andb_true_iff in Htext as [_ Htext]. now exists text.
Qed.

Lemma digits_spec (n : nat) :
  forall s rest,
    digits n s = Some rest
    <-> exists text, s = text +:+ rest
                     /\ String.length text = n /\ allDigits text = true.
Proof.
  induction n as [ | n IH ]; intros s rest; simpl.
  - split.
    + intros [= ->]. now exists "".
    + intros ([ | ? ?] & -> & Hlen & _); [reflexivity | discriminate Hlen].
  - destruct s as [ | c s ].
    + split; [discriminate | ].
      intros ([ | ? ?] & H & Hlen & _); [discriminate Hlen | discriminate H].
    + destruct (isDigit c) eqn:Hc.
      * rewrite IH. split.
        -- intros (text & -> & Hlen & Htext). exists (String c text).
           repeat split; simpl; [now rewrite Hlen | now rewrite Hc].
        -- intros ([ | d text] & H & Hlen & Htext); [discriminate Hlen | ].
           injection H as <- ->. simpl in Htext, Hlen.
           apply andb_true_iff in Htext as [_ Htext].
           exists text. repeat split; [lia | exact Htext].
      * split; [discriminate | ].
        intros ([ | d text] & H & Hlen & Htext); [discriminate Hlen | ].
        injection H as <- _. simpl in Htext. rewrite Hc in Htext. discriminate.
Qed.

(** The matcher at a position accepts exactly the strings that start
    with such a resource name. *)
Lemma arnAt_spec (s : string) : arnAt s = true <-> startsWithAccountArn s.
Proof.
  unfold arnAt, startsWithAccountArn. split.
  - destruct (literalCI "arn:aws:" s) as [s1 | ] eqn:H1; [ | discriminate].
    destruct (field s1) as [s2 | ] eqn:H2; [ | discriminate].
    destruct (field s2) as [s3 | ] eqn:H3; [ | discriminate].
    destruct (digits 12 s3) as [s4 | ] eqn:H4; [ | discriminate].
    destruct (literalCI ":" s4) as [s5 | ] eqn:H5; [ | discriminate].
    intros _.
    apply literalCI_spec in H1 as (scheme & -> & Hscheme).
    apply field_spec in H2 as (service & -> & Hs1 & Hs2).
    apply field_spec in H3 as (region & -> & Hr1 & Hr2).
    apply digits_spec in H4 as (account & -> & Ha1 & Ha2).
    apply literalCI_spec in H5 as (colon & -> & Hcolon).
    destruct colon as [ | c [ | ? ? ]]; try discriminate Hcolon.
    injection Hcolon as Hc.
    assert (c = ":"%char) as ->
      by (destruct c as [[] [] [] [] [] [] [] []]; vm_compute in Hc;
          try discriminate Hc; reflexivity).
    exists scheme, service, region, account, s5.
    repeat split; assumption.
  - intros (scheme & service & region & account & rest & -> & Hscheme
            & Hs1 & Hs2 & Hr1 & Hr2 & Ha1 & Ha2).
    assert (literalCI "arn:aws:"
              (scheme +:+ service +:+ ":" +:+ region +:+ ":" +:+ account +:+ ":" +:+ rest)
            = Some (service +:+ ":" +:+ region +:+ ":" +:+ account +:+ ":" +:+ rest)) as ->
      by (apply literalCI_spec; now exists scheme).
    assert (field (service +:+ ":" +:+ region +:+ ":" +:+ account +:+ ":" +:+ rest)
            = Some (region +:+ ":" +:+ account +:+ ":" +:+ rest)) as ->
      by (apply field_spec; now exists service).
    assert (field (region +:+ ":" +:+ account +:+ ":" +:+ rest)
            = Some (account +:+ ":" +:+ rest)) as ->
      by (apply field_spec; now exists region).
    assert (digits 12 (account +:+ ":" +:+ rest) = Some (":" +:+ rest)) as ->
      by (apply digits_spec; now exists account).
    reflexivity.
Qed.

Lemma arnPattern_test_unfold (s : string) :
  arnPattern_test s
  = if arnAt s then true
    else match s with
         | EmptyString => false
         | String _ rest => arnPattern_test rest
         end.
Proof. destruct s; reflexivity. Qed.

(** The regular expression test accepts exactly the strings that hold
    such a resource name somewhere. *)
Lemma arnPattern_test_spec (s : string) :
  arnPattern_test s = true
  <-> exists before name, s = before +:+ name /\ startsWithAccountArn name.
Proof.
  induction s as [ | c s IH ]; rewrite arnPattern_test_unfold;
    destruct (arnAt _) eqn:Hat.
  - split; [ | reflexivity]. intros _. exists "", "".
    split; [reflexivity | now apply arnAt_spec].
  - split; [discriminate | ].
    intros ([ | ? ?] & name & H & Hname); [ | discriminate H].
    change ("" +:+ name) with name in H. rewrite <- H in Hname.
      apply arnAt_spec in Hname. congruence.
  - split; [ | reflexivity]. intros _. exists "", (String c s).
    split; [reflexivity | now apply arnAt_spec].
  - rewrite IH. split.
    + intros (before & name & -> & Hname). now exists (String c before), name.
    + intros ([ | d before] & name & H & Hname).
      * change ("" +:+ name) with name in H. rewrite <- H in Hname.
      apply arnAt_spec in Hname. congruence.
      * injection H as _ ->. now exists before, name.
Qed.

(** ** The tree walker and the sanitizer *)

Lemma visitAll_app (visitor : JsonVisitor) (xs ys : list (list segment * jsval)) :
  visitAll visitor (xs ++ ys) = (visitAll visitor xs ;; visitAll visitor ys).
Proof.
  induction xs as [ | [path node] xs IH ]; simpl; [reflexivity | ].
  destruct (visitor node path); simpl; [exact IH | reflexivity].
Qed.

(** [visitJson] calls the visitor on the nodes in pre-order and stops at
    the first call that throws. *)
Lemma visitJson_preorder (visitor : JsonVisitor) (value : jsval) :
  forall path, visitJson value visitor path = visitAll visitor (preorder value path).
Proof.
  induction value as [ | b | n | s | items IH | props IH | token props IH ]
    using jsval_nested_ind; intros path; simpl;
    try (destruct (visitor _ path); reflexivity).
  - destruct (visitor (VArr items) path); simpl; [ | reflexivity].
    generalize O.
    induction IH as [ | item items Hitem _ IHitems ]; intros index; [reflexivity | ].
    rewrite visitAll_app, Hitem, IHitems. reflexivity.
  - destruct (visitor (VObj props) path); simpl; [ | reflexivity].
    induction IH as [ | [key v] props Hv _ IHprops ]; [reflexivity | ].
    rewrite visitAll_app, Hv, IHprops. reflexivity.
Qed.

Section SanitizerFacts.
Variable isUnresolved : string -> bool.

Lemma hardCodedVisitor_clean (messageContext : string) (node : jsval)
    (path : list segment) :
  forbidden isUnresolved node = false ->
  hardCodedVisitor isUnresolved messageContext node path = Ok tt.
Proof.
  destruct node as [ | | | s | | | ]; simpl; try reflexivity.
  destruct (isUnresolved s); simpl; [reflexivity | ].
  destruct (hardCodedArn s); simpl; [discriminate | ].
  destruct (hardCodedS3Uri s); [discriminate | reflexivity].
Qed.

Lemma joinPath_dottedPath (path : list segment) :
  joinPath path = dottedPath path.
Proof.
  unfold joinPath. induction path as [ | s rest IH ]; [reflexivity | ].
  destruct rest as [ | s' rest' ]; [destruct s; reflexivity | ].
  cbn [map String.concat dottedPath] in *. rewrite IH.
  destruct s; reflexivity.
Qed.

(** What the visitor does with a string that is not unresolved. *)
Lemma hardCodedVisitor_string (messageContext : string) (s : string)
    (path : list segment) :
  isUnresolved s = false ->
  (hardCodedArn s = true ->
   hardCodedVisitor isUnresolved messageContext (VStr s) path
   = Throw (JsError (violationMessage "Hardcoded ARN" path messageContext)))
  /\ (hardCodedArn s = false -> hardCodedS3Uri s = true ->
      hardCodedVisitor isUnresolved messageContext (VStr s) path
      = Throw (JsError (violationMessage "Hardcoded S3 URI" path messageContext))).
Proof.
  intros Hplain. unfold hardCodedVisitor, violationMessage.
  rewrite Hplain, joinPath_dottedPath. split.
  - intros ->. reflexivity.
  - intros -> ->. reflexivity.
Qed.

(** A forbidden node is a string that is not unresolved and holds a
    resource name with an account number, or the S3 scheme without the
    marker of an encoded token. *)
Lemma forbidden_spec (s : string) :
  forbidden isUnresolved (VStr s) = true
  <-> isUnresolved s = false
      /\ ((exists before name, s = before +:+ name /\ startsWithAccountArn name)
          \/ (occursIn "s3://" s /\ ~ occursIn "${Token[" s)).
Proof.
  unfold forbidden, hardCodedArn, hardCodedS3Uri.
  rewrite andb_true_iff, orb_true_iff, andb_true_iff, !negb_true_iff.
  rewrite arnPattern_test_spec, (includes_occursIn s "s3://").
  rewrite <- (not_true_iff_false (includes s "${Token[")).
  rewrite (includes_occursIn s "${Token["). reflexivity.
Qed.

Lemma forbidden_hardCodedValue (node : jsval) :
  forbidden isUnresolved node = true <-> hardCodedValue isUnresolved node.
Proof.
  unfold hardCodedValue, holdsAccountArn. split.
  - destruct node as [ | b | n | s | items | props | token props ];
      try discriminate.
    intros Hs. apply forbidden_spec in Hs. exists s. tauto.
  - intros (s & -> & Hs). apply forbidden_spec. exact Hs.
Qed.

Lemma allowed_not_hardCodedValue (nodes : list (list segment * jsval)) :
  Forall (fun visit => ~ hardCodedValue isUnresolved (snd visit)) nodes ->
  Forall (fun visit => forbidden isUnresolved (snd visit) = false) nodes.
Proof.
  apply List.Forall_impl. intros visit Hnot.
  destruct (forbidden isUnresolved (snd visit)) eqn:Hvisit; [ | reflexivity].
  exfalso. apply Hnot. apply forbidden_hardCodedValue. exact Hvisit.
Qed.

Lemma visitAll_clean (messageContext : string)
    (nodes : list (list segment * jsval)) :
  Forall (fun visit => forbidden isUnresolved (snd visit) = false) nodes ->
  visitAll (hardCodedVisitor isUnresolved messageContext) nodes = Ok tt.
Proof.
  induction 1 as [ | [path node] nodes Hnode _ IH ]; simpl; [reflexivity | ].
  rewrite (hardCodedVisitor_clean _ _ _ Hnode). exact IH.
Qed.

(** A sequence of nodes with a forbidden one splits at the first. *)
Lemma first_forbidden (nodes : list (list segment * jsval)) :
  Exists (fun visit => forbidden isUnresolved (snd visit) = true) nodes ->
  exists before path node after,
    nodes = before ++ (path, node) :: after
    /\ Forall (fun visit => forbidden isUnresolved (snd visit) = false) before
    /\ forbidden isUnresolved node = true.
Proof.
  induction nodes as [ | [path node] nodes IH ]; intros Hex.
  - inversion Hex.
  - destruct (forbidden isUnresolved node) eqn:Hnode.
    + exists [], path, node, nodes. repeat split; [constructor | exact Hnode].
    + inversion Hex as [ ? ? Hhead | ? ? Htail ]; subst.
      * simpl in Hhead. congruence.
      * destruct (IH Htail) as (before & p & n & after & -> & Hbefore & Hn).
        exists ((path, node) :: before), p, n, after.
        repeat split; [constructor; assumption | exact Hn].
Qed.

(** The call at a tree whose first refused node is a given string. *)
Lemma assert_at_first (value : jsval) (messageContext : string)
    (before after : list (list segment * jsval)) (path : list segment)
    (s : string) :
  preorder value [] = before ++ (path, VStr s) :: after ->
  Forall (fun visit => ~ hardCodedValue isUnresolved (snd visit)) before ->
  hardCodedValue isUnresolved (VStr s) ->
  assertNoHardCodedValues isUnresolved value messageContext
  = hardCodedVisitor isUnresolved messageContext (VStr s) path
  /\ visitJson value (hardCodedVisitor isUnresolved messageContext) []
     = visitAll (hardCodedVisitor isUnresolved messageContext)
                (before ++ [(path, VStr s)])
  /\ (holdsAccountArn s ->
      hardCodedVisitor isUnresolved messageContext (VStr s) path
      = Throw (JsError (violationMessage "Hardcoded ARN" path messageContext)))
  /\ (~ holdsAccountArn s ->
      hardCodedVisitor isUnresolved messageContext (VStr s) path
      = Throw (JsError (violationMessage "Hardcoded S3 URI" path messageContext))).
Proof.
  intros Hsplit Hbefore Hnode.
  apply allowed_not_hardCodedValue in Hbefore.
  pose proof (proj2 (forbidden_hardCodedValue (VStr s)) Hnode) as Hforbidden.
  destruct Hnode as (s' & [= <-] & Hplain & _).
  destruct (hardCodedVisitor_string messageContext s path Hplain) as [Harn Hs3].
  assert (hardCodedArn s = true <-> holdsAccountArn s) as Hspec
    by apply arnPattern_test_spec.
  assert (exists e, hardCodedVisitor isUnresolved messageContext (VStr s) path = Throw e)
    as [e Hthrows].
  { destruct (hardCodedArn s) eqn:Hs; [eexists; apply Harn; reflexivity | ].
    eexists. apply Hs3; [reflexivity | ].
    unfold forbidden in Hforbidden. rewrite Hplain, Hs in Hforbidden. exact Hforbidden. }
  repeat split.
  - unfold assertNoHardCodedValues.
    rewrite visitJson_preorder, Hsplit, visitAll_app.
    rewrite (visitAll_clean _ _ Hbefore). cbn [bind visitAll].
    rewrite Hthrows. reflexivity.
  - rewrite visitJson_preorder, Hsplit, !visitAll_app.
    rewrite (visitAll_clean _ _ Hbefore). cbn [bind visitAll].
    rewrite Hthrows. reflexivity.
  - intros Hholds. apply Harn, Hspec, Hholds.
  - intros Hnone.
    destruct (hardCodedArn s) eqn:Hs; [exfalso; apply Hnone, Hspec; reflexivity | ].
    apply Hs3; [reflexivity | ].
    unfold forbidden in Hforbidden. rewrite Hplain, Hs in Hforbidden. exact Hforbidden.
Qed.

(** C5.  When the string at a path is the first node of the pre-order
    traversal that the sanitizer has to refuse, [assertNoHardCodedValues]
    throws the error whose message names the kind of the violation, the
    dotted form of that path and the context: [Hardcoded ARN] when the
    string holds a resource name with an account number, [Hardcoded S3 URI]
    otherwise.  And a tree with any such string makes the call throw at the
    first one: the nodes after it are not visited, no further violation is
    collected. *)
Theorem assertNoHardCodedValues_fails_at_first_violation
    (value : jsval) (messageContext : string) :
  (forall before path s after,
      preorder value [] = before ++ (path, VStr s) :: after ->
      Forall (fun visit => ~ hardCodedValue isUnresolved (snd visit)) before ->
      hardCodedValue isUnresolved (VStr s) ->
      (holdsAccountArn s ->
       assertNoHardCodedValues isUnresolved value messageContext
       = Throw (JsError ("Hardcoded ARN detected at " +:+ dottedPath path
                         +:+ " in " +:+ messageContext)))
      /\ (~ holdsAccountArn s ->
          assertNoHardCodedValues isUnresolved value messageContext
          = Throw (JsError ("Hardcoded S3 URI detected at " +:+ dottedPath path
                            +:+ " in " +:+ messageContext))))
  /\ (Exists (fun visit => hardCodedValue isUnresolved (snd visit))
             (preorder value []) ->
      exists before path s after kind,
        preorder value [] = before ++ (path, VStr s) :: after
        /\ Forall (fun visit => ~ hardCodedValue isUnresolved (snd visit)) before
        /\ hardCodedValue isUnresolved (VStr s)
        /\ (kind = "Hardcoded ARN" \/ kind = "Hardcoded S3 URI")
        /\ assertNoHardCodedValues isUnresolved value messageContext
           = Throw (JsError (kind +:+ " detected at " +:+ dottedPath path
                             +:+ " in " +:+ messageContext))
        /\ visitJson value (hardCodedVisitor isUnresolved messageContext) []
           = visitAll (hardCodedVisitor isUnresolved messageContext)
                      (before ++ [(path, VStr s)])).
Proof.
  split.
  - intros before path s after Hsplit Hbefore Hnode.
    destruct (assert_at_first value messageContext before after path s
                Hsplit Hbefore Hnode) as (-> & _ & Harn & Hs3).
    split; [exact Harn | exact Hs3].
  - intros Hex.
    assert (Exists (fun visit => forbidden isUnresolved (snd visit) = true)
                   (preorder value [])) as Hex'.
    { revert Hex. apply List.Exists_impl. intros visit.
      apply forbidden_hardCodedValue. }
    destruct (first_forbidden _ Hex')
      as (before & path & node & after & Hsplit & Hbefore & Hnode).
    apply forbidden_hardCodedValue in Hnode.
    pose proof Hnode as (s & -> & _).
    assert (Forall (fun visit => ~ hardCodedValue isUnresolved (snd visit)) before)
      as Hclean.
    { revert Hbefore. apply List.Forall_impl. intros visit Hvisit Hbad.
      apply forbidden_hardCodedValue in Hbad. congruence. }
    destruct (assert_at_first value messageContext before after path s
                Hsplit Hclean Hnode) as (Hcall & Hstop & Harn & Hs3).
    assert (hardCodedArn s = true <-> holdsAccountArn s) as Hspec
      by apply arnPattern_test_spec.
    destruct (hardCodedArn s) eqn:Hs.
    + exists before, path, s, after, "Hardcoded ARN".
      repeat split; try assumption; [left; reflexivity | ].
      rewrite Hcall. apply Harn, Hspec. reflexivity.
    + exists before, path, s, after, "Hardcoded S3 URI".
      repeat split; try assumption; [right; reflexivity | ].
      rewrite Hcall. apply Hs3. intros Hholds. apply Hspec in Hholds. discriminate.
Qed.

(** C6.  When every string the traversal reaches is unresolved or matches
    neither forbidden pattern, [assertNoHardCodedValues] returns; an
    unresolved string is accepted whatever it contains. *)
Theorem assertNoHardCodedValues_accepts_clean_trees
    (value : jsval) (messageContext : string) :
  (forall path s, In (path, VStr s) (preorder value []) ->
     isUnresolved s = true \/ (hardCodedArn s = false /\ hardCodedS3Uri s = false)) ->
  assertNoHardCodedValues isUnresolved value messageContext = Ok tt.
Proof.
  intros Hclean. unfold assertNoHardCodedValues.
  rewrite visitJson_preorder. apply visitAll_clean.
  apply List.Forall_forall. intros [path node] Hin. simpl.
  destruct node as [ | | | s | | | ]; try reflexivity.
  destruct (Hclean path s Hin) as [Hs | [Harn Hs3]]; simpl.
  - rewrite Hs. reflexivity.
  - rewrite Harn, Hs3. apply andb_false_r.
Qed.

End SanitizerFacts.

Lemma assertNoHardCodedValues_fails_at_first_violation_witness :
  assertNoHardCodedValues markerTest
    (VObj [("a", VObj [("b", VStr "arn:aws:svc:region:123456789012:resource/x")])])
    "analysis_definition.json"
  = Throw (JsError "Hardcoded ARN detected at a.b in analysis_definition.json").
Proof.
  assert (holdsAccountArn "arn:aws:svc:region:123456789012:resource/x") as Hholds
    by (apply arnPattern_test_spec; reflexivity).
  apply (proj1 (assertNoHardCodedValues_fails_at_first_violation markerTest
           (VObj [("a", VObj [("b", VStr "arn:aws:svc:region:123456789012:resource/x")])])
           "analysis_definition.json")
           [([], VObj [("a", VObj [("b", VStr "arn:aws:svc:region:123456789012:resource/x")])]);
            ([Key "a"], VObj [("b", VStr "arn:aws:svc:region:123456789012:resource/x")])]
           [Key "a"; Key "b"]
           "arn:aws:svc:region:123456789012:resource/x"
           []).
  - reflexivity.
  - repeat constructor; intros (s & Hnode & _); discriminate Hnode.
  - exists "arn:aws:svc:region:123456789012:resource/x".
    split; [reflexivity | split; [reflexivity | left; exact Hholds]].
  - exact Hholds.
Defined.

(** The message at the specification's example, and a second violation
    that is never reported. *)
Example assertNoHardCodedValues_path_a_b :
  assertNoHardCodedValues markerTest
    (VObj [("a", VObj [("b", VStr "arn:aws:svc:region:123456789012:resource/x");
                       ("c", VStr "s3://bucket/key")])])
    "analysis_definition.json"
  = Throw (JsError "Hardcoded ARN detected at a.b in analysis_definition.json").
Proof. reflexivity. Qed.

Lemma assertNoHardCodedValues_accepts_clean_trees_witness :
  assertNoHardCodedValues markerTest
    (VObj [("value", VStr "arn:aws:quicksight:us-east-1:123456789012:dataset/${Token[TOKEN.7]}");
           ("rows", VArr [VNum 3; VStr "plain"])])
    "test" = Ok tt.
Proof.
  apply (assertNoHardCodedValues_accepts_clean_trees markerTest).
  intros path s Hin. simpl in Hin.
  destruct Hin as [Hin | [Hin | [Hin | [Hin | [Hin | [ ]]]]]];
    inversion Hin; subst; vm_compute; auto.
Defined.

(** ** The key normalizer *)

Lemma toLowerCase_idempotent (c : ascii) :
  toLowerCase (toLowerCase c) = toLowerCase c.
Proof. destruct c as [[] [] [] [] [] [] [] []]; reflexivity. Qed.

Lemma normalizeKey_idempotent (key : string) :
  normalizeKey (normalizeKey key) = normalizeKey key.
Proof.
  destruct key as [ | c rest ]; simpl; [reflexivity | ].
  now rewrite toLowerCase_idempotent.
Qed.

Lemma setOwn_fresh (props : list (string * jsval)) (key : string) (v : jsval) :
  ~ In key (map fst props) -> setOwn props key v = props ++ [(key, v)].
Proof.
  induction props as [ | [k old] props IH ]; simpl; intros Hfresh; [reflexivity | ].
  destruct (String.eqb_spec k key) as [-> | Hne].
  - exfalso. apply Hfresh. now left.
  - rewrite IH; [reflexivity | ]. intros Hin. apply Hfresh. now right.
Qed.

Lemma setOwn_keys (props : list (string * jsval)) (key : string) (v : jsval) :
  In key (map fst props) -> map fst (setOwn props key v) = map fst props.
Proof.
  induction props as [ | [k old] props IH ]; simpl; intros Hin; [contradiction | ].
  destruct (String.eqb_spec k key) as [-> | Hne]; simpl; [reflexivity | ].
  rewrite IH; [reflexivity | ]. destruct Hin; [contradiction | assumption].
Qed.

Lemma setOwn_entries (Q : string * jsval -> Prop) (props : list (string * jsval))
    (key : string) (v : jsval) :
  Forall Q props -> (forall k, k = key -> Q (k, v)) ->
  Forall Q (setOwn props key v).
Proof.
  intros Hprops Hnew.
  induction Hprops as [ | [k old] props Hk Hrest IH ]; simpl.
  - constructor; [now apply Hnew | constructor].
  - destruct (String.eqb_spec k key) as [-> | Hne];
      constructor; try assumption. now apply Hnew.
Qed.

Lemma setOwn_NoDup (props : list (string * jsval)) (key : string) (v : jsval) :
  List.NoDup (map fst props) -> List.NoDup (map fst (setOwn props key v)).
Proof.
  intros Hnodup.
  destruct (List.in_dec String.string_dec key (map fst props)) as [Hin | Hfresh].
  - now rewrite setOwn_keys.
  - rewrite setOwn_fresh by assumption.
    rewrite List.map_app. simpl.
    apply List.NoDup_app; repeat split.
    + exact Hnodup.
    + repeat constructor. intros [].
    + intros k Hk [<- | []]. contradiction.
Qed.


Lemma assign_entries (Q : string * jsval -> Prop) (props : list (string * jsval))
    (key : string) (v : jsval) :
  Forall Q props -> (key <> "__proto__" -> Q (key, v)) ->
  Forall Q (assign props key v).
Proof.
  intros Hprops Hnew. unfold assign.
  destruct (String.eqb_spec key "__proto__") as [Heq | Hne]; [exact Hprops | ].
  apply setOwn_entries; [exact Hprops | ]. intros k ->. now apply Hnew.
Qed.

Lemma assign_NoDup (props : list (string * jsval)) (key : string) (v : jsval) :
  List.NoDup (map fst props) -> List.NoDup (map fst (assign props key v)).
Proof.
  intros Hnodup. unfold assign.
  destruct (String.eqb key "__proto__"); [exact Hnodup | now apply setOwn_NoDup].
Qed.


Section Rebuild.
Variable f : jsval -> jsval.

Lemma rebuild_cons (entry : string * jsval) (props normalized : list (string * jsval)) :
  rebuild f (entry :: props) normalized
  = rebuild f props (assign normalized (normalizeKey (fst entry)) (f (snd entry))).
Proof. reflexivity. Qed.

Lemma rebuild_entries (Q : string * jsval -> Prop) (props : list (string * jsval)) :
  forall normalized,
    Forall Q normalized ->
    Forall (fun entry => normalizeKey (fst entry) <> "__proto__" ->
                         Q (normalizeKey (fst entry), f (snd entry))) props ->
    Forall Q (rebuild f props normalized).
Proof.
  induction props as [ | entry props IH ]; intros normalized Hacc Hprops;
    [exact Hacc | ].
  rewrite rebuild_cons. inversion Hprops; subst.
  apply IH; [ | assumption]. now apply assign_entries.
Qed.

Lemma rebuild_NoDup (props : list (string * jsval)) :
  forall normalized,
    List.NoDup (map fst normalized) ->
    List.NoDup (map fst (rebuild f props normalized)).
Proof.
  induction props as [ | entry props IH ]; intros normalized Hacc; [exact Hacc | ].
  rewrite rebuild_cons. apply IH. now apply assign_NoDup.
Qed.


(** Keys that stay distinct are assigned in order, each once. *)
Lemma rebuild_distinct (props : list (string * jsval)) :
  forall normalized,
    List.NoDup (map fst normalized
                ++ map (fun entry => normalizeKey (fst entry)) props) ->
    Forall (fun entry => normalizeKey (fst entry) <> "__proto__") props ->
    rebuild f props normalized
    = normalized ++ map (fun entry => (normalizeKey (fst entry), f (snd entry))) props.
Proof.
  induction props as [ | entry props IH ]; intros normalized Hnodup Hproto.
  - simpl. now rewrite List.app_nil_r.
  - rewrite rebuild_cons. inversion Hproto as [ | ? ? Hentry Hrest ]; subst.
    unfold assign.
    destruct (String.eqb_spec (normalizeKey (fst entry)) "__proto__");
      [contradiction | ].
    simpl in Hnodup.
    rewrite setOwn_fresh.
    + rewrite IH; [ | | exact Hrest].
      * rewrite <- List.app_assoc. reflexivity.
      * rewrite List.map_app, <- List.app_assoc. exact Hnodup.
    + intros Hin. apply List.NoDup_remove_2 in Hnodup. apply Hnodup.
      apply List.in_or_app. now left.
Qed.






End Rebuild.

Lemma normalize_object (props : list (string * jsval)) :
  normalizeDefinitionKeys (VObj props)
  = VObj (rebuild normalizeDefinitionKeys props []).
Proof. reflexivity. Qed.

Lemma normalize_resolvable (token : positive) (props : list (string * jsval)) :
  normalizeDefinitionKeys (VRes token props)
  = VObj (rebuild normalizeDefinitionKeys props []).
Proof. reflexivity. Qed.

(** Entries that are all settled, under distinct keys, are rebuilt as
    they are. *)
Lemma rebuild_settled (props : list (string * jsval)) :
  List.NoDup (map fst props) -> Forall settled props ->
  rebuild normalizeDefinitionKeys props [] = props.
Proof.
  intros Hnodup Hsettled.
  assert (map (fun entry => normalizeKey (fst entry)) props = map fst props) as Hkeys.
  { apply List.map_ext_in. intros entry Hin.
    rewrite List.Forall_forall in Hsettled. now destruct (Hsettled entry Hin). }
  rewrite rebuild_distinct.
  - simpl. rewrite <- (List.map_id props) at 2.
    apply List.map_ext_in. intros [k v] Hin.
    rewrite List.Forall_forall in Hsettled.
    destruct (Hsettled (k, v) Hin) as (Hk & _ & Hv). simpl in *. congruence.
  - simpl. now rewrite Hkeys.
  - eapply List.Forall_impl; [ | exact Hsettled].
    intros entry (Hk & Hproto & _). congruence.
Qed.

(** What the loop builds from values that the normalizer fixes is made
    of settled entries under distinct keys. *)
Lemma rebuild_gives_settled (props : list (string * jsval)) :
  Forall (fun entry => normalizeDefinitionKeys (normalizeDefinitionKeys (snd entry))
                       = normalizeDefinitionKeys (snd entry)) props ->
  Forall settled (rebuild normalizeDefinitionKeys props []).
Proof.
  intros IH. apply rebuild_entries; [constructor | ].
  eapply List.Forall_impl; [ | exact IH].
  intros entry Hentry Hproto. repeat split; simpl.
  - apply normalizeKey_idempotent.
  - exact Hproto.
  - exact Hentry.
Qed.

Lemma normalize_rebuilt (props : list (string * jsval)) :
  Forall (fun entry => normalizeDefinitionKeys (normalizeDefinitionKeys (snd entry))
                       = normalizeDefinitionKeys (snd entry)) props ->
  normalizeDefinitionKeys (VObj (rebuild normalizeDefinitionKeys props []))
  = VObj (rebuild normalizeDefinitionKeys props []).
Proof.
  intros IH. rewrite normalize_object. f_equal.
  apply rebuild_settled.
  - apply rebuild_NoDup. constructor.
  - now apply rebuild_gives_settled.
Qed.

(** C7.  Normalizing a normalized tree changes nothing. *)
Theorem normalizeDefinitionKeys_idempotent (value : jsval) :
  normalizeDefinitionKeys (normalizeDefinitionKeys value)
  = normalizeDefinitionKeys value.
Proof.
  induction value as [ | b | n | s | items IH | props IH | token props IH ]
    using jsval_nested_ind; try reflexivity.
  - simpl. f_equal. rewrite List.map_map.
    apply List.map_ext_in. intros item Hin.
    rewrite List.Forall_forall in IH. now apply IH.
  - rewrite normalize_object. now apply normalize_rebuilt.
  - rewrite normalize_resolvable. now apply normalize_rebuilt.
Qed.






(** ** The string replacer *)

Section ReplaceFacts.
Variables search replace : string.

Lemma getOwn_map (g : jsval -> jsval) (props : list (string * jsval)) (key : string) :
  getOwn (map (fun entry => (fst entry, g (snd entry))) props) key
  = g <$> getOwn props key.
Proof.
  induction props as [ | [k v] props IH ]; simpl; [reflexivity | ].
  destruct (String.eqb k key); [reflexivity | exact IH].
Qed.

Lemma keys_map (g : jsval -> jsval) (props : list (string * jsval)) :
  map fst (map (fun entry => (fst entry, g (snd entry))) props) = map fst props.
Proof. rewrite List.map_map. reflexivity. Qed.

Lemma childAt_replace (value : jsval) (s : segment) :
  childAt (replaceStringRecursively value search replace) s
  = replaced search replace <$> childAt value s.
Proof.
  destruct value as [ | b | n | str | items | props | token props ];
    destruct s as [i | k]; simpl; try reflexivity.
  - apply list_lookup_fmap.
  - apply (getOwn_map (replaced search replace)).
  - apply (getOwn_map (replaced search replace)).
Qed.

Lemma subtree_scalar (value : jsval) (path : list segment) :
  path <> [] ->
  match value with VArr _ | VObj _ | VRes _ _ => False | _ => True end ->
  subtree value path = None.
Proof.
  destruct path as [ | s rest ]; [congruence | ].
  intros _. destruct value, s; simpl; tauto.
Qed.

(** Below the root, the tree after the call has, at every path, what the
    call left of the node that was there. *)
Lemma subtree_replace (path : list segment) :
  forall value,
    path <> [] ->
    subtree (replaceStringRecursively value search replace) path
    = replaced search replace <$> subtree value path.
Proof.
  induction path as [ | s rest IH ]; intros value Hpath; [congruence | ].
  simpl. rewrite childAt_replace.
  destruct (childAt value s) as [child | ]; simpl; [ | reflexivity].
  destruct rest as [ | s' rest ]; [reflexivity | ].
  unfold replaced at 1. destruct (isSearch child search) eqn:Hsearch.
  - destruct child; try discriminate.
    rewrite !subtree_scalar; simpl; auto; discriminate.
  - apply IH. discriminate.
Qed.

Lemma subtree_replace_any (path : list segment) (value : jsval) :
  subtree (replaceStringRecursively value search replace) path
  = (if path is [] then (fun v => replaceStringRecursively v search replace)
     else replaced search replace) <$> subtree value path.
Proof.
  destruct path as [ | s rest ]; [reflexivity | ].
  apply subtree_replace. discriminate.
Qed.

(** C9.  After [replaceStringRecursively], a string that was an array
    element or an object value is the replacement when it was equal to the
    search string and is itself otherwise; null, booleans and numbers are as
    before; an array has the length, an object the keys in the order, a
    resolvable object the token and the keys it had; and no path leads to a
    node where none did. *)
Theorem replaceStringRecursively_exact_matches_only (target : jsval) :
  (forall path s,
      path <> [] -> subtree target path = Some (VStr s) ->
      subtree (replaceStringRecursively target search replace) path
      = Some (VStr (if String.eqb s search then replace else s)))
  /\ (forall path v,
        subtree target path = Some v ->
        match v with VNull | VBool _ | VNum _ => True | _ => False end ->
        subtree (replaceStringRecursively target search replace) path = Some v)
  /\ (forall path items,
        subtree target path = Some (VArr items) ->
        exists items',
          subtree (replaceStringRecursively target search replace) path
          = Some (VArr items')
          /\ length items' = length items)
  /\ (forall path props,
        subtree target path = Some (VObj props) ->
        exists props',
          subtree (replaceStringRecursively target search replace) path
          = Some (VObj props')
          /\ map fst props' = map fst props)
  /\ (forall path token props,
        subtree target path = Some (VRes token props) ->
        exists props',
          subtree (replaceStringRecursively target search replace) path
          = Some (VRes token props')
          /\ map fst props' = map fst props)
  /\ (forall path,
        subtree target path = None ->
        subtree (replaceStringRecursively target search replace) path = None).
Proof.
  repeat split.
  - intros path s Hpath Hs. rewrite subtree_replace, Hs by exact Hpath.
    simpl. unfold replaced. simpl. destruct (String.eqb s search); reflexivity.
  - intros path v Hv Hscalar. rewrite subtree_replace_any, Hv.
    destruct path, v; simpl; tauto.
  - intros path items Hitems. rewrite subtree_replace_any, Hitems.
    exists (map (replaced search replace) items).
    split; [destruct path; reflexivity | apply List.length_map].
  - intros path props Hprops. rewrite subtree_replace_any, Hprops.
    exists (map (fun entry => (fst entry, replaced search replace (snd entry))) props).
    split; [destruct path; reflexivity | apply keys_map].
  - intros path token props Hprops. rewrite subtree_replace_any, Hprops.
    exists (map (fun entry => (fst entry, replaced search replace (snd entry))) props).
    split; [destruct path; reflexivity | apply keys_map].
  - intros path Hnone. rewrite subtree_replace_any, Hnone. reflexivity.
Qed.

(** C10.  A string passed as the target itself is not replaced, not even
    when it is the search string; the same string is replaced where it is
    an array element or an object value. *)
Theorem replaceStringRecursively_root_string_untouched :
  replaceStringRecursively (VStr search) search replace = VStr search
  /\ (forall s, replaceStringRecursively (VStr s) search replace = VStr s)
  /\ replaceStringRecursively (VArr [VStr search]) search replace
     = VArr [VStr replace]
  /\ (forall key,
        replaceStringRecursively (VObj [(key, VStr search)]) search replace
        = VObj [(key, VStr replace)]).
Proof.
  repeat split; simpl; try reflexivity.
  - now rewrite String.eqb_refl.
  - intros key. now rewrite String.eqb_refl.
Qed.

End ReplaceFacts.

Lemma replaceStringRecursively_exact_matches_only_witness :
  subtree
    (replaceStringRecursively
       (VObj [("sheets", VArr [VStr "prefix-X-suffix"; VStr "X"])]) "X" "cur-dataset")
    [Key "sheets"; Idx 0]
  = Some (VStr "prefix-X-suffix")
  /\ subtree
       (replaceStringRecursively
          (VObj [("sheets", VArr [VStr "prefix-X-suffix"; VStr "X"])]) "X" "cur-dataset")
       [Key "sheets"; Idx 1]
     = Some (VStr "cur-dataset").
Proof.
  destruct (replaceStringRecursively_exact_matches_only "X" "cur-dataset"
              (VObj [("sheets", VArr [VStr "prefix-X-suffix"; VStr "X"])]))
    as (Hstring & _).
  split.
  - apply (Hstring [Key "sheets"; Idx 0] "prefix-X-suffix");
      [discriminate | reflexivity].
  - apply (Hstring [Key "sheets"; Idx 1] "X"); [discriminate | reflexivity].
Defined.

(** The two leaves of the specification's example. *)
Example replaceStringRecursively_substring_kept (replace : string) :
  replaceStringRecursively
    (VObj [("a", VStr "prefix-X-suffix"); ("b", VStr "X"); ("X", VArr [VStr "X"; VNum 1])])
    "X" replace
  = VObj [("a", VStr "prefix-X-suffix"); ("b", VStr replace);
          ("X", VArr [VStr replace; VNum 1])].
Proof. reflexivity. Qed.

(** ** Rebinding the dataset declarations *)



Lemma getOwn_In (props : list (string * jsval)) (key : string) (v : jsval) :
  getOwn props key = Some v -> In key (map fst props).
Proof.
  induction props as [ | [k old] props IH ]; simpl; [discriminate | ].
  destruct (String.eqb_spec k key) as [-> | Hne]; [now left | ].
  intros H. right. now apply IH.
Qed.



Lemma replace_object (search replace : string) (props : list (string * jsval)) :
  replaceStringRecursively (VObj props) search replace
  = VObj (map (fun entry => (fst entry, replaced search replace (snd entry))) props).
Proof. reflexivity. Qed.

Lemma replaced_array (search replace : string) (items : list jsval) :
  replaced search replace (VArr items) = VArr (map (replaced search replace) items).
Proof. reflexivity. Qed.




(** ** The schedule time converter *)

Lemma TimeClip_in_range (t : Z) :
  Z.abs t <= 8640000000000000 -> TimeClip t = Some t.
Proof.
  intros Ht. unfold TimeClip.
  destruct (Z.leb_spec (Z.abs t) 8640000000000000); [reflexivity | lia].
Qed.

Lemma TimeClip_out_of_range (t : Z) :
  8640000000000000 < Z.abs t -> TimeClip t = None.
Proof.
  intros Ht. unfold TimeClip.
  destruct (Z.leb_spec (Z.abs t) 8640000000000000); [lia | reflexivity].
Qed.

Lemma isDigit_facts (c : ascii) :
  isDigit c = true ->
  isWhiteSpace c = false /\ Ascii.eqb c "-" = false /\ Ascii.eqb c "+" = false
  /\ Ascii.eqb c ":" = false /\ 0 <= digitValue c <= 9.
Proof.
  destruct c as [[] [] [] [] [] [] [] []]; try discriminate; intros _;
    vm_compute; intuition discriminate.
Qed.

Lemma parseInt_two_digits (c1 c2 : ascii) :
  isDigit c1 = true -> isDigit c2 = true ->
  parseInt (String c1 (String c2 EmptyString))
  = Some (10 * digitValue c1 + digitValue c2).
Proof.
  intros H1 H2.
  destruct (isDigit_facts c1 H1) as (Hws & Hminus & Hplus & _ & _).
  unfold parseInt. simpl. rewrite Hws, Hminus, Hplus. simpl.
  rewrite H1, H2. reflexivity.
Qed.

Lemma split_two_fields (h1 h2 m1 m2 : ascii) :
  isDigit h1 = true -> isDigit h2 = true ->
  isDigit m1 = true -> isDigit m2 = true ->
  split (String h1 (String h2 (String ":" (String m1 (String m2 EmptyString))))) ":"
  = [String h1 (String h2 EmptyString); String m1 (String m2 EmptyString)].
Proof.
  intros H1 H2 H3 H4.
  destruct (isDigit_facts h1 H1) as (_ & _ & _ & E1 & _).
  destruct (isDigit_facts h2 H2) as (_ & _ & _ & E2 & _).
  destruct (isDigit_facts m1 H3) as (_ & _ & _ & E3 & _).
  destruct (isDigit_facts m2 H4) as (_ & _ & _ & E4 & _).
  simpl. rewrite E1, E2, E3, E4. reflexivity.
Qed.

Lemma wellFormedLocalTime_inv (localTime : string) :
  wellFormedLocalTime localTime = true ->
  exists h1 h2 m1 m2,
    localTime = String h1 (String h2 (String ":" (String m1 (String m2 EmptyString))))
    /\ isDigit h1 = true /\ isDigit h2 = true
    /\ isDigit m1 = true /\ isDigit m2 = true
    /\ 0 <= writtenHour localTime <= 23 /\ 0 <= writtenMinute localTime <= 59.
Proof.
  destruct localTime as [ | h1 [ | h2 [ | c [ | m1 [ | m2 [ | ? ? ]]]]]];
    simpl; try discriminate.
  rewrite !andb_true_iff, !Z.leb_le.
  intros ((((((Hc & H1) & H2) & H3) & H4) & Hh) & Hm).
  apply Ascii.eqb_eq in Hc. subst c.
  exists h1, h2, m1, m2. repeat split; try assumption.
  - pose proof (isDigit_facts h1 H1). pose proof (isDigit_facts h2 H2). lia.
  - pose proof (isDigit_facts m1 H3). pose proof (isDigit_facts m2 H4). lia.
Qed.

(** The reference date of a well-formed local time is that time on
    1970-01-01, read as UTC. *)
Lemma referenceDate_wellFormed (localTime : string) :
  wellFormedLocalTime localTime = true ->
  referenceDate localTime = Some (writtenInstant localTime)
  /\ 0 <= writtenInstant localTime < msPerDay
  /\ writtenInstant localTime mod msPerMinute = 0.
Proof.
  intros Hwf.
  destruct (wellFormedLocalTime_inv localTime Hwf)
    as (h1 & h2 & m1 & m2 & -> & H1 & H2 & H3 & H4 & Hh & Hm).
  unfold referenceDate. rewrite split_two_fields by assumption.
  simpl map. rewrite !parseInt_two_digits by assumption.
  unfold writtenInstant. 
  set (h := writtenHour _) in *. set (m := writtenMinute _) in *.
  change (10 * digitValue h1 + digitValue h2) with h.
  change (10 * digitValue m1 + digitValue m2) with m.
  assert (0 <= h * msPerHour + m * msPerMinute < msPerDay) as Hrange
    by (unfold msPerHour, msPerMinute, msPerDay; lia).
  split; [ | split; [exact Hrange | ]].
  - cbn [lookup list_lookup mbind option_bind id]. 
    unfold Date_UTC, newDate.
    change (MakeDay (MakeFullYear 1970) 0 1) with 0.
    unfold MakeDate, MakeTime.
    replace (0 * msPerDay + (h * msPerHour + m * msPerMinute + 0 * msPerSecond + 0))
      with (h * msPerHour + m * msPerMinute) by lia.
    unfold msPerDay in Hrange.
    rewrite !TimeClip_in_range by lia. reflexivity.
  - unfold msPerHour, msPerMinute.
    replace (h * 3600000 + m * 60000) with ((h * 60 + m) * 60000) by lia.
    apply Z.mod_mul. lia.
Qed.

(** The fields the code reads back from the reference rendering. *)
Lemma collectParts_enUS (year month day hour minute second : Z) :
  collectParts (enUSParts year month day hour minute second)
  = <["second" := twoDigits second]>
      (<["minute" := twoDigits minute]>
         (<["hour" := twoDigits hour]>
            (<["year" := numberToString (Some year)]>
               (<["day" := twoDigits day]>
                  (<["month" := twoDigits month]> ∅))))).
Proof.
  reflexivity.
Qed.

Lemma parseInt_twoDigits (n : Z) :
  0 <= n <= 99 -> parseInt (twoDigits n) = Some n.
Proof.
  intros Hn.
  assert (forallb (fun n => match parseInt (twoDigits n) with
                            | Some m => m =? n
                            | None => false
                            end) (seqZ 0 100) = true) as Hall
    by (vm_compute; reflexivity).
  rewrite List.forallb_forall in Hall.
  specialize (Hall n). 
  destruct (parseInt (twoDigits n)) as [m | ].
  - f_equal. apply Z.eqb_eq. apply Hall.
    apply list_elem_of_In, elem_of_seqZ. lia.
  - discriminate Hall. apply list_elem_of_In, elem_of_seqZ. lia.
Qed.

(** Hours, minutes and seconds put back on their day give the time
    value, to the second. *)
Lemma MakeDate_fields (w : Z) :
  w mod msPerSecond = 0 ->
  MakeDate (w / msPerDay)
           (MakeTime ((w / msPerHour) mod 24) ((w / msPerMinute) mod 60)
                     ((w / msPerSecond) mod 60) 0) = w.
Proof.
  unfold MakeDate, MakeTime, msPerDay, msPerHour, msPerMinute, msPerSecond.
  intros Hw.
  change 86400000 with (1000 * (60 * (60 * 24))).
  change 3600000 with (1000 * (60 * 60)).
  change 60000 with (1000 * 60).
  rewrite <- !Z.div_div by lia.
  set (s := w / 1000).
  assert (w = 1000 * s) as Hs by (pose proof (Z.div_mod w 1000); lia).
  pose proof (Z.div_mod s 60).
  pose proof (Z.div_mod (s / 60) 60).
  pose proof (Z.div_mod (s / 60 / 60) 24).
  lia.
Qed.

Lemma Date_UTC_fields (year month day : Z) (w : Z) :
  0 <= month <= 99 -> 0 <= day <= 99 ->
  parseInt (numberToString (Some year)) = Some year ->
  MakeDay (MakeFullYear year) (month - 1) day = w / msPerDay ->
  w mod msPerSecond = 0 ->
  Z.abs w <= 8640000000000000 ->
  let data :=
    collectParts (enUSParts year month day ((w / msPerHour) mod 24)
                            ((w / msPerMinute) mod 60) ((w / msPerSecond) mod 60)) in
  Date_UTC (parseIntOf (data !! "year"))
           (lift2 Z.sub (parseIntOf (data !! "month")) (Some 1))
           (parseIntOf (data !! "day"))
           (parseIntOf (data !! "hour"))
           (parseIntOf (data !! "minute"))
           (parseIntOf (data !! "second"))
           (Some 0) = Some w.
Proof.
  intros Hmonth Hday Hyear Hmake Hsec Hrange data. subst data.
  rewrite collectParts_enUS. simplify_map_eq.
  cbn [parseIntOf].
  pose proof (Z.mod_pos_bound (w / msPerHour) 24 eq_refl).
  pose proof (Z.mod_pos_bound (w / msPerMinute) 60 eq_refl).
  pose proof (Z.mod_pos_bound (w / msPerSecond) 60 eq_refl).
  rewrite Hyear, !parseInt_twoDigits by lia.
  cbn [lift2 Date_UTC]. rewrite Hmake, MakeDate_fields by exact Hsec.
  now apply TimeClip_in_range.
Qed.

Section ScheduleFacts.
Variable DateTimeFormat : string -> option (Z -> list (string * string)).

(** On the reference day the code reads back the offset that the
    formatter shows. *)
Lemma getTimeZoneOffset_read_back (timeZone : string)
    (formatToParts : Z -> list (string * string)) (t offset : Z) :
  DateTimeFormat timeZone = Some formatToParts ->
  showsOffset formatToParts t offset ->
  0 <= t < msPerDay -> t mod msPerSecond = 0 ->
  offset mod msPerSecond = 0 -> - msPerDay <= offset <= msPerDay ->
  getTimeZoneOffset DateTimeFormat (Some t) timeZone = Ok (Some offset).
Proof.
  intros Hzone Hshows Ht Htsec Hoffsec Hoff.
  unfold getTimeZoneOffset. rewrite Hzone, Hshows.
  unfold wallClockParts.
  set (w := t + offset).
  assert (w mod msPerSecond = 0) as Hwsec.
  { unfold w. rewrite Z.add_mod, Htsec, Hoffsec by discriminate. reflexivity. }
  assert (Z.abs w <= 8640000000000000) as Hrange
    by (unfold w, msPerDay in *; lia).
  assert (w / msPerDay = -1 \/ w / msPerDay = 0 \/ w / msPerDay = 1) as Hday.
  { assert (-1 <= w / msPerDay < 2); [ | lia].
    unfold w, msPerDay in *. split.
    - apply Z.div_le_lower_bound; lia.
    - apply Z.div_lt_upper_bound; lia. }
  assert (forall y m d,
            civilFromDays (w / msPerDay) = (y, m, d) ->
            0 <= m <= 99 /\ 0 <= d <= 99
            /\ parseInt (numberToString (Some y)) = Some y
            /\ MakeDay (MakeFullYear y) (m - 1) d = w / msPerDay) as Hcivil.
  { intros y m d Hcivil.
    destruct Hday as [Hday | [Hday | Hday]]; rewrite Hday in Hcivil |- *.
    - change (civilFromDays (-1)) with (1969, 12, 31) in Hcivil.
      injection Hcivil as <- <- <-. repeat split; try lia; reflexivity.
    - change (civilFromDays 0) with (1970, 1, 1) in Hcivil.
      injection Hcivil as <- <- <-. repeat split; try lia; reflexivity.
    - change (civilFromDays 1) with (1970, 1, 2) in Hcivil.
      injection Hcivil as <- <- <-. repeat split; try lia; reflexivity. }
  destruct (civilFromDays (w / msPerDay)) as [[y m] d].
  destruct (Hcivil y m d eq_refl) as (Hm & Hd & Hy & Hmake).
  rewrite (Date_UTC_fields y m d w Hm Hd Hy Hmake Hwsec Hrange).
  cbn [lift2]. do 3 f_equal. unfold w. lia.
Qed.

(** A well-formed local time in a zone whose offset the formatter shows
    is converted by subtracting that offset. *)
Lemma convertLocalTimeToUtc_wellFormed (localTime timezone : string)
    (formatToParts : Z -> list (string * string)) (offset : Z) :
  wellFormedLocalTime localTime = true ->
  DateTimeFormat timezone = Some formatToParts ->
  showsOffset formatToParts (writtenInstant localTime) offset ->
  offset mod msPerSecond = 0 -> - msPerDay <= offset <= msPerDay ->
  getTimeZoneOffset DateTimeFormat (referenceDate localTime) timezone
  = Ok (Some offset)
  /\ convertLocalTimeToUtc DateTimeFormat localTime timezone
     = Ok (twoDigits (((writtenInstant localTime - offset) / msPerHour) mod 24)
           +:+ ":"
           +:+ twoDigits (((writtenInstant localTime - offset) / msPerMinute) mod 60)).
Proof.
  intros Hwf Hzone Hshows Hoffsec Hoff.
  destruct (referenceDate_wellFormed localTime Hwf) as (Href & Ht & Htmin).
  assert (writtenInstant localTime mod msPerSecond = 0) as Htsec.
  { unfold msPerMinute, msPerSecond in *.
    pose proof (Z.div_mod (writtenInstant localTime) 60000 ltac:(lia)) as Hdiv.
    rewrite Hdiv, Htmin, Z.add_0_r.
    replace (60000 * (writtenInstant localTime / 60000))
      with (60 * (writtenInstant localTime / 60000) * 1000) by lia.
    apply Z.mod_mul. lia. }
  assert (getTimeZoneOffset DateTimeFormat (referenceDate localTime) timezone
          = Ok (Some offset)) as Hread.
  { rewrite Href.
    now apply (getTimeZoneOffset_read_back timezone formatToParts). }
  split; [exact Hread | ].
  unfold convertLocalTimeToUtc. rewrite Hread. cbn [bind].
  rewrite Href. cbn [lift2 newDate].
  rewrite TimeClip_in_range by (unfold msPerDay in *; lia).
  reflexivity.
Qed.

(** C3 (amended).  For a local time whose parsed hour and minute are in
    the range where the engine computes exactly, [convertLocalTimeToUtc]
    throws exactly when the engine cannot resolve the time zone or the
    reference date is invalid; the reference date is invalid exactly when
    the first piece of the local time or the second does not parse as an
    integer, or when the parsed hour and minute give a time value outside
    the range of a [Date].  The format and the ranges of a local time are
    not checked.  For a well-formed local time and a time zone that the
    engine resolves, no error is raised. *)
Theorem convertLocalTimeToUtc_throws_exactly (localTime timezone : string) :
  (withinExactRange localTime ->
   ((exists e, convertLocalTimeToUtc DateTimeFormat localTime timezone = Throw e)
    <-> DateTimeFormat timezone = None \/ referenceDate localTime = None))
  /\ (withinExactRange localTime ->
      (referenceDate localTime = None
       <-> ~ exists hour minute,
             map parseInt (split localTime ":") !! 0%nat = Some (Some hour)
             /\ map parseInt (split localTime ":") !! 1%nat = Some (Some minute)
             /\ Z.abs (hour * msPerHour + minute * msPerMinute) <= 8640000000000000))
  /\ (wellFormedLocalTime localTime = true ->
      withinExactRange localTime
      /\ forall formatToParts, DateTimeFormat timezone = Some formatToParts ->
         exists utc, convertLocalTimeToUtc DateTimeFormat localTime timezone = Ok utc).
Proof.
  assert ((exists e, convertLocalTimeToUtc DateTimeFormat localTime timezone = Throw e)
          <-> DateTimeFormat timezone = None \/ referenceDate localTime = None) as Hiff.
  { unfold convertLocalTimeToUtc, getTimeZoneOffset.
    destruct (DateTimeFormat timezone) as [formatToParts | ];
      destruct (referenceDate localTime) as [t | ]; cbn [bind]; split;
      try (intros [e He]; discriminate He);
      try (intros [H | H]; discriminate H);
      try (intros _; eexists; reflexivity); auto. }
  split; [intros _; exact Hiff | split].
  - intros _. unfold referenceDate.
    destruct (map parseInt (split localTime ":") !! 0%nat) as [[hour | ] | ];
      destruct (map parseInt (split localTime ":") !! 1%nat) as [[minute | ] | ];
      cbn [mbind option_bind id Date_UTC];
      try (split; [intros _ (h & m & H0 & H1 & _); discriminate | reflexivity]).
    change (MakeDay (MakeFullYear 1970) 0 1) with 0.
    replace (MakeDate 0 (MakeTime hour minute 0 0))
      with (hour * msPerHour + minute * msPerMinute)
      by (unfold MakeDate, MakeTime; lia).
    destruct (Z_le_gt_dec (Z.abs (hour * msPerHour + minute * msPerMinute))
                          8640000000000000) as [Hin | Hout].
    + rewrite TimeClip_in_range by exact Hin. cbn [newDate].
      rewrite TimeClip_in_range by exact Hin. split; [discriminate | ].
      intros Hnot. exfalso. apply Hnot. exists hour, minute. auto.
    + rewrite TimeClip_out_of_range by lia. split; [ | reflexivity].
      intros _ (h & m & [= <-] & [= <-] & Hle). lia.
  - intros Hwf. split.
    + destruct (wellFormedLocalTime_inv localTime Hwf)
        as (h1 & h2 & m1 & m2 & -> & H1 & H2 & H3 & H4 & Hh & Hm).
      unfold withinExactRange. rewrite split_two_fields by assumption.
      cbn [map lookup list_lookup]. rewrite !parseInt_two_digits by assumption.
      intros hour minute [= <-] [= <-].
      change (10 * digitValue h1 + digitValue h2)
        with (writtenHour (String h1 (String h2 (String ":" (String m1 (String m2 ""))))))
        in *.
      change (10 * digitValue m1 + digitValue m2)
        with (writtenMinute (String h1 (String h2 (String ":" (String m1 (String m2 ""))))))
        in *.
      unfold msPerHour, msPerMinute. lia.
    + intros formatToParts Hzone.
      destruct (referenceDate_wellFormed localTime Hwf) as (Href & _).
      destruct (convertLocalTimeToUtc DateTimeFormat localTime timezone) as [utc | e] eqn:Hc;
        [now exists utc | ].
      exfalso. destruct (proj1 Hiff (ex_intro _ e eq_refl)) as [H | H]; congruence.
Qed.

(** C4.  For a well-formed local time, [convertLocalTimeToUtc] takes the
    written hour and minute as a UTC time on 1970-01-01, reads back from the
    formatter the offset that the zone has at that instant, and returns the
    hour and minute of the instant less the offset, each on two digits and
    within the day.  With Bangkok shown seven hours ahead, 10:00 gives
    03:00; with New York shown five hours behind, 00:30 gives 05:30. *)
Theorem convertLocalTimeToUtc_subtracts_offset :
  (forall localTime timezone formatToParts offset,
      wellFormedLocalTime localTime = true ->
      DateTimeFormat timezone = Some formatToParts ->
      showsOffset formatToParts (writtenInstant localTime) offset ->
      offset mod msPerSecond = 0 -> - msPerDay <= offset <= msPerDay ->
      referenceDate localTime = Some (writtenInstant localTime)
      /\ getTimeZoneOffset DateTimeFormat (referenceDate localTime) timezone
         = Ok (Some offset)
      /\ convertLocalTimeToUtc DateTimeFormat localTime timezone
         = Ok (twoDigits (((writtenInstant localTime - offset) / msPerHour) mod 24)
               +:+ ":"
               +:+ twoDigits (((writtenInstant localTime - offset) / msPerMinute) mod 60)))
  /\ (forall formatToParts,
        DateTimeFormat "Asia/Bangkok" = Some formatToParts ->
        showsOffset formatToParts (10 * msPerHour) (7 * msPerHour) ->
        convertLocalTimeToUtc DateTimeFormat "10:00" "Asia/Bangkok" = Ok "03:00")
  /\ (forall formatToParts,
        DateTimeFormat "America/New_York" = Some formatToParts ->
        showsOffset formatToParts (30 * msPerMinute) (-5 * msPerHour) ->
        convertLocalTimeToUtc DateTimeFormat "00:30" "America/New_York" = Ok "05:30").
Proof.
  split; [ | split].
  - intros localTime timezone formatToParts offset Hwf Hzone Hshows Hoffsec Hoff.
    split; [now apply referenceDate_wellFormed | ].
    now apply (convertLocalTimeToUtc_wellFormed localTime timezone formatToParts).
  - intros formatToParts Hzone Hshows.
    apply (convertLocalTimeToUtc_wellFormed "10:00" "Asia/Bangkok" formatToParts
             (7 * msPerHour) eq_refl Hzone Hshows eq_refl).
    unfold msPerDay, msPerHour. lia.
  - intros formatToParts Hzone Hshows.
    apply (convertLocalTimeToUtc_wellFormed "00:30" "America/New_York" formatToParts
             (-5 * msPerHour) eq_refl Hzone Hshows eq_refl).
    unfold msPerDay, msPerHour. lia.
Qed.

End ScheduleFacts.

Lemma convertLocalTimeToUtc_throws_exactly_witness :
  wellFormedLocalTime "10:00" = true
  /\ withinExactRange "10:00"
  /\ exists utc, convertLocalTimeToUtc engine1970 "10:00" "Asia/Bangkok" = Ok utc.
Proof.
  split; [reflexivity | ].
  destruct (proj2 (proj2 (convertLocalTimeToUtc_throws_exactly engine1970
                            "10:00" "Asia/Bangkok")) eq_refl)
    as [Hrange Hconverted].
  split; [exact Hrange | ].
  apply (Hconverted (wallClockParts (7 * msPerHour)) eq_refl).
Defined.

Lemma convertLocalTimeToUtc_subtracts_offset_witness :
  convertLocalTimeToUtc engine1970 "10:00" "Asia/Bangkok" = Ok "03:00"
  /\ convertLocalTimeToUtc engine1970 "00:30" "America/New_York" = Ok "05:30".
Proof.
  destruct (convertLocalTimeToUtc_subtracts_offset engine1970) as (_ & Hbkk & Hnyc).
  split.
  - apply (Hbkk (wallClockParts (7 * msPerHour))); reflexivity.
  - apply (Hnyc (wallClockParts (-5 * msPerHour))); reflexivity.
Defined.

(** C3, as the specification states it, fails: a local time with hour 25
    and one with a one-digit hour are converted, neither raises an error. *)
Lemma convertLocalTimeToUtc_accepts_malformed_times :
  wellFormedLocalTime "25:00" = false
  /\ convertLocalTimeToUtc engine1970 "25:00" "Asia/Bangkok" = Ok "18:00"
  /\ wellFormedLocalTime "9:00" = false
  /\ convertLocalTimeToUtc engine1970 "9:00" "Asia/Bangkok" = Ok "02:00".
Proof. repeat split; vm_compute; reflexivity. Qed.

(** The errors the code does raise. *)
Example convertLocalTimeToUtc_errors :
  convertLocalTimeToUtc engine1970 "10:00" "Not/AZone"
  = Throw (RangeError "Invalid time zone specified")
  /\ convertLocalTimeToUtc engine1970 "ten:00" "Asia/Bangkok"
     = Throw (RangeError "Invalid time value")
  /\ convertLocalTimeToUtc engine1970 "10" "Asia/Bangkok"
     = Throw (RangeError "Invalid time value").
Proof. repeat split; vm_compute; reflexivity. Qed.

(** * Further properties of the code *)

(** ** Parameters *)

Section MoreParameterFacts.
Variable context : gmap string jsval.
Variable valueAsString : string -> string.

Lemma nonEmptyString_not_empty (v : option jsval) : nonEmptyString v <> Some "".
Proof.
  intros H. apply nonEmptyString_inv in H as [_ H]. now apply H.
Qed.

Lemma createStringParameter_resolved_not_empty_lemma (id : string)
    (props : Parameters.CfnParameterProps) (sources : Parameters.ParameterSources) :
  Parameters.resolved
    (Parameters.createStringParameter context valueAsString id props sources)
  <> Some "".
Proof.
  rewrite resolved_unfold.
  destruct (nonEmptyString _) as [s | ] eqn:Hs.
  - intros [= ->]. now apply nonEmptyString_not_empty in Hs.
  - apply nonEmptyString_not_empty.
Qed.

(** X1.  The resolved value of a parameter is never the empty string,
    whatever the context, the layers and the declared default hold: it is
    absent or a string with at least one character. *)
Theorem createStringParameter_resolved_not_empty (id : string)
    (props : Parameters.CfnParameterProps) (sources : Parameters.ParameterSources) :
  Parameters.resolved
    (Parameters.createStringParameter context valueAsString id props sources)
  <> Some ""
  /\ (forall s,
        Parameters.resolved
          (Parameters.createStringParameter context valueAsString id props sources)
        = Some s -> (0 < String.length s)%nat).
Proof.
  split; [apply createStringParameter_resolved_not_empty_lemma | ].
  intros s Hs. destruct s; [ | simpl; lia].
  now apply createStringParameter_resolved_not_empty_lemma in Hs.
Qed.

(** X2.  When the context value of the parameter is absent, [null] or a
    string, a resolved value is also the default of the CloudFormation
    parameter that was created. *)
Theorem createStringParameter_resolved_is_default (id : string)
    (props : Parameters.CfnParameterProps) (sources : Parameters.ParameterSources)
    (s : string) :
  (forall v, context !! id = Some v -> v = VNull \/ exists o, v = VStr o) ->
  Parameters.resolved
    (Parameters.createStringParameter context valueAsString id props sources)
  = Some s ->
  Parameters.paramDefault
    (Parameters.parameter
       (Parameters.createStringParameter context valueAsString id props sources))
  = Some (VStr s).
Proof.
  intros Hctx. rewrite resolved_unfold.
  unfold Parameters.createStringParameter. cbn [Parameters.parameter Parameters.default].
  set (override := Parameters.nullish (context !! id)
                     (VStr <$> Parameters.lookupFromConfig sources id)).
  assert (override = None \/ override = Some VNull \/ exists o, override = Some (VStr o))
    as Hoverride.
  { unfold override. destruct (context !! id) as [v | ] eqn:Hv.
    - destruct (Hctx v eq_refl) as [-> | [o ->]]; simpl.
      + destruct (Parameters.lookupFromConfig sources id); simpl; eauto.
      + eauto.
    - simpl. destruct (Parameters.lookupFromConfig sources id); simpl; eauto. }
  destruct Hoverride as [-> | [-> | [o ->]]]; simpl.
  - intros H. destruct (nonEmptyString (Parameters.default props)) eqn:Hd;
      [ | discriminate]. injection H as ->.
    now apply nonEmptyString_inv in Hd as [-> _].
  - intros H. destruct (nonEmptyString (Parameters.default props)) eqn:Hd;
      [ | discriminate]. injection H as ->.
    now apply nonEmptyString_inv in Hd as [-> _].
  - destruct o as [ | c o ]; simpl.
    + intros H. destruct (nonEmptyString (Parameters.default props)) eqn:Hd;
        [ | discriminate]. injection H as ->.
      now apply nonEmptyString_inv in Hd as [-> _].
    + now intros [= <-].
Qed.

End MoreParameterFacts.

Lemma createStringParameter_resolved_is_default_witness :
  Parameters.paramDefault
    (Parameters.parameter
       (Parameters.createStringParameter {["Timezone" := VStr ""]} id "Timezone"
          (Shared.withDefault "Asia/Bangkok")
          {| Parameters.global := None;
             Parameters.stack := Some {["Timezone" := VStr "Europe/Paris"]} |}))
  = Some (VStr "Asia/Bangkok").
Proof.
  apply (createStringParameter_resolved_is_default {["Timezone" := VStr ""]} id
           "Timezone" (Shared.withDefault "Asia/Bangkok")
           {| Parameters.global := None;
              Parameters.stack := Some {["Timezone" := VStr "Europe/Paris"]} |}
           "Asia/Bangkok").
  - intros v Hv. vm_compute in Hv. injection Hv as <-. right. now exists "".
  - reflexivity.
Defined.

(** X3.  A parameter is resolved from the entries under its own name
    only: two contexts and two pairs of layers that agree on that name give
    the same parameter. *)
Theorem createStringParameter_reads_own_name
    (context1 context2 : gmap string jsval) (valueAsString : string -> string)
    (id : string) (props : Parameters.CfnParameterProps)
    (sources1 sources2 : Parameters.ParameterSources) :
  context1 !! id = context2 !! id ->
  Parameters.layerGet (Parameters.stack sources1) id
  = Parameters.layerGet (Parameters.stack sources2) id ->
  Parameters.layerGet (Parameters.global sources1) id
  = Parameters.layerGet (Parameters.global sources2) id ->
  Parameters.createStringParameter context1 valueAsString id props sources1
  = Parameters.createStringParameter context2 valueAsString id props sources2.
Proof.
  intros Hcontext Hstack Hglobal.
  unfold Parameters.createStringParameter, Parameters.lookupFromConfig.
  now rewrite Hcontext, Hstack, Hglobal.
Qed.

Lemma createStringParameter_reads_own_name_witness :
  Parameters.createStringParameter {["Timezone" := VStr "UTC"]} tokenOf
    "GlueDatabaseName"
    (Shared.withDefault "cur-quicksight")
    {| Parameters.global := Some {["CurTableName" := VStr "cur"]};
       Parameters.stack := None |}
  = Parameters.createStringParameter ∅ tokenOf "GlueDatabaseName"
      (Shared.withDefault "cur-quicksight")
      {| Parameters.global := None; Parameters.stack := Some ∅ |}.
Proof.
  apply createStringParameter_reads_own_name; reflexivity.
Defined.

(** ** The refresh schedule *)

Section RefreshScheduleFacts.
Variable isUnresolved : string -> bool.
Variable DateTimeFormat : string -> option (Z -> list (string * string)).

Lemma truthy_resolved (context : gmap string jsval) (valueAsString : string -> string)
    (id : string) (props : Parameters.CfnParameterProps)
    (sources : Parameters.ParameterSources) :
  truthy (Parameters.resolved
            (Parameters.createStringParameter context valueAsString id props sources))
  = match Parameters.resolved
            (Parameters.createStringParameter context valueAsString id props sources) with
    | Some _ => true
    | None => false
    end.
Proof.
  pose proof (createStringParameter_resolved_not_empty_lemma context valueAsString id
                props sources) as Hne.
  destruct (Parameters.resolved _) as [[ | c s] | ]; try reflexivity. congruence.
Qed.

(** X4.  For a parameter made by [createStringParameter] whose deferred
    handle is an unresolved token, [tryResolveParameter] gives exactly the
    resolved value: the handle is never handed out as a concrete string. *)
Theorem tryResolveParameter_gives_resolved (context : gmap string jsval)
    (valueAsString : string -> string) (id : string)
    (props : Parameters.CfnParameterProps) (sources : Parameters.ParameterSources) :
  isUnresolved (valueAsString id) = true ->
  tryResolveParameter isUnresolved
    (Parameters.createStringParameter context valueAsString id props sources)
  = Parameters.resolved
      (Parameters.createStringParameter context valueAsString id props sources).
Proof.
  intros Hhandle. unfold tryResolveParameter. rewrite truthy_resolved.
  destruct (Parameters.resolved _) as [s | ] eqn:Hs; [reflexivity | ].
  unfold Parameters.createStringParameter. cbn [Parameters.value].
  now rewrite Hhandle.
Qed.

(** A parameter with a declared default that is a non-empty string always
    has a resolved value. *)
Lemma resolved_withDefault (context : gmap string jsval)
    (valueAsString : string -> string) (id : string) (c : ascii) (s : string)
    (sources : Parameters.ParameterSources) :
  exists r,
    Parameters.resolved
      (Parameters.createStringParameter context valueAsString id
         (Shared.withDefault (String c s)) sources) = Some r.
Proof.
  rewrite resolved_unfold.
  destruct (nonEmptyString _) as [r | ]; [now exists r | ].
  now exists (String c s).
Qed.

(** Two resolved values that are not empty are converted. *)
Lemma resolveRefreshScheduleTiming_of_resolved (parameters : Shared.SharedParameters)
    (c1 c2 : ascii) (localTime timezone : string) :
  Parameters.resolved (Shared.dailyRefreshTimeLocal parameters)
  = Some (String c1 localTime) ->
  Parameters.resolved (Shared.timezone parameters) = Some (String c2 timezone) ->
  resolveRefreshScheduleTiming isUnresolved DateTimeFormat parameters
  = (let! utc := convertLocalTimeToUtc DateTimeFormat (String c1 localTime)
                   (String c2 timezone) in
     Ok {| timeOfTheDay := utc; timeZone := "UTC" |}).
Proof.
  intros Hlocal Hzone.
  unfold resolveRefreshScheduleTiming, tryResolveParameter.
  rewrite Hlocal, Hzone. reflexivity.
Qed.

(** X5.  With the parameters of [createSharedParameters], the schedule is
    never the fallback pair of handles: the local time and the time zone
    always have resolved values, and the result is the conversion of these
    two, in UTC, or the error of the conversion. *)
Theorem resolveRefreshScheduleTiming_always_converts (context : gmap string jsval)
    (valueAsString fnSub : string -> string)
    (overrides : option Shared.ParameterSourceOverrides) :
  exists localTime timezone,
    Parameters.resolved
      (Shared.dailyRefreshTimeLocal
         (Shared.createSharedParameters context valueAsString fnSub overrides))
    = Some localTime
    /\ Parameters.resolved
         (Shared.timezone
            (Shared.createSharedParameters context valueAsString fnSub overrides))
       = Some timezone
    /\ resolveRefreshScheduleTiming isUnresolved DateTimeFormat
         (Shared.createSharedParameters context valueAsString fnSub overrides)
       = (let! utc := convertLocalTimeToUtc DateTimeFormat localTime timezone in
          Ok {| timeOfTheDay := utc; timeZone := "UTC" |}).
Proof.
  set (parameters := Shared.createSharedParameters context valueAsString fnSub overrides).
  destruct (resolved_withDefault context valueAsString "DailyRefreshTimeLocal"
              "1" "0:00"
              {| Parameters.global := overrides ≫= Shared.globalParameters;
                 Parameters.stack := overrides ≫= Shared.stackParameters |})
    as [localTime Hlocal].
  destruct (resolved_withDefault context valueAsString "Timezone"
              "A" "sia/Bangkok"
              {| Parameters.global := overrides ≫= Shared.globalParameters;
                 Parameters.stack := overrides ≫= Shared.stackParameters |})
    as [timezone Hzone].
  change (Parameters.resolved (Shared.dailyRefreshTimeLocal parameters) = Some localTime)
    in Hlocal.
  change (Parameters.resolved (Shared.timezone parameters) = Some timezone) in Hzone.
  exists localTime, timezone.
  split; [exact Hlocal | split; [exact Hzone | ]].
  destruct localTime as [ | c1 localTime ].
  { exfalso. revert Hlocal. apply createStringParameter_resolved_not_empty_lemma. }
  destruct timezone as [ | c2 timezone ].
  { exfalso. revert Hzone. apply createStringParameter_resolved_not_empty_lemma. }
  now apply resolveRefreshScheduleTiming_of_resolved.
Qed.

(** X7.  When neither the context nor the layers say anything about the
    local time and the time zone, and the engine shows Bangkok seven hours
    ahead at 10:00 UTC on the reference day, the refresh is scheduled at
    03:00 UTC. *)
Theorem resolveRefreshScheduleTiming_default (context : gmap string jsval)
    (valueAsString fnSub : string -> string)
    (overrides : option Shared.ParameterSourceOverrides)
    (formatToParts : Z -> list (string * string)) :
  noOverride context "DailyRefreshTimeLocal" ->
  noOverride context "Timezone" ->
  (forall key, key = "DailyRefreshTimeLocal" \/ key = "Timezone" ->
     Parameters.layerGet (overrides ≫= Shared.stackParameters) key = None
     /\ Parameters.layerGet (overrides ≫= Shared.globalParameters) key = None) ->
  DateTimeFormat "Asia/Bangkok" = Some formatToParts ->
  showsOffset formatToParts (10 * msPerHour) (7 * msPerHour) ->
  resolveRefreshScheduleTiming isUnresolved DateTimeFormat
    (Shared.createSharedParameters context valueAsString fnSub overrides)
  = Ok {| timeOfTheDay := "03:00"; timeZone := "UTC" |}.
Proof.
  intros Hlocal Hzone Hlayers Hengine Hshows.
  destruct (Hlayers "DailyRefreshTimeLocal" (or_introl eq_refl)) as [Hls Hlg].
  destruct (Hlayers "Timezone" (or_intror eq_refl)) as [Hzs Hzg].
  rewrite (resolveRefreshScheduleTiming_of_resolved _ "1" "A" "0:00" "sia/Bangkok").
  - destruct (convertLocalTimeToUtc_wellFormed DateTimeFormat "10:00" "Asia/Bangkok"
                formatToParts (7 * msPerHour) eq_refl Hengine Hshows eq_refl) as [_ ->].
    + unfold msPerDay, msPerHour. lia.
    + reflexivity.
  - unfold Shared.createSharedParameters. cbn [Shared.dailyRefreshTimeLocal].
    rewrite resolved_unfold, (nullish_noOverride context _ _ Hlocal),
      lookupFromConfig_nonEmpty, lookupFromConfig_layers.
    cbn [Parameters.stack Parameters.global]. now rewrite Hls, Hlg.
  - unfold Shared.createSharedParameters. cbn [Shared.timezone].
    rewrite resolved_unfold, (nullish_noOverride context _ _ Hzone),
      lookupFromConfig_nonEmpty, lookupFromConfig_layers.
    cbn [Parameters.stack Parameters.global]. now rewrite Hzs, Hzg.
Qed.

End RefreshScheduleFacts.

Lemma tryResolveParameter_gives_resolved_witness :
  tryResolveParameter markerTest
    (Parameters.createStringParameter ∅ tokenOf
       "CurExportBucketName" Shared.withoutDefault
       {| Parameters.global := None; Parameters.stack := None |})
  = None.
Proof.
  rewrite (tryResolveParameter_gives_resolved markerTest ∅
             tokenOf "CurExportBucketName"
             Shared.withoutDefault
             {| Parameters.global := None; Parameters.stack := None |});
    reflexivity.
Defined.

Lemma resolveRefreshScheduleTiming_default_witness :
  resolveRefreshScheduleTiming markerTest engine1970
    (Shared.createSharedParameters {["CurTableName" := VStr "cur"]}
       tokenOf
       (fun body => "${Token[TOKEN.sub]}") None)
  = Ok {| timeOfTheDay := "03:00"; timeZone := "UTC" |}.
Proof.
  apply (resolveRefreshScheduleTiming_default markerTest engine1970
           {["CurTableName" := VStr "cur"]}
           tokenOf
           (fun body => "${Token[TOKEN.sub]}") None
           (wallClockParts (7 * msPerHour))).
  - left. reflexivity.
  - left. reflexivity.
  - intros key _. split; reflexivity.
  - reflexivity.
  - reflexivity.
Defined.

(** ** Resource identifiers *)

Lemma resourceId_char (c : ascii) :
  isLowerIdChar (toLowerCase (if isIdChar c then c else "-"%char)) = true.
Proof. destruct c as [[] [] [] [] [] [] [] []]; reflexivity. Qed.

Lemma resourceId_char_fixed (c : ascii) :
  isLowerIdChar c = true -> toLowerCase (if isIdChar c then c else "-"%char) = c.
Proof. destruct c as [[] [] [] [] [] [] [] []]; try discriminate; reflexivity. Qed.

Lemma mapString_length (f : ascii -> ascii) (s : string) :
  String.length (mapString f s) = String.length s.
Proof. induction s as [ | c s IH ]; simpl; [reflexivity | now rewrite IH]. Qed.

Lemma resourceIdOf_alphabet (base : string) :
  allChars isLowerIdChar (resourceIdOf base) = true.
Proof.
  induction base as [ | c base IH ]; [reflexivity | ].
  unfold resourceIdOf, toLowerCaseString, replaceDisallowed in *. simpl.
  now rewrite resourceId_char, IH.
Qed.

Lemma resourceIdOf_fixed (base : string) :
  allChars isLowerIdChar base = true -> resourceIdOf base = base.
Proof.
  induction base as [ | c base IH ]; [reflexivity | ].
  simpl. rewrite andb_true_iff. intros [Hc Hbase].
  unfold resourceIdOf, toLowerCaseString, replaceDisallowed in *. simpl.
  now rewrite resourceId_char_fixed, IH.
Qed.

(** X8.  A resource identifier is made of lowercase letters, digits,
    underscores and hyphens only, and has the length of the prefixed name it
    is made from; a name that is already of this form is its own
    identifier, so that making an identifier of an identifier changes
    nothing. *)
Theorem toResourceId_form (withProjectPrefix : string -> string) (suffix : string) :
  allChars isLowerIdChar (toResourceId withProjectPrefix suffix) = true
  /\ String.length (toResourceId withProjectPrefix suffix)
     = String.length (withProjectPrefix suffix)
  /\ (allChars isLowerIdChar (withProjectPrefix suffix) = true ->
      toResourceId withProjectPrefix suffix = withProjectPrefix suffix)
  /\ resourceIdOf (toResourceId withProjectPrefix suffix)
     = toResourceId withProjectPrefix suffix.
Proof.
  unfold toResourceId. repeat split.
  - apply resourceIdOf_alphabet.
  - unfold resourceIdOf, toLowerCaseString, replaceDisallowed.
    now rewrite !mapString_length.
  - apply resourceIdOf_fixed.
  - apply resourceIdOf_fixed, resourceIdOf_alphabet.
Qed.

Lemma toResourceId_form_witness :
  toResourceId (fun suffix => "CUR QuickSight/" +:+ suffix) "cur-dataset"
  = "cur-quicksight-cur-dataset"
  /\ toResourceId (fun suffix => "cur_qs-" +:+ suffix) "rls-dataset"
     = "cur_qs-rls-dataset".
Proof.
  split; [reflexivity | ].
  apply (proj1 (proj2 (proj2 (toResourceId_form (fun suffix => "cur_qs-" +:+ suffix)
                                 "rls-dataset")))).
  reflexivity.
Defined.

(** ** More on the string replacer *)

Lemma replaced_string (search replace s : string) :
  replaced search replace (VStr s)
  = VStr (if String.eqb s search then replace else s).
Proof. unfold replaced. simpl. destruct (String.eqb s search); reflexivity. Qed.

Lemma replaced_not_string (search replace : string) (v : jsval) :
  match v with VStr _ => False | _ => True end ->
  replaced search replace v = replaceStringRecursively v search replace
  /\ match replaced search replace v with VStr _ => False | _ => True end.
Proof. destruct v; simpl; try tauto; intros _; split; exact I || reflexivity. Qed.

(** What is left in the place of a value is not the search string, unless
    the replacement is. *)
Lemma replaced_not_search (search replace : string) (v : jsval) :
  search <> replace -> replaced search replace v <> VStr search.
Proof.
  intros Hne. destruct v as [ | b | n | s | items | props | token props ];
    try discriminate.
  rewrite replaced_string.
  destruct (String.eqb_spec s search); congruence.
Qed.

(** X9.  After [replaceStringRecursively] with a replacement other than
    the search string, no array element and no object value, at any depth,
    is the search string. *)
Theorem replaceStringRecursively_leaves_no_match (target : jsval)
    (search replace : string) (path : list segment) :
  search <> replace -> path <> [] ->
  subtree (replaceStringRecursively target search replace) path
  <> Some (VStr search).
Proof.
  intros Hne Hpath. rewrite subtree_replace by exact Hpath.
  destruct (subtree target path) as [v | ]; [ | discriminate].
  simpl. intros [= H]. now apply (replaced_not_search search replace v).
Qed.

Lemma replaceStringRecursively_leaves_no_match_witness :
  subtree
    (replaceStringRecursively
       (VObj [("dataSetIdentifier", VStr "synnex-org-usage")])
       "synnex-org-usage" "cur-dataset")
    [Key "dataSetIdentifier"]
  <> Some (VStr "synnex-org-usage").
Proof.
  apply replaceStringRecursively_leaves_no_match; discriminate.
Defined.

Lemma replaced_idempotent_step (search replace : string) (v : jsval) :
  replaceStringRecursively (replaceStringRecursively v search replace) search replace
  = replaceStringRecursively v search replace ->
  replaced search replace (replaced search replace v) = replaced search replace v.
Proof.
  intros IH. destruct v as [ | b | n | s | items | props | token props ];
    try exact IH.
  rewrite !replaced_string.
  destruct (String.eqb_spec s search) as [-> | Hs].
  - destruct (String.eqb replace search); reflexivity.
  - destruct (String.eqb_spec s search); congruence.
Qed.

Lemma replace_array (search replace : string) (items : list jsval) :
  replaceStringRecursively (VArr items) search replace
  = VArr (map (replaced search replace) items).
Proof. reflexivity. Qed.

Lemma replace_resolvable (search replace : string) (token : positive)
    (props : list (string * jsval)) :
  replaceStringRecursively (VRes token props) search replace
  = VRes token (map (fun entry => (fst entry, replaced search replace (snd entry))) props).
Proof. reflexivity. Qed.

(** X10.  Running [replaceStringRecursively] a second time with the same
    arguments changes nothing more. *)
Theorem replaceStringRecursively_idempotent (target : jsval) (search replace : string) :
  replaceStringRecursively (replaceStringRecursively target search replace)
    search replace
  = replaceStringRecursively target search replace.
Proof.
  induction target as [ | b | n | s | items IH | props IH | token props IH ]
    using jsval_nested_ind; try reflexivity.
  - rewrite !replace_array. f_equal. rewrite List.map_map.
    apply List.map_ext_in. intros item Hin. rewrite List.Forall_forall in IH.
    apply replaced_idempotent_step. now apply IH.
  - rewrite !replace_object. f_equal. rewrite List.map_map.
    apply List.map_ext_in. intros entry Hin. rewrite List.Forall_forall in IH.
    simpl. f_equal. apply replaced_idempotent_step. now apply IH.
  - rewrite !replace_resolvable. f_equal. rewrite List.map_map.
    apply List.map_ext_in. intros entry Hin. rewrite List.Forall_forall in IH.
    simpl. f_equal. apply replaced_idempotent_step. now apply IH.
Qed.

(** ** The replacer and the normalizer *)

Lemma setOwn_map_values (g : jsval -> jsval) (props : list (string * jsval))
    (key : string) (v : jsval) :
  setOwn (map (fun entry => (fst entry, g (snd entry))) props) key (g v)
  = map (fun entry => (fst entry, g (snd entry))) (setOwn props key v).
Proof.
  induction props as [ | [k old] props IH ]; simpl; [reflexivity | ].
  destruct (String.eqb k key); simpl; [reflexivity | now rewrite IH].
Qed.

Lemma assign_map_values (g : jsval -> jsval) (props : list (string * jsval))
    (key : string) (v : jsval) :
  assign (map (fun entry => (fst entry, g (snd entry))) props) key (g v)
  = map (fun entry => (fst entry, g (snd entry))) (assign props key v).
Proof.
  unfold assign. destruct (String.eqb key "__proto__");
    [reflexivity | apply setOwn_map_values].
Qed.

(** Rebuilding the entries commutes with a change of the values that
    commutes with the function applied to them. *)
Lemma rebuild_map_values (f g : jsval -> jsval) (props : list (string * jsval)) :
  Forall (fun entry => f (g (snd entry)) = g (f (snd entry))) props ->
  forall normalized,
    rebuild f (map (fun entry => (fst entry, g (snd entry))) props)
            (map (fun entry => (fst entry, g (snd entry))) normalized)
    = map (fun entry => (fst entry, g (snd entry))) (rebuild f props normalized).
Proof.
  induction 1 as [ | entry props Hentry _ IH ]; intros normalized; [reflexivity | ].
  simpl map. rewrite !rebuild_cons. cbn [fst snd].
  rewrite Hentry, assign_map_values. apply IH.
Qed.

Lemma replaced_normalize_step (search replace : string) (v : jsval) :
  normalizeDefinitionKeys (replaceStringRecursively v search replace)
  = replaceStringRecursively (normalizeDefinitionKeys v) search replace ->
  normalizeDefinitionKeys (replaced search replace v)
  = replaced search replace (normalizeDefinitionKeys v).
Proof.
  intros IH. destruct v as [ | b | n | s | items | props | token props ];
    try exact IH.
  cbn [normalizeDefinitionKeys]. now rewrite replaced_string.
Qed.

(** X11.  Normalizing the keys and replacing a string can be done in
    either order: the result is the same tree. *)
Theorem normalizeDefinitionKeys_replaceStringRecursively_commute
    (value : jsval) (search replace : string) :
  normalizeDefinitionKeys (replaceStringRecursively value search replace)
  = replaceStringRecursively (normalizeDefinitionKeys value) search replace.
Proof.
  induction value as [ | b | n | s | items IH | props IH | token props IH ]
    using jsval_nested_ind; try reflexivity.
  - rewrite replace_array. cbn [normalizeDefinitionKeys]. rewrite replace_array.
    f_equal. rewrite !List.map_map.
    apply List.map_ext_in. intros item Hin. rewrite List.Forall_forall in IH.
    apply replaced_normalize_step. now apply IH.
  - rewrite replace_object, !normalize_object, replace_object. f_equal.
    refine (rebuild_map_values normalizeDefinitionKeys (replaced search replace)
              props _ []).
    eapply List.Forall_impl; [ | exact IH].
    intros entry Hentry. now apply replaced_normalize_step.
  - rewrite replace_resolvable, !normalize_resolvable, replace_object. f_equal.
    refine (rebuild_map_values normalizeDefinitionKeys (replaced search replace)
              props _ []).
    eapply List.Forall_impl; [ | exact IH].
    intros entry Hentry. now apply replaced_normalize_step.
Qed.

(** ** More on the dataset reference *)

Lemma rebindDeclarations_object (props : list (string * jsval))
    (datasetArn identifier : string) :
  exists props',
    rebindDeclarations (VObj props) datasetArn identifier = Ok (VObj props')
    /\ map fst props' = map fst props
    /\ (getOwn props declarationKey = None -> props' = props).
Proof.
  unfold rebindDeclarations. cbn [getDeclarations bind].
  destruct (getOwn props declarationKey) as [declarations | ] eqn:Hdecl.
  - destruct declarations; try (exists props; repeat split; try reflexivity; discriminate).
    eexists. split; [reflexivity | ]. split; [ | discriminate].
    apply setOwn_keys. eapply getOwn_In. exact Hdecl.
  - exists props. repeat split; reflexivity.
Qed.

Lemma applyDatasetReference_object (props : list (string * jsval))
    (datasetArn identifier : string) :
  exists rebound,
    rebindDeclarations (VObj props) datasetArn identifier = Ok (VObj rebound)
    /\ map fst rebound = map fst props
    /\ (getOwn props declarationKey = None -> rebound = props)
    /\ applyDatasetReference (VObj props) datasetArn identifier
       = Ok (replaceStringRecursively
               (replaceStringRecursively (VObj rebound) templateIdentifier identifier)
               templateArn datasetArn).
Proof.
  destruct (rebindDeclarations_object props datasetArn identifier)
    as (rebound & Hrebind & Hkeys & Hnone).
  exists rebound. repeat split; try assumption.
  unfold applyDatasetReference. now rewrite Hrebind.
Qed.

(** X12.  On a definition that is a plain object, as [JSON.parse] gives
    one, [applyDatasetReference] never adds, removes or reorders the keys,
    and a definition without the declarations key gets none.  It throws a
    [TypeError] on [null], and returns on every other value. *)
Theorem applyDatasetReference_keeps_keys (datasetArn identifier : string) :
  (forall props, exists props',
      applyDatasetReference (VObj props) datasetArn identifier = Ok (VObj props')
      /\ map fst props' = map fst props
      /\ (getOwn props declarationKey = None -> getOwn props' declarationKey = None))
  /\ applyDatasetReference VNull datasetArn identifier = Throw TypeError
  /\ (forall definition, definition <> VNull ->
      exists result, applyDatasetReference definition datasetArn identifier = Ok result).
Proof.
  split; [ | split].
  - intros props.
    destruct (applyDatasetReference_object props datasetArn identifier)
      as (rebound & _ & Hkeys & Hnone & ->).
    rewrite !replace_object. eexists. split; [reflexivity | ].
    split; [now rewrite !keys_map | ].
    intros Habsent. rewrite (Hnone Habsent), !getOwn_map, Habsent. reflexivity.
  - reflexivity.
  - intros definition Hnull. unfold applyDatasetReference, rebindDeclarations.
    destruct definition as [ | b | n | s | items | props | token props ];
      try congruence; cbn [getDeclarations bind]; try (eexists; reflexivity).
    + destruct (getOwn props declarationKey) as [[ | | | | | | ] | ];
        eexists; reflexivity.
    + destruct (getOwn props declarationKey) as [[ | | | | | | ] | ];
        eexists; reflexivity.
Qed.

(** Two passes leave neither search string, when no replacement brings
    one back. *)
Lemma two_passes_leave_no_match (value : jsval) (s1 r1 s2 r2 : string)
    (path : list segment) :
  s1 <> r1 -> s1 <> r2 -> s2 <> r2 -> path <> [] ->
  subtree (replaceStringRecursively (replaceStringRecursively value s1 r1) s2 r2) path
  <> Some (VStr s1)
  /\ subtree (replaceStringRecursively (replaceStringRecursively value s1 r1) s2 r2) path
     <> Some (VStr s2).
Proof.
  intros H11 H12 H22 Hpath. split.
  - rewrite subtree_replace by exact Hpath.
    destruct (subtree (replaceStringRecursively value s1 r1) path) as [v | ] eqn:Hv;
      [ | discriminate].
    simpl. intros [= H].
    destruct v as [ | b | n | s | items | props | token props ]; try discriminate H.
    rewrite replaced_string in H.
    destruct (String.eqb_spec s s2) as [-> | Hs]; [congruence | ].
    injection H as ->. revert Hv. rewrite subtree_replace by exact Hpath.
    destruct (subtree value path) as [v | ]; [ | discriminate].
    simpl. intros [= H]. now apply (replaced_not_search s1 r1 v).
  - rewrite subtree_replace by exact Hpath.
    destruct (subtree _ path) as [v | ]; [ | discriminate].
    simpl. intros [= H]. now apply (replaced_not_search s2 r2 v).
Qed.

(** X13.  After [applyDatasetReference] with an identifier and a
    reference that are not themselves the template's placeholders, no array
    element and no object value of the definition, at any depth, is the
    template's dataset identifier or the template's dataset reference. *)
Theorem applyDatasetReference_removes_placeholders
    (definition result : jsval) (datasetArn identifier : string)
    (path : list segment) :
  identifier <> templateIdentifier -> datasetArn <> templateIdentifier ->
  datasetArn <> templateArn ->
  applyDatasetReference definition datasetArn identifier = Ok result ->
  path <> [] ->
  subtree result path <> Some (VStr templateIdentifier)
  /\ subtree result path <> Some (VStr templateArn).
Proof.
  intros Hid Harn1 Harn2 Happly Hpath.
  unfold applyDatasetReference in Happly.
  destruct (rebindDeclarations definition datasetArn identifier) as [rebound | e];
    [ | discriminate Happly].
  cbn [bind] in Happly. injection Happly as <-.
  apply two_passes_leave_no_match; congruence.
Qed.

Lemma applyDatasetReference_removes_placeholders_witness :
  subtree
    (VObj [("dataSetIdentifierDeclarations",
            VArr [declaration "${Token[TOKEN.42]}" "cur-dataset"]);
           ("sheets",
            VArr [VObj [("dataSetIdentifier", VStr "cur-dataset")]])])
    [Key "sheets"; Idx 0; Key "dataSetIdentifier"]
  <> Some (VStr templateIdentifier).
Proof.
  apply (applyDatasetReference_removes_placeholders
           (VObj [("dataSetIdentifierDeclarations",
                   VArr [declaration templateArn templateIdentifier]);
                  ("sheets",
                   VArr [VObj [("dataSetIdentifier", VStr templateIdentifier)]])])
           (VObj [("dataSetIdentifierDeclarations",
                   VArr [declaration "${Token[TOKEN.42]}" "cur-dataset"]);
                  ("sheets",
                   VArr [VObj [("dataSetIdentifier", VStr "cur-dataset")]])])
           "${Token[TOKEN.42]}" "cur-dataset"
           [Key "sheets"; Idx 0; Key "dataSetIdentifier"]);
    try discriminate; reflexivity.
Defined.




(** ** More on the tree walker *)

Lemma preorder_array (items : list jsval) (path : list segment) :
  preorder (VArr items) path = (path, VArr items) :: preorderElements items path 0.
Proof.
  simpl. f_equal. generalize O.
  induction items as [ | item items IH ]; intros index; simpl; [reflexivity | ].
  now rewrite IH.
Qed.

Lemma preorder_object (props : list (string * jsval)) (path : list segment) :
  preorder (VObj props) path = (path, VObj props) :: preorderValues props path.
Proof.
  simpl. f_equal.
  induction props as [ | [key v] props IH ]; simpl; [reflexivity | ].
  now rewrite IH.
Qed.

Lemma distinctKeys_array (items : list jsval) :
  distinctKeys (VArr items) <-> Forall distinctKeys items.
Proof.
  simpl. induction items as [ | item items IH ].
  - split; [constructor | exact (fun _ => I)].
  - rewrite List.Forall_cons_iff, IH. reflexivity.
Qed.

Lemma distinctKeys_object (props : list (string * jsval)) :
  distinctKeys (VObj props)
  <-> List.NoDup (map fst props) /\ Forall (fun entry => distinctKeys (snd entry)) props.
Proof.
  simpl. apply and_iff_compat_l.
  induction props as [ | entry props IH ].
  - split; [constructor | exact (fun _ => I)].
  - rewrite List.Forall_cons_iff, IH. reflexivity.
Qed.

Lemma getOwn_NoDup (props : list (string * jsval)) (key : string) (v : jsval) :
  List.NoDup (map fst props) -> In (key, v) props -> getOwn props key = Some v.
Proof.
  induction props as [ | [k old] props IH ]; simpl; [contradiction | ].
  intros Hnodup [Hhead | Htail].
  - injection Hhead as -> ->. now rewrite String.eqb_refl.
  - apply List.NoDup_cons_iff in Hnodup as [Hfresh Hnodup].
    destruct (String.eqb_spec k key) as [-> | Hne].
    + exfalso. apply Hfresh. apply (List.in_map fst) in Htail. exact Htail.
    + now apply IH.
Qed.

(** A node that the traversal reports lies at the reported path, below
    the path the traversal started with. *)
Lemma preorder_addresses (value : jsval) :
  distinctKeys value ->
  forall base path node,
    In (path, node) (preorder value base) ->
    exists below, path = base ++ below /\ subtree value below = Some node.
Proof.
  induction value as [ | b | n | s | items IH | props IH | token props IH ]
    using jsval_nested_ind; intros Hdistinct base path node Hin;
    try (destruct Hin as [[= <- <-] | []]; exists [];
         split; [now rewrite List.app_nil_r | reflexivity]).
  - rewrite preorder_array in Hin. destruct Hin as [[= <- <-] | Hin].
    { exists []. split; [now rewrite List.app_nil_r | reflexivity]. }
    apply distinctKeys_array in Hdistinct.
    assert (forall l index,
               Forall (fun item => distinctKeys item ->
                         forall base path node,
                           In (path, node) (preorder item base) ->
                           exists below, path = base ++ below
                                         /\ subtree item below = Some node) l ->
               Forall distinctKeys l ->
               In (path, node) (preorderElements l base index) ->
               exists k item below,
                 l !! k = Some item
                 /\ path = base ++ Idx (index + k) :: below
                 /\ subtree item below = Some node) as Hloop.
    { induction l as [ | item l IHl ]; intros index Hl Hd Hin'; [contradiction | ].
      simpl in Hin'. apply List.in_app_or in Hin'.
      apply List.Forall_cons_iff in Hl as [Hitem Hl].
      apply List.Forall_cons_iff in Hd as [Hditem Hd].
      destruct Hin' as [Hin' | Hin'].
      - destruct (Hitem Hditem _ _ _ Hin') as (below & -> & Hbelow).
        exists O, item, below. repeat split; [ | exact Hbelow].
        now rewrite <- List.app_assoc, Nat.add_0_r.
      - destruct (IHl (S index) Hl Hd Hin') as (k & item' & below & Hk & -> & Hbelow).
        exists (S k), item', below. repeat split; [exact Hk | | exact Hbelow].
        now rewrite Nat.add_succ_r. }
    destruct (Hloop items O IH Hdistinct Hin) as (k & item & below & Hk & -> & Hbelow).
    exists (Idx k :: below). split; [reflexivity | ].
    simpl. now rewrite Hk.
  - rewrite preorder_object in Hin. destruct Hin as [[= <- <-] | Hin].
    { exists []. split; [now rewrite List.app_nil_r | reflexivity]. }
    apply distinctKeys_object in Hdistinct as [Hnodup Hdistinct].
    assert (forall l,
               Forall (fun entry => distinctKeys (snd entry) ->
                         forall base path node,
                           In (path, node) (preorder (snd entry) base) ->
                           exists below, path = base ++ below
                                         /\ subtree (snd entry) below = Some node) l ->
               Forall (fun entry => distinctKeys (snd entry)) l ->
               In (path, node) (preorderValues l base) ->
               exists key v below,
                 In (key, v) l
                 /\ path = base ++ Key key :: below
                 /\ subtree v below = Some node) as Hloop.
    { induction l as [ | [key v] l IHl ]; intros Hl Hd Hin'; [contradiction | ].
      simpl in Hin'. apply List.in_app_or in Hin'.
      apply List.Forall_cons_iff in Hl as [Hentry Hl].
      apply List.Forall_cons_iff in Hd as [Hdentry Hd].
      destruct Hin' as [Hin' | Hin'].
      - destruct (Hentry Hdentry _ _ _ Hin') as (below & -> & Hbelow).
        exists key, v, below. repeat split; [now left | | exact Hbelow].
        now rewrite <- List.app_assoc.
      - destruct (IHl Hl Hd Hin') as (key' & v' & below & Hk & -> & Hbelow).
        exists key', v', below. repeat split; [now right | exact Hbelow]. }
    destruct (Hloop props IH Hdistinct Hin) as (key & v & below & Hk & -> & Hbelow).
    exists (Key key :: below). split; [reflexivity | ].
    simpl. now rewrite (getOwn_NoDup props key v Hnodup Hk).
Qed.

(** A node that lies at a path which enters arrays and plain objects
    only is reported by the traversal, with that path. *)
Lemma preorder_reaches (path : list segment) :
  forall value base node,
    subtreeEntered value path = Some node ->
    In (base ++ path, node) (preorder value base).
Proof.
  induction path as [ | s path IH ]; intros value base node Hsub.
  - injection Hsub as <-. rewrite List.app_nil_r.
    destruct value; simpl; now left.
  - simpl in Hsub.
    destruct value as [ | b | n | str | items | props | token props ];
      destruct s as [i | k]; try discriminate Hsub.
    + rewrite preorder_array. right.
      cbn [childEntered] in Hsub.
      destruct (items !! i) as [item | ] eqn:Hitem; [ | discriminate Hsub].
      assert (forall l index j,
                 l !! j = Some item ->
                 In (base ++ Idx (index + j) :: path, node)
                    (preorderElements l base index)) as Hloop.
      { induction l as [ | item' l IHl ]; intros index j Hj; [discriminate Hj | ].
        simpl. apply List.in_or_app. destruct j as [ | j ].
        - left. injection Hj as ->. rewrite Nat.add_0_r.
          replace (base ++ Idx index :: path) with ((base ++ [Idx index]) ++ path)
            by now rewrite <- List.app_assoc.
          now apply IH.
        - right. rewrite Nat.add_succ_r. now apply (IHl (S index) j). }
      exact (Hloop items O i Hitem).
    + rewrite preorder_object. right.
      cbn [childEntered] in Hsub.
      destruct (getOwn props k) as [v | ] eqn:Hv; [ | discriminate Hsub].
      revert Hv. induction props as [ | [key v'] props IHprops ]; [discriminate | ].
      simpl. intros Hv. apply List.in_or_app.
      destruct (String.eqb_spec key k) as [-> | Hne].
      * left. injection Hv as ->.
        replace (base ++ Key k :: path) with ((base ++ [Key k]) ++ path)
          by now rewrite <- List.app_assoc.
        now apply IH.
      * right. now apply IHprops.
Qed.

Lemma preorderElements_paths (items : list jsval) (base : list segment) :
  Forall distinctKeys items ->
  forall index path,
    In path (map fst (preorderElements items base index)) ->
    exists j below, (index <= j)%nat /\ path = base ++ Idx j :: below.
Proof.
  induction 1 as [ | item items Hitem _ IH ]; intros index path Hin;
    [contradiction | ].
  simpl in Hin. rewrite List.map_app in Hin.
  apply List.in_app_or in Hin as [Hin | Hin].
  - apply List.in_map_iff in Hin as ([p node] & <- & Hin).
    destruct (preorder_addresses item Hitem _ _ _ Hin) as (below & -> & _).
    exists index, below. split; [lia | ].
    simpl. now rewrite <- List.app_assoc.
  - destruct (IH (S index) path Hin) as (j & below & Hj & ->).
    exists j, below. split; [lia | reflexivity].
Qed.

Lemma preorderValues_paths (props : list (string * jsval)) (base : list segment) :
  Forall (fun entry => distinctKeys (snd entry)) props ->
  forall path,
    In path (map fst (preorderValues props base)) ->
    exists key below, In key (map fst props) /\ path = base ++ Key key :: below.
Proof.
  induction 1 as [ | [key v] props Hentry _ IH ]; intros path Hin;
    [contradiction | ].
  simpl in Hin. rewrite List.map_app in Hin.
  apply List.in_app_or in Hin as [Hin | Hin].
  - apply List.in_map_iff in Hin as ([p node] & <- & Hin).
    destruct (preorder_addresses v Hentry _ _ _ Hin) as (below & -> & _).
    exists key, below. split; [now left | ].
    simpl. now rewrite <- List.app_assoc.
  - destruct (IH path Hin) as (key' & below & Hkey & ->).
    exists key', below. split; [now right | reflexivity].
Qed.

Lemma path_not_below (base below : list segment) (s : segment) :
  base <> base ++ s :: below.
Proof.
  intros Heq. apply (f_equal (@length segment)) in Heq.
  rewrite List.length_app in Heq. simpl in Heq. lia.
Qed.

(** On a tree with distinct keys the traversal reports no path twice. *)
Lemma preorder_paths_NoDup (value : jsval) :
  distinctKeys value ->
  forall base, List.NoDup (map fst (preorder value base)).
Proof.
  induction value as [ | b | n | s | items IH | props IH | token props IH ]
    using jsval_nested_ind; intros Hdistinct base;
    try (repeat constructor; intros []).
  - rewrite preorder_array. apply distinctKeys_array in Hdistinct.
    simpl. constructor.
    + intros Hin.
      destruct (preorderElements_paths items base Hdistinct 0%nat base Hin)
        as (j & below & _ & Heq).
      exact (path_not_below _ _ _ Heq).
    + generalize 0%nat.
      induction items as [ | item items IHitems ]; intros index; [constructor | ].
      apply List.Forall_cons_iff in IH as [Hitem IH].
      apply List.Forall_cons_iff in Hdistinct as [Hd Hdistinct].
      simpl. rewrite List.map_app. apply List.NoDup_app.
      * apply Hitem, Hd.
      * apply IHitems; assumption.
      * intros path Hhead Htail.
        apply List.in_map_iff in Hhead as ([p node] & <- & Hhead).
        destruct (preorder_addresses item Hd _ _ _ Hhead) as (below & -> & _).
        destruct (preorderElements_paths items base Hdistinct (S index) _ Htail)
          as (j & below' & Hj & Heq).
        simpl in Heq. rewrite <- List.app_assoc in Heq.
        apply List.app_inv_head in Heq. injection Heq as -> _. lia.
  - rewrite preorder_object. apply distinctKeys_object in Hdistinct.
    destruct Hdistinct as [Hnodup Hdistinct].
    simpl. constructor.
    + intros Hin.
      destruct (preorderValues_paths props base Hdistinct base Hin)
        as (key & below & _ & Heq).
      exact (path_not_below _ _ _ Heq).
    + induction props as [ | [key v] props IHprops ]; [constructor | ].
      apply List.Forall_cons_iff in IH as [Hentry IH].
      apply List.Forall_cons_iff in Hdistinct as [Hd Hdistinct].
      simpl in Hnodup. apply List.NoDup_cons_iff in Hnodup as [Hfresh Hnodup].
      simpl. rewrite List.map_app. apply List.NoDup_app.
      * apply Hentry, Hd.
      * apply IHprops; assumption.
      * intros path Hhead Htail.
        apply List.in_map_iff in Hhead as ([p node] & <- & Hhead).
        destruct (preorder_addresses v Hd _ _ _ Hhead) as (below & -> & _).
        destruct (preorderValues_paths props base Hdistinct _ Htail)
          as (key' & below' & Hkey & Heq).
        simpl in Heq. rewrite <- List.app_assoc in Heq.
        apply List.app_inv_head in Heq. injection Heq as -> _.
        exact (Hfresh Hkey).
Qed.

(** X15.  [visitJson] calls the visitor on the nodes of the tree in
    pre-order.  On a tree with distinct keys every call hands over a node
    together with the path at which that node lies: following the path from
    the root gives the node; and no path is handed over twice.  And no node
    is skipped: every node at a path through arrays and plain objects is
    handed over with that path. *)
Theorem visitJson_paths_lead_to_nodes (value : jsval) :
  (forall visitor, visitJson value visitor [] = visitAll visitor (preorder value []))
  /\ (distinctKeys value ->
      (forall path node,
          In (path, node) (preorder value []) -> subtree value path = Some node)
      /\ List.NoDup (map fst (preorder value [])))
  /\ (forall path node,
        subtreeEntered value path = Some node -> In (path, node) (preorder value [])).
Proof.
  split; [ | split].
  - intros visitor. apply visitJson_preorder.
  - intros Hdistinct. split.
    + intros path node Hin.
      destruct (preorder_addresses value Hdistinct [] path node Hin)
        as (below & -> & H).
      exact H.
    + apply preorder_paths_NoDup, Hdistinct.
  - intros path node Hsub. now apply (preorder_reaches path value []).
Qed.

Lemma visitJson_paths_lead_to_nodes_witness :
  (forall path node,
      In (path, node)
         (preorder (VObj [("a", VArr [VNull; VObj [("b", VStr "leaf")]])]) []) ->
      subtree (VObj [("a", VArr [VNull; VObj [("b", VStr "leaf")]])]) path
      = Some node)
  /\ List.NoDup
       (map fst (preorder (VObj [("a", VArr [VNull; VObj [("b", VStr "leaf")]])]) [])).
Proof.
  apply (proj1 (proj2 (visitJson_paths_lead_to_nodes
                         (VObj [("a", VArr [VNull; VObj [("b", VStr "leaf")]])])))).
  simpl. repeat split; repeat constructor; simpl; tauto.
Defined.

(** ** The replacer before the sanitizer *)

Section ReplaceThenSanitize.
Variable isUnresolved : string -> bool.
Variables search replace : string.
Hypothesis replacement_allowed : forbidden isUnresolved (VStr replace) = false.

Lemma preorderElements_replaced (items : list jsval) :
  Forall (fun item => forall base,
            Forall (curableBy isUnresolved search) (preorder item base) ->
            Forall (allowedBy isUnresolved) (preorder (replaced search replace item) base)) items ->
  forall base index,
    Forall (curableBy isUnresolved search) (preorderElements items base index) ->
    Forall (allowedBy isUnresolved)
      (preorderElements (map (replaced search replace) items) base index).
Proof.
  induction 1 as [ | item items Hitem _ IH ]; intros base index Hall; [constructor | ].
  simpl in *. apply List.Forall_app in Hall as [Hhead Htail].
  apply List.Forall_app. split; [now apply Hitem | now apply IH].
Qed.

Lemma preorderValues_replaced (props : list (string * jsval)) :
  Forall (fun entry => forall base,
            Forall (curableBy isUnresolved search) (preorder (snd entry) base) ->
            Forall (allowedBy isUnresolved) (preorder (replaced search replace (snd entry)) base))
         props ->
  forall base,
    Forall (curableBy isUnresolved search) (preorderValues props base) ->
    Forall (allowedBy isUnresolved)
      (preorderValues
         (map (fun entry => (fst entry, replaced search replace (snd entry))) props)
         base).
Proof.
  induction 1 as [ | entry props Hentry _ IH ]; intros base Hall; [constructor | ].
  simpl in *. apply List.Forall_app in Hall as [Hhead Htail].
  apply List.Forall_app. split; [now apply Hentry | now apply IH].
Qed.

Lemma preorder_replaced (value : jsval) :
  forall base,
    Forall (curableBy isUnresolved search) (preorder value base) ->
    Forall (allowedBy isUnresolved) (preorder (replaced search replace value) base).
Proof.
  induction value as [ | b | n | s | items IH | props IH | token props IH ]
    using jsval_nested_ind; intros base Hall.
  - repeat constructor.
  - repeat constructor.
  - repeat constructor.
  - rewrite replaced_string. repeat constructor. unfold allowedBy. cbn [snd].
    destruct (String.eqb_spec s search) as [-> | Hne];
      [exact replacement_allowed | ].
    apply List.Forall_inv in Hall. destruct Hall as [Hs | Hs]; [exact Hs | ].
    simpl in Hs. congruence.
  - rewrite replaced_array, preorder_array. rewrite preorder_array in Hall.
    constructor; [reflexivity | ].
    apply List.Forall_inv_tail in Hall.
    now apply preorderElements_replaced.
  - change (replaced search replace (VObj props))
      with (replaceStringRecursively (VObj props) search replace).
    rewrite replace_object, preorder_object. rewrite preorder_object in Hall.
    constructor; [reflexivity | ].
    apply List.Forall_inv_tail in Hall.
    now apply preorderValues_replaced.
  - repeat constructor.
Qed.

(** X16.  When the root of a tree is not itself a string that the
    sanitizer forbids (a root is never replaced), the only strings below it
    that the sanitizer forbids are equal to the search string, and the
    replacement is a string that the sanitizer allows, the sanitizer accepts
    the tree after [replaceStringRecursively]. *)
Theorem assertNoHardCodedValues_after_replace (target : jsval)
    (messageContext : string) :
  forbidden isUnresolved target = false ->
  Forall (curableBy isUnresolved search) (preorder target []) ->
  assertNoHardCodedValues isUnresolved
    (replaceStringRecursively target search replace) messageContext
  = Ok tt.
Proof.
  intros Hroot Hall. unfold assertNoHardCodedValues.
  rewrite visitJson_preorder. apply visitAll_clean.
  destruct target as [ | b | n | s | items | props | token props ];
    try (constructor; [exact Hroot | constructor]).
  - rewrite replace_array, preorder_array. rewrite preorder_array in Hall.
    constructor; [reflexivity | ].
    apply List.Forall_inv_tail in Hall.
    apply preorderElements_replaced; [ | exact Hall].
    apply List.Forall_forall. intros item _. apply preorder_replaced.
  - rewrite replace_object, preorder_object. rewrite preorder_object in Hall.
    constructor; [reflexivity | ].
    apply List.Forall_inv_tail in Hall.
    apply preorderValues_replaced; [ | exact Hall].
    apply List.Forall_forall. intros entry _. apply preorder_replaced.
Qed.

End ReplaceThenSanitize.

Lemma assertNoHardCodedValues_after_replace_witness :
  assertNoHardCodedValues markerTest
    (replaceStringRecursively
       (VObj [("dataSetArn", VStr templateArn); ("name", VStr "CUR")])
       templateArn "${Token[TOKEN.42]}")
    "analysis_definition.json"
  = Ok tt.
Proof.
  apply (assertNoHardCodedValues_after_replace markerTest templateArn
           "${Token[TOKEN.42]}").
  - reflexivity.
  - reflexivity.
  - simpl. constructor; [left; reflexivity | ].
    constructor; [right; reflexivity | ].
    constructor; [left; reflexivity | constructor].
Defined.

(** ** More on the schedule time *)

(** The hour and the minute, each on two digits, make a well-formed time
    that writes them. *)
Lemma twoDigits_time (hour minute : Z) :
  0 <= hour < 24 -> 0 <= minute < 60 ->
  wellFormedLocalTime (twoDigits hour +:+ ":" +:+ twoDigits minute) = true
  /\ writtenHour (twoDigits hour +:+ ":" +:+ twoDigits minute) = hour
  /\ writtenMinute (twoDigits hour +:+ ":" +:+ twoDigits minute) = minute.
Proof.
  intros Hhour Hminute.
  assert (forallb
            (fun h =>
               forallb
                 (fun m =>
                    wellFormedLocalTime (twoDigits h +:+ ":" +:+ twoDigits m)
                    && (writtenHour (twoDigits h +:+ ":" +:+ twoDigits m) =? h)
                    && (writtenMinute (twoDigits h +:+ ":" +:+ twoDigits m) =? m))
                 (seqZ 0 60))
            (seqZ 0 24) = true) as Hall
    by (vm_compute; reflexivity).
  rewrite List.forallb_forall in Hall.
  assert (In hour (seqZ 0 24)) as Hh by (apply list_elem_of_In, elem_of_seqZ; lia).
  specialize (Hall hour Hh). rewrite List.forallb_forall in Hall.
  assert (In minute (seqZ 0 60)) as Hm by (apply list_elem_of_In, elem_of_seqZ; lia).
  specialize (Hall minute Hm).
  rewrite !andb_true_iff, !Z.eqb_eq in Hall. tauto.
Qed.

Section MoreScheduleFacts.
Variable DateTimeFormat : string -> option (Z -> list (string * string)).

(** X17.  Whatever the local time, the time zone and the formatter are,
    a conversion that does not throw returns a well-formed time, or the text
    [NaN:NaN] when the offset or the shifted instant is not a number. *)
Theorem convertLocalTimeToUtc_output_form (localTime timezone utc : string) :
  convertLocalTimeToUtc DateTimeFormat localTime timezone = Ok utc ->
  wellFormedLocalTime utc = true \/ utc = "NaN:NaN".
Proof.
  unfold convertLocalTimeToUtc.
  destruct (getTimeZoneOffset DateTimeFormat (referenceDate localTime) timezone)
    as [offset | e]; [ | discriminate].
  cbn [bind]. intros [= <-].
  destruct (newDate (lift2 Z.sub (referenceDate localTime) offset)) as [t | ].
  - left. cbn [getUTCHours getUTCMinutes fmap option_fmap option_map].
    apply twoDigits_time; apply Z.mod_pos_bound; reflexivity.
  - right. reflexivity.
Qed.

(** X18.  For a well-formed local time and a zone shown at an offset of
    whole minutes, the conversion is undone by the offset: the returned time
    is well formed, and moved forward by the offset it is the local time
    again, within the day. *)
Theorem convertLocalTimeToUtc_round_trip (localTime timezone : string)
    (formatToParts : Z -> list (string * string)) (offset : Z) :
  wellFormedLocalTime localTime = true ->
  DateTimeFormat timezone = Some formatToParts ->
  showsOffset formatToParts (writtenInstant localTime) offset ->
  offset mod msPerMinute = 0 -> - msPerDay <= offset <= msPerDay ->
  exists utc,
    convertLocalTimeToUtc DateTimeFormat localTime timezone = Ok utc
    /\ wellFormedLocalTime utc = true
    /\ (writtenInstant utc + offset) mod msPerDay = writtenInstant localTime.
Proof.
  intros Hwf Hzone Hshows Hoffmin Hoff.
  destruct (referenceDate_wellFormed localTime Hwf) as (_ & Ht & Htmin).
  set (t := writtenInstant localTime) in *.
  assert (offset mod msPerSecond = 0) as Hoffsec.
  { unfold msPerMinute, msPerSecond in *.
    pose proof (Z.div_mod offset 60000 ltac:(lia)) as Hdiv.
    rewrite Hdiv, Hoffmin, Z.add_0_r.
    replace (60000 * (offset / 60000)) with (60 * (offset / 60000) * 1000) by lia.
    apply Z.mod_mul. lia. }
  destruct (convertLocalTimeToUtc_wellFormed DateTimeFormat localTime timezone
              formatToParts offset Hwf Hzone Hshows Hoffsec Hoff) as [_ Hconvert].
  fold t in Hconvert.
  eexists. split; [exact Hconvert | ].
  set (u := t - offset) in *.
  destruct (twoDigits_time ((u / msPerHour) mod 24) ((u / msPerMinute) mod 60))
    as (Hform & Hhour & Hminute); try (apply Z.mod_pos_bound; reflexivity).
  split; [exact Hform | ].
  unfold writtenInstant at 1. rewrite Hhour, Hminute.
  assert (u mod msPerMinute = 0) as Humin.
  { unfold u. rewrite Zminus_mod, Htmin, Hoffmin. reflexivity. }
  unfold msPerHour, msPerMinute, msPerDay in *.
  set (q := u / 60000).
  assert (u = 60000 * q) as Hu by (pose proof (Z.div_mod u 60000); lia).
  replace (u / 3600000) with (q / 60)
    by (unfold q; rewrite Z.div_div by lia; reflexivity).
  pose proof (Z.div_mod q 60 ltac:(lia)) as Hq.
  pose proof (Z.div_mod (q / 60) 24 ltac:(lia)) as Hq'.
  pose proof (Z.mod_pos_bound q 60 ltac:(lia)).
  pose proof (Z.mod_pos_bound (q / 60) 24 ltac:(lia)).
  replace ((q / 60) mod 24 * 3600000 + q mod 60 * 60000 + offset)
    with (t + (- (q / 60 / 24)) * 86400000) by lia.
  rewrite Z.mod_add by lia. apply Z.mod_small. lia.
Qed.

(** X19.  When the formatter gives no part for one of the six fields
    that the code reads, the offset is not a number, and the conversion
    returns the text [NaN:NaN] instead of failing. *)
Theorem convertLocalTimeToUtc_missing_part (localTime timezone field : string)
    (formatToParts : Z -> list (string * string)) (t : Z) :
  DateTimeFormat timezone = Some formatToParts ->
  referenceDate localTime = Some t ->
  In field ["year"; "month"; "day"; "hour"; "minute"; "second"] ->
  collectParts (formatToParts t) !! field = None ->
  getTimeZoneOffset DateTimeFormat (referenceDate localTime) timezone = Ok None
  /\ convertLocalTimeToUtc DateTimeFormat localTime timezone = Ok "NaN:NaN".
Proof.
  intros Hzone Href Hfield Hmissing.
  assert (getTimeZoneOffset DateTimeFormat (referenceDate localTime) timezone
          = Ok None) as Hoffset.
  { unfold getTimeZoneOffset. rewrite Hzone, Href.
    simpl in Hfield.
    destruct Hfield as [<- | [<- | [<- | [<- | [<- | [<- | []]]]]]];
      rewrite Hmissing; cbn [parseIntOf lift2];
      repeat match goal with
             | |- context [parseIntOf ?x] => destruct (parseIntOf x)
             end; reflexivity. }
  split; [exact Hoffset | ].
  unfold convertLocalTimeToUtc. rewrite Hoffset, Href. reflexivity.
Qed.

End MoreScheduleFacts.

Lemma convertLocalTimeToUtc_output_form_witness :
  wellFormedLocalTime "18:00" = true \/ "18:00" = "NaN:NaN".
Proof.
  apply (convertLocalTimeToUtc_output_form engine1970 "25:00" "Asia/Bangkok").
  vm_compute. reflexivity.
Defined.

Lemma convertLocalTimeToUtc_round_trip_witness :
  exists utc,
    convertLocalTimeToUtc engine1970 "02:15" "Asia/Bangkok" = Ok utc
    /\ wellFormedLocalTime utc = true
    /\ (writtenInstant utc + 7 * msPerHour) mod msPerDay = writtenInstant "02:15".
Proof.
  apply (convertLocalTimeToUtc_round_trip engine1970 "02:15" "Asia/Bangkok"
           (wallClockParts (7 * msPerHour)) (7 * msPerHour)).
  - reflexivity.
  - reflexivity.
  - reflexivity.
  - reflexivity.
  - unfold msPerDay, msPerHour. lia.
Defined.

Lemma convertLocalTimeToUtc_missing_part_witness :
  getTimeZoneOffset
    (fun _ => Some (fun _ => [("hour", "10"); ("minute", "00")]))
    (referenceDate "10:00") "Asia/Bangkok" = Ok None
  /\ convertLocalTimeToUtc
       (fun _ => Some (fun _ => [("hour", "10"); ("minute", "00")]))
       "10:00" "Asia/Bangkok" = Ok "NaN:NaN".
Proof.
  apply (convertLocalTimeToUtc_missing_part
           (fun _ => Some (fun _ => [("hour", "10"); ("minute", "00")]))
           "10:00" "Asia/Bangkok" "year"
           (fun _ => [("hour", "10"); ("minute", "00")]) 36000000).
  - reflexivity.
  - reflexivity.
  - simpl. tauto.
  - reflexivity.
Defined.

(** ** The handler of the partner-list notifications *)

Lemma whenTruthy_Some (s : option string) (x : string) :
  Lambda.whenTruthy s = Some x <-> s = Some x /\ x <> "".
Proof.
  unfold Lambda.whenTruthy, truthy. destruct s as [[ | c rest] | ]; simpl.
  - split; [discriminate | intros [[= <-] H]; congruence].
  - split; [intros [= <-]; split; [reflexivity | discriminate] | intros [H _]; exact H].
  - split; [discriminate | intros [H _]; discriminate].
Qed.

Lemma whenTruthy_None (s : option string) :
  Lambda.whenTruthy s = None <-> s = None \/ s = Some "".
Proof.
  unfold Lambda.whenTruthy, truthy. destruct s as [[ | c rest] | ]; simpl.
  - split; [right; reflexivity | reflexivity].
  - split; [discriminate | intros [H | H]; discriminate].
  - split; [left; reflexivity | reflexivity].
Qed.

(** X20.  The module loads exactly when a region and a state machine
    name are set and not empty; the region is [REGION] when that variable
    is set at all, so that an empty [REGION] is not made up for by
    [AWS_REGION]. *)
Theorem loadModule_settings (env : gmap string string)
    (region stateMachineNameEnv : string) :
  Lambda.loadModule env = Lambda.Fulfilled (region, stateMachineNameEnv)
  <-> ((env !! "REGION" = Some region
        \/ (env !! "REGION" = None /\ env !! "AWS_REGION" = Some region))
       /\ region <> ""
       /\ env !! "STATE_MACHINE_NAME" = Some stateMachineNameEnv
       /\ stateMachineNameEnv <> "").
Proof.
  unfold Lambda.loadModule.
  set (chosen := match env !! "REGION" with
                 | Some r => Some r
                 | None => env !! "AWS_REGION"
                 end).
  assert (forall r, chosen = Some r
                    <-> (env !! "REGION" = Some r
                         \/ (env !! "REGION" = None /\ env !! "AWS_REGION" = Some r)))
    as Hchosen.
  { intros r. unfold chosen. destruct (env !! "REGION") as [r' | ].
    - split; [intros H; left; exact H | intros [H | [H _]]; [exact H | discriminate]].
    - split; [intros H; right; split; [reflexivity | exact H]
             | intros [H | [_ H]]; [discriminate | exact H]]. }
  split.
  - destruct (Lambda.whenTruthy chosen) as [r | ] eqn:Hregion; [ | discriminate].
    destruct (Lambda.whenTruthy (env !! "STATE_MACHINE_NAME")) as [n | ] eqn:Hname;
      [ | discriminate].
    intros [= <- <-].
    apply whenTruthy_Some in Hregion, Hname.
    destruct Hregion as [Hregion Hr], Hname as [Hname Hn].
    apply Hchosen in Hregion. tauto.
  - intros (Hregion & Hr & Hname & Hn).
    apply Hchosen in Hregion.
    assert (Lambda.whenTruthy chosen = Some region) as ->
      by (apply whenTruthy_Some; tauto).
    assert (Lambda.whenTruthy (env !! "STATE_MACHINE_NAME") = Some stateMachineNameEnv)
      as -> by (apply whenTruthy_Some; tauto).
    reflexivity.
Qed.

Lemma startsWith_arn_not_empty (s : string) :
  startsWith s "arn:" = true -> s <> "".
Proof. destruct s; [discriminate | discriminate]. Qed.

Section HandlerFacts.
Import Lambda.
Variable region : string.
Variable stateMachineNameEnv : string.
Variable stsAccount : list Effect -> outcome (option string).
Variable sfnDescribed : list Effect -> outcome unit.
Variable sfnStarted : list Effect -> outcome unit.
Variable decodeURIComponent : string -> outcome string.
Variable JSON_stringify : ExecutionPayload -> string.

Local Abbreviation resolve := (resolveStateMachineArn region stsAccount sfnDescribed).
Local Abbreviation process :=
  (processRecord sfnStarted decodeURIComponent JSON_stringify).
Local Abbreviation handle :=
  (handler region stateMachineNameEnv stsAccount sfnDescribed sfnStarted
           decodeURIComponent JSON_stringify).

Lemma resolveStateMachineArn_hit (nameOrArn arn : string) (w : World) :
  whenTruthy (cachedStateMachineArn w) = Some arn ->
  resolve nameOrArn w = (Fulfilled arn, w).
Proof.
  intros Hcached. unfold resolveStateMachineArn, await, readCache.
  rewrite Hcached. reflexivity.
Qed.

Lemma resolveStateMachineArn_fills (nameOrArn arn : string) (w w' : World) :
  resolve nameOrArn w = (Fulfilled arn, w') ->
  whenTruthy (cachedStateMachineArn w') = Some arn.
Proof.
  unfold resolveStateMachineArn, await, readCache, writeCache, perform, ret, raise.
  destruct (whenTruthy (cachedStateMachineArn w)) as [cached | ] eqn:Hcached.
  - intros [= <- <-]. exact Hcached.
  - destruct (startsWith nameOrArn "arn:") eqn:Harn.
    + intros [= <- <-]. cbn. apply whenTruthy_Some. split; [reflexivity | ].
      apply startsWith_arn_not_empty, Harn.
    + destruct (stsAccount (trace w ++ [GetCallerIdentity])) as [account | e];
        [ | discriminate].
      destruct (whenTruthy account) as [a | ]; [ | discriminate].
      match goal with
      | |- context [sfnDescribed ?t] => destruct (sfnDescribed t); [ | discriminate]
      end.
      intros [= <- <-]. cbn. apply whenTruthy_Some. split; [reflexivity | discriminate].
Qed.

(** X21.  Once the ARN has been resolved, it is kept: every later
    resolution, whatever name it is asked for, returns that ARN and does
    nothing else. *)
Theorem resolveStateMachineArn_resolved_once (nameOrArn arn : string) (w w' : World) :
  resolve nameOrArn w = (Fulfilled arn, w') ->
  arn <> ""
  /\ forall other, resolve other w' = (Fulfilled arn, w').
Proof.
  intros Hresolved. apply resolveStateMachineArn_fills in Hresolved.
  split.
  - apply whenTruthy_Some in Hresolved. exact (proj2 Hresolved).
  - intros other. apply resolveStateMachineArn_hit, Hresolved.
Qed.

(** X22.  A resolution that fails caches nothing.  It fails only with
    an empty cache and a name that is not an ARN, after asking STS for the
    account, and at most one call to Step Functions after that. *)
Theorem resolveStateMachineArn_failure (nameOrArn : string) (e : rejection)
    (w w' : World) :
  resolve nameOrArn w = (Rejected e, w') ->
  cachedStateMachineArn w' = cachedStateMachineArn w
  /\ whenTruthy (cachedStateMachineArn w) = None
  /\ startsWith nameOrArn "arn:" = false
  /\ (trace w' = trace w ++ [GetCallerIdentity]
      \/ exists account,
           stsAccount (trace w ++ [GetCallerIdentity]) = Fulfilled (Some account)
           /\ account <> ""
           /\ trace w' = trace w ++ [GetCallerIdentity;
                DescribeStateMachine
                  ("arn:aws:states:" +:+ region +:+ ":" +:+ account
                   +:+ ":stateMachine:" +:+ nameOrArn)]).
Proof.
  unfold resolveStateMachineArn, await, readCache, writeCache, perform, ret, raise.
  destruct (whenTruthy (cachedStateMachineArn w)) as [cached | ] eqn:Hcached;
    [discriminate | ].
  destruct (startsWith nameOrArn "arn:") eqn:Harn; [discriminate | ].
  destruct (stsAccount (trace w ++ [GetCallerIdentity])) as [account | e'] eqn:Hsts.
  - destruct (whenTruthy account) as [a | ] eqn:Haccount.
    + match goal with
      | |- context [sfnDescribed ?t] => destruct (sfnDescribed t); [discriminate | ]
      end.
      intros [= <- <-]. cbn. repeat split; try reflexivity.
      right. exists a. apply whenTruthy_Some in Haccount.
      destruct Haccount as [-> Ha]. repeat split; try assumption.
      rewrite <- app_assoc. reflexivity.
    + intros [= <- <-]. cbn. repeat split; try reflexivity. left. reflexivity.
  - intros [= <- <-]. cbn. repeat split; try reflexivity. left. reflexivity.
Qed.

Lemma processRecord_effects (arn : string) (record : S3EventRecord)
    (o : outcome unit) (w w' : World) :
  process arn record w = (o, w') ->
  cachedStateMachineArn w' = cachedStateMachineArn w
  /\ exists added,
       trace w' = trace w ++ added
       /\ Forall (fun e => isLookup e = false) added
       /\ executions added = executionFor decodeURIComponent JSON_stringify arn record.
Proof.
  unfold processRecord, executionFor, shouldProcessRecord, buildPayload,
    await, liftOutcome, perform.
  destruct (decodedKey decodeURIComponent record) as [decoded | e].
  - destruct (startsWith decoded "IT info/"); cbn.
    + intros [= <- <-]. cbn. split; [reflexivity | ].
      eexists. split; [rewrite <- app_assoc; reflexivity | ].
      split; [repeat constructor | reflexivity].
    + intros [= <- <-]. cbn. split; [reflexivity | ].
      eexists. split; [reflexivity | ].
      split; [repeat constructor | reflexivity].
  - intros [= <- <-]. split; [reflexivity | ].
    exists []. rewrite app_nil_r. repeat split. constructor.
Qed.

Lemma forOf_effects (arn : string) (records : list S3EventRecord)
    (o : outcome unit) (w w' : World) :
  forOf records (process arn) w = (o, w') ->
  cachedStateMachineArn w' = cachedStateMachineArn w
  /\ exists added,
       trace w' = trace w ++ added
       /\ Forall (fun e => isLookup e = false) added
       /\ (o = Fulfilled tt ->
           executions added
           = flat_map (executionFor decodeURIComponent JSON_stringify arn) records).
Proof.
  revert w. induction records as [ | record rest IH]; intros w; cbn [forOf].
  - intros [= <- <-]. split; [reflexivity | ].
    exists []. rewrite app_nil_r. repeat split. constructor.
  - unfold await at 1.
    destruct (process arn record w) as [[[] | e] w1] eqn:Hrecord;
      apply processRecord_effects in Hrecord;
      destruct Hrecord as (Hcache1 & added1 & Htrace1 & Hno1 & Hexec1).
    + intros Hrest. apply IH in Hrest.
      destruct Hrest as (Hcache2 & added2 & Htrace2 & Hno2 & Hexec2).
      split; [congruence | ].
      exists (added1 ++ added2). split; [ | split].
      * rewrite Htrace2, Htrace1, app_assoc. reflexivity.
      * apply Forall_app. split; assumption.
      * intros Ho. unfold executions in *. rewrite omap_app.
        cbn [flat_map]. rewrite Hexec1, (Hexec2 Ho). reflexivity.
    + intros [= <- <-]. split; [exact Hcache1 | ].
      exists added1. repeat split; try assumption. discriminate.
Qed.

Lemma forOf_app {A} (l1 l2 : list A) (body : A -> M unit) (w w1 : World) :
  forOf l1 body w = (Fulfilled tt, w1) ->
  forOf (l1 ++ l2) body w = forOf l2 body w1.
Proof.
  revert w. induction l1 as [ | x rest IH]; intros w; cbn [forOf app].
  - intros [= <-]. reflexivity.
  - unfold await. destruct (body x w) as [[[] | e] w']; [ | discriminate].
    apply IH.
Qed.

Lemma handler_unfold (event : S3Event) (w : World) :
  handle event w
  = match resolve stateMachineNameEnv w with
    | (Fulfilled arn, w') =>
        forOf (match Records event with Some records => records | None => [] end)
              (process arn) w'
    | (Rejected e, w') => (Rejected e, w')
    end.
Proof. reflexivity. Qed.

Lemma handler_warm (event : S3Event) (arn : string) (w : World) :
  whenTruthy (cachedStateMachineArn w) = Some arn ->
  handle event w
  = forOf (match Records event with Some records => records | None => [] end)
          (process arn) w.
Proof.
  intros Hcached. rewrite handler_unfold.
  rewrite (resolveStateMachineArn_hit _ arn w Hcached). reflexivity.
Qed.

Lemma handler_fulfilled (event : S3Event) (w w' : World) :
  handle event w = (Fulfilled tt, w') ->
  exists arn w0,
    resolve stateMachineNameEnv w = (Fulfilled arn, w0)
    /\ forOf (match Records event with Some records => records | None => [] end)
             (process arn) w0 = (Fulfilled tt, w')
    /\ whenTruthy (cachedStateMachineArn w') = Some arn.
Proof.
  rewrite handler_unfold.
  destruct (resolve stateMachineNameEnv w) as [[arn | e] w0] eqn:Hresolve;
    [ | discriminate].
  intros Hloop. exists arn, w0. repeat split; try assumption.
  apply forOf_effects in Hloop. destruct Hloop as [-> _].
  apply (resolveStateMachineArn_fills _ _ _ _ Hresolve).
Qed.


(** X24.  After an invocation that succeeded, no later invocation looks
    the state machine up again: whatever its event and its outcome, it asks
    neither STS for the account nor Step Functions for the description. *)
Theorem handler_looks_up_once (first later : S3Event) (o : outcome unit)
    (w w1 w2 : World) :
  handle first w = (Fulfilled tt, w1) ->
  handle later w1 = (o, w2) ->
  exists added,
    trace w2 = trace w1 ++ added
    /\ Forall (fun e => isLookup e = false) added.
Proof.
  intros Hfirst Hlater. apply handler_fulfilled in Hfirst.
  destruct Hfirst as (arn & _ & _ & _ & Hcached).
  rewrite (handler_warm later arn w1 Hcached) in Hlater.
  apply forOf_effects in Hlater.
  destruct Hlater as (_ & added & Htrace & Hno & _).
  exists added. split; assumption.
Qed.

(** X25.  One invocation for the records [l1 ++ l2] is two invocations in
    a row, for [l1] and then for [l2], when the first of the two succeeds:
    same outcome, same effects, same cache. *)
Theorem handler_splits (l1 l2 : list S3EventRecord) (w w1 : World) :
  handle {| Records := Some l1 |} w = (Fulfilled tt, w1) ->
  handle {| Records := Some (l1 ++ l2) |} w
  = handle {| Records := Some l2 |} w1.
Proof.
  intros Hfirst. apply handler_fulfilled in Hfirst.
  destruct Hfirst as (arn & w0 & Hresolve & Hloop & Hcached). cbn in Hloop.
  rewrite (handler_warm _ arn w1 Hcached).
  rewrite handler_unfold, Hresolve. cbn [Records].
  apply forOf_app, Hloop.
Qed.

(** X26.  The first record that fails ends the invocation: the records
    after it are not looked at, nothing is decoded, written or started for
    them. *)
Theorem handler_stops_at_first_failure (done rest : list S3EventRecord)
    (record : S3EventRecord) (e : rejection) (w w1 w2 : World) :
  handle {| Records := Some done |} w = (Fulfilled tt, w1) ->
  handle {| Records := Some [record] |} w1 = (Rejected e, w2) ->
  handle {| Records := Some (done ++ record :: rest) |} w = (Rejected e, w2).
Proof.
  intros Hdone Hrecord.
  apply handler_fulfilled in Hdone.
  destruct Hdone as (arn & w0 & Hresolve & Hloop & Hcached). cbn in Hloop.
  rewrite handler_unfold, Hresolve. cbn [Records].
  rewrite (forOf_app done (record :: rest) _ w0 w1 Hloop).
  rewrite (handler_warm _ arn w1 Hcached) in Hrecord.
  cbn [Records forOf] in *. unfold await, ret in *.
  destruct (process arn record w1) as [[[] | e'] w'].
  - discriminate.
  - exact Hrecord.
Qed.

End HandlerFacts.

Lemma resolveStateMachineArn_resolved_once_witness :
  "arn:aws:states:ap-southeast-1:123456789012:stateMachine:update-rls" <> ""
  /\ forall other,
       Lambda.resolveStateMachineArn "ap-southeast-1"
         (Lambda.inAccount "123456789012") Lambda.accepted other
         (snd (Lambda.resolveStateMachineArn "ap-southeast-1"
                 (Lambda.inAccount "123456789012") Lambda.accepted
                 "update-rls" Lambda.loaded))
       = (Lambda.Fulfilled
            "arn:aws:states:ap-southeast-1:123456789012:stateMachine:update-rls",
          snd (Lambda.resolveStateMachineArn "ap-southeast-1"
                 (Lambda.inAccount "123456789012") Lambda.accepted
                 "update-rls" Lambda.loaded)).
Proof.
  apply (resolveStateMachineArn_resolved_once "ap-southeast-1"
           (Lambda.inAccount "123456789012") Lambda.accepted
           "update-rls" _ Lambda.loaded).
  reflexivity.
Defined.

Lemma resolveStateMachineArn_failure_witness :
  Lambda.cachedStateMachineArn
    (snd (Lambda.resolveStateMachineArn "ap-southeast-1"
            (fun _ => Lambda.Fulfilled None) Lambda.accepted
            "update-rls" Lambda.loaded))
  = None
  /\ Lambda.trace
       (snd (Lambda.resolveStateMachineArn "ap-southeast-1"
               (fun _ => Lambda.Fulfilled None) Lambda.accepted
               "update-rls" Lambda.loaded))
     = [Lambda.GetCallerIdentity].
Proof.
  destruct (resolveStateMachineArn_failure "ap-southeast-1"
              (fun _ => Lambda.Fulfilled None) Lambda.accepted "update-rls"
              (Lambda.Error
                 "Unable to determine AWS account ID for Step Functions execution")
              Lambda.loaded
              (snd (Lambda.resolveStateMachineArn "ap-southeast-1"
                      (fun _ => Lambda.Fulfilled None) Lambda.accepted
                      "update-rls" Lambda.loaded))
              eq_refl) as (Hcache & _ & _ & _).
  split; [exact Hcache | reflexivity].
Defined.


Lemma handler_looks_up_once_witness :
  exists added,
    Lambda.trace
      (snd (Lambda.handler "ap-southeast-1" "update-rls"
              (Lambda.inAccount "123456789012") Lambda.accepted Lambda.accepted
              Lambda.decodeUnescaped Lambda.key
              {| Lambda.Records := Some [Lambda.partnerListRecord] |}
              (snd (Lambda.handler "ap-southeast-1" "update-rls"
                      (Lambda.inAccount "123456789012") Lambda.accepted
                      Lambda.accepted Lambda.decodeUnescaped Lambda.key
                      {| Lambda.Records := None |} Lambda.loaded))))
    = Lambda.trace
        (snd (Lambda.handler "ap-southeast-1" "update-rls"
                (Lambda.inAccount "123456789012") Lambda.accepted
                Lambda.accepted Lambda.decodeUnescaped Lambda.key
                {| Lambda.Records := None |} Lambda.loaded))
      ++ added
    /\ Forall (fun e => Lambda.isLookup e = false) added.
Proof.
  apply (handler_looks_up_once "ap-southeast-1" "update-rls"
           (Lambda.inAccount "123456789012") Lambda.accepted Lambda.accepted
           Lambda.decodeUnescaped Lambda.key
           {| Lambda.Records := None |}
           {| Lambda.Records := Some [Lambda.partnerListRecord] |}
           (Lambda.Fulfilled tt) Lambda.loaded);
    reflexivity.
Defined.

Lemma handler_splits_witness :
  Lambda.handler "ap-southeast-1" "update-rls"
    (Lambda.inAccount "123456789012") Lambda.accepted Lambda.accepted
    Lambda.decodeUnescaped Lambda.key
    {| Lambda.Records :=
         Some ([Lambda.ruleFileRecord] ++ [Lambda.partnerListRecord]) |}
    Lambda.loaded
  = Lambda.handler "ap-southeast-1" "update-rls"
      (Lambda.inAccount "123456789012") Lambda.accepted Lambda.accepted
      Lambda.decodeUnescaped Lambda.key
      {| Lambda.Records := Some [Lambda.partnerListRecord] |}
      (snd (Lambda.handler "ap-southeast-1" "update-rls"
              (Lambda.inAccount "123456789012") Lambda.accepted Lambda.accepted
              Lambda.decodeUnescaped Lambda.key
              {| Lambda.Records := Some [Lambda.ruleFileRecord] |}
              Lambda.loaded)).
Proof.
  apply (handler_splits "ap-southeast-1" "update-rls"
           (Lambda.inAccount "123456789012") Lambda.accepted Lambda.accepted
           Lambda.decodeUnescaped Lambda.key).
  reflexivity.
Defined.

Lemma handler_stops_at_first_failure_witness :
  Lambda.handler "ap-southeast-1" "update-rls"
    (Lambda.inAccount "123456789012") Lambda.accepted
    (fun _ => Lambda.Rejected (Lambda.ServiceException "ExecutionLimitExceeded"))
    Lambda.decodeUnescaped Lambda.key
    {| Lambda.Records :=
         Some ([Lambda.ruleFileRecord]
               ++ Lambda.partnerListRecord :: [Lambda.partnerListRecord]) |}
    Lambda.loaded
  = (Lambda.Rejected (Lambda.ServiceException "ExecutionLimitExceeded"),
     snd (Lambda.handler "ap-southeast-1" "update-rls"
            (Lambda.inAccount "123456789012") Lambda.accepted
            (fun _ => Lambda.Rejected (Lambda.ServiceException "ExecutionLimitExceeded"))
            Lambda.decodeUnescaped Lambda.key
            {| Lambda.Records :=
                 Some [Lambda.ruleFileRecord; Lambda.partnerListRecord] |}
            Lambda.loaded)).
Proof.
  apply (handler_stops_at_first_failure "ap-southeast-1" "update-rls"
           (Lambda.inAccount "123456789012") Lambda.accepted
           (fun _ => Lambda.Rejected (Lambda.ServiceException "ExecutionLimitExceeded"))
           Lambda.decodeUnescaped Lambda.key
           [Lambda.ruleFileRecord] [Lambda.partnerListRecord]
           Lambda.partnerListRecord
           (Lambda.ServiceException "ExecutionLimitExceeded")
           Lambda.loaded
           (snd (Lambda.handler "ap-southeast-1" "update-rls"
                   (Lambda.inAccount "123456789012") Lambda.accepted
                   (fun _ => Lambda.Rejected
                               (Lambda.ServiceException "ExecutionLimitExceeded"))
                   Lambda.decodeUnescaped Lambda.key
                   {| Lambda.Records := Some [Lambda.ruleFileRecord] |}
                   Lambda.loaded)));
    reflexivity.
Defined.

(** ** Locations in S3 *)

Lemma endsWith_slash_appended (value : string) :
  endsWith (value +:+ "/") "/" = true.
Proof.
  unfold endsWith.
  assert (String.length (value +:+ "/") = S (String.length value)) as ->.
  { induction value as [ | c rest IH]; [reflexivity | ].
    change (String c rest +:+ "/") with (String c (rest +:+ "/")).
    cbn [String.length]. rewrite IH. reflexivity. }
  cbn [String.length Nat.leb Nat.sub]. rewrite Nat.sub_0_r.
  assert (substring (String.length value) 1 (value +:+ "/") = "/") as ->.
  { induction value as [ | c rest IH]; [reflexivity | ].
    change (String c rest +:+ "/") with (String c (rest +:+ "/")).
    cbn [String.length substring]. exact IH. }
  reflexivity.
Qed.

Section LocationFacts.
Variable isUnresolved : string -> bool.
Variable fnJoin : string -> list string -> string.

Lemma ensureTrailingSlash_plain_lemma (value : string) :
  isUnresolved value = false ->
  endsWith (ensureTrailingSlash isUnresolved fnJoin value) "/" = true
  /\ (endsWith value "/" = true ->
      ensureTrailingSlash isUnresolved fnJoin value = value)
  /\ (endsWith value "/" = false ->
      ensureTrailingSlash isUnresolved fnJoin value = value +:+ "/").
Proof.
  intros Hplain. unfold ensureTrailingSlash. rewrite Hplain.
  destruct (endsWith value "/") eqn:Hends.
  - repeat split; [exact Hends | discriminate].
  - repeat split; [apply endsWith_slash_appended | discriminate].
Qed.

(** X27.  On plain text [ensureTrailingSlash] returns a text that ends
    with a slash, the value itself when it already does and the value with
    one slash more when it does not; and it settles there: applied again to
    a result that is still plain text, it changes nothing. *)
Theorem ensureTrailingSlash_plain (value : string) :
  isUnresolved value = false ->
  endsWith (ensureTrailingSlash isUnresolved fnJoin value) "/" = true
  /\ (ensureTrailingSlash isUnresolved fnJoin value = value
      \/ (endsWith value "/" = false
          /\ ensureTrailingSlash isUnresolved fnJoin value = value +:+ "/"))
  /\ (isUnresolved (ensureTrailingSlash isUnresolved fnJoin value) = false ->
      ensureTrailingSlash isUnresolved fnJoin
        (ensureTrailingSlash isUnresolved fnJoin value)
      = ensureTrailingSlash isUnresolved fnJoin value).
Proof.
  intros Hplain.
  destruct (ensureTrailingSlash_plain_lemma value Hplain) as (Hends & Hkept & Hadded).
  split; [exact Hends | split].
  - destruct (endsWith value "/") eqn:Hvalue.
    + left. apply Hkept. reflexivity.
    + right. split; [reflexivity | apply Hadded; reflexivity].
  - intros Hstill.
    destruct (ensureTrailingSlash_plain_lemma _ Hstill) as (_ & Hagain & _).
    apply Hagain, Hends.
Qed.

(** X28.  The location of a Glue table and the location of the Athena
    results are built alike; for a plain suffix the last piece joined is the
    suffix as [ensureTrailingSlash] leaves it, so the joined pieces end with
    one slash that closes the suffix, while a suffix that is a token always
    gets a slash of its own, whatever it stands for. *)
Theorem buildS3Uri_buildResultsLocation (bucketName suffix : string) :
  buildS3Uri isUnresolved fnJoin bucketName suffix
  = buildResultsLocation isUnresolved fnJoin bucketName suffix
  /\ (isUnresolved suffix = false ->
      buildS3Uri isUnresolved fnJoin bucketName suffix
      = fnJoin "" ["s3://"; bucketName; "/";
                   ensureTrailingSlash isUnresolved fnJoin suffix]
      /\ endsWith (ensureTrailingSlash isUnresolved fnJoin suffix) "/" = true)
  /\ (isUnresolved suffix = true ->
      buildS3Uri isUnresolved fnJoin bucketName suffix
      = fnJoin "" ["s3://"; bucketName; "/"; suffix; "/"]).
Proof.
  split; [reflexivity | split].
  - intros Hplain. split.
    + unfold buildS3Uri, ensureTrailingSlash. rewrite Hplain. reflexivity.
    + apply ensureTrailingSlash_plain_lemma, Hplain.
  - intros Htoken. unfold buildS3Uri. rewrite Htoken. reflexivity.
Qed.

End LocationFacts.

Lemma ensureTrailingSlash_plain_witness :
  endsWith (ensureTrailingSlash markerTest String.concat "cur-rls") "/"
  = true
  /\ (ensureTrailingSlash markerTest String.concat "cur-rls" = "cur-rls"
      \/ (endsWith "cur-rls" "/" = false
          /\ ensureTrailingSlash markerTest String.concat "cur-rls"
             = "cur-rls" +:+ "/"))
  /\ (markerTest (ensureTrailingSlash markerTest String.concat "cur-rls")
      = false ->
      ensureTrailingSlash markerTest String.concat
        (ensureTrailingSlash markerTest String.concat "cur-rls")
      = ensureTrailingSlash markerTest String.concat "cur-rls").
Proof.
  apply (ensureTrailingSlash_plain markerTest String.concat "cur-rls").
  reflexivity.
Defined.

(** ** Rendering SQL *)

Lemma getSubstitution_dollarSafe (matched before after template : string) :
  dollarSafe template = true ->
  getSubstitution matched before after template = template.
Proof.
  induction template as [ | c rest IH]; [reflexivity | ].
  cbn [dollarSafe getSubstitution]. intros Hsafe.
  apply andb_true_iff in Hsafe. destruct Hsafe as [Hhere Hrest].
  specialize (IH Hrest).
  destruct (Ascii.eqb c "$"); [ | rewrite IH; reflexivity].
  destruct rest as [ | d rest']; [reflexivity | ].
  unfold isSubstitutionMark in Hhere.
  rewrite !negb_true_iff, !orb_false_iff in Hhere.
  destruct Hhere as [[[-> ->] ->] ->].
  rewrite IH. reflexivity.
Qed.

Lemma replaceGlobalFrom_dollarSafe (pattern template before rest : string)
    (skip : nat) :
  dollarSafe template = true ->
  replaceGlobalFrom pattern template before rest skip
  = substituteAllFrom pattern template rest skip.
Proof.
  intros Hsafe. revert before skip.
  induction rest as [ | c rest' IH]; intros before skip; [reflexivity | ].
  cbn [replaceGlobalFrom substituteAllFrom].
  destruct skip as [ | k]; [ | apply IH].
  destruct (String.prefix pattern (String c rest')).
  - rewrite getSubstitution_dollarSafe by exact Hsafe. rewrite IH. reflexivity.
  - rewrite IH. reflexivity.
Qed.

Lemma dollarSafe_app (s t : string) :
  dollarSafe s = true -> dollarSafe t = true ->
  match t with
  | String d _ => isSubstitutionMark d = false
  | EmptyString => True
  end ->
  dollarSafe (s +:+ t) = true.
Proof.
  intros Hs Ht Hfirst. induction s as [ | c rest IH].
  - exact Ht.
  - change (String c rest +:+ t) with (String c (rest +:+ t)).
    cbn [dollarSafe] in *. apply andb_true_iff in Hs. destruct Hs as [Hhere Hrest].
    rewrite (IH Hrest), andb_true_r.
    destruct (Ascii.eqb c "$"); [ | reflexivity].
    destruct rest as [ | d rest'].
    + change ("" +:+ t) with t. destruct t as [ | d t']; [reflexivity | ].
      rewrite Hfirst. reflexivity.
    + exact Hhere.
Qed.

Lemma dollarSafe_quoted (s : string) :
  dollarSafe s = true -> dollarSafe (quoted s) = true.
Proof.
  intros Hs. unfold quoted.
  change (dollarSafe (String "034" (s +:+ String "034" "")))
    with (true && dollarSafe (s +:+ String "034" "")).
  rewrite andb_true_l. apply dollarSafe_app; [exact Hs | reflexivity | reflexivity].
Qed.

Lemma dollarSafe_dotted (s : string) :
  dollarSafe s = true -> dollarSafe ("." +:+ s) = true.
Proof. intros Hs. exact Hs. Qed.

(** X29.  A database name and a table name whose dollar signs are
    followed by none of [$], [&], backquote and quote are written into the
    SQL as they are: every ["cur-quicksight"] becomes the quoted database
    name, then every [.data] of the result the table name after a dot, and
    the state machine's query gets the first of the two.  A token of the CDK,
    which opens with a dollar sign and a brace, is such a name. *)
Theorem renderSql_inserts_names_verbatim
    (readFileSync : string -> result string)
    (filePath sql databaseName curTableName : string) :
  dollarSafe databaseName = true ->
  dollarSafe curTableName = true ->
  readFileSync filePath = Ok sql ->
  QuicksightStack.renderSql readFileSync filePath databaseName curTableName
  = Ok (substituteAll
          (substituteAll sql (quoted "cur-quicksight") (quoted databaseName))
          ".data" ("." +:+ curTableName))
  /\ ComputeStack.renderSql databaseName sql
     = substituteAll sql (quoted "cur-quicksight") (quoted databaseName).
Proof.
  intros Hdb Htable Hread.
  unfold QuicksightStack.renderSql, ComputeStack.renderSql, replaceGlobal,
    substituteAll.
  rewrite Hread. cbn [bind].
  rewrite !(replaceGlobalFrom_dollarSafe _ (quoted databaseName))
    by (apply dollarSafe_quoted, Hdb).
  rewrite (replaceGlobalFrom_dollarSafe _ ("." +:+ curTableName))
    by (apply dollarSafe_dotted, Htable).
  split; reflexivity.
Qed.

Lemma renderSql_inserts_names_verbatim_witness :
  QuicksightStack.renderSql
    (fun _ => Ok "SELECT * FROM cur.data WHERE 1 = 1")
    "assets/quicksight/CUR.sql" "${Token[TOKEN.21]}" "${Token[TOKEN.22]}"
  = Ok (substituteAll
          (substituteAll "SELECT * FROM cur.data WHERE 1 = 1"
             (quoted "cur-quicksight") (quoted "${Token[TOKEN.21]}"))
          ".data" ("." +:+ "${Token[TOKEN.22]}"))
  /\ ComputeStack.renderSql "${Token[TOKEN.21]}" "SELECT * FROM cur.data WHERE 1 = 1"
     = substituteAll "SELECT * FROM cur.data WHERE 1 = 1"
         (quoted "cur-quicksight") (quoted "${Token[TOKEN.21]}").
Proof.
  apply (renderSql_inserts_names_verbatim
           (fun _ => Ok "SELECT * FROM cur.data WHERE 1 = 1")
           "assets/quicksight/CUR.sql");
    reflexivity.
Defined.
